(** * 4D-Tetris: the game-state engine of [tetris.c]

    A shallow embedding of the board, the active piece, the collision
    checker, rotation, locking, the tick movement, the line-clear pass and
    the quadrant gravity resolver, with the properties the specification
    states about them.

    Conventions.
    - A C [int] is a [Z]; arithmetic on the game variables ([x], [y],
      [rotation], [score], [speed]) is written with the 32-bit two's
      complement wrap-around of the RV32 target ([wrap_int]).  Loop
      counters range over small constant intervals and are plain [Z].
    - [board.cells] is a list of rows, each a list of cells, read and
      written by index.  A well-formed board ([wf_board]) has
      [BOARD_HEIGHT] rows of [BOARD_WIDTH] cells.
    - The global variables are the fields of the record [Game]; a C
      function that writes globals is a function on [Game] (or on the
      part of it that it touches).
    - Drawing, delays and the timer registers are outside the engine and
      are left out. *)

From Stdlib Require Import ZArith List Bool Lia.
From stdpp Require Import base list.
Import ListNotations.

#[local] Open Scope Z_scope.

(** ** Machine integers *)

Definition INT_MIN : Z := - 2 ^ 31.
Definition INT_MAX : Z := 2 ^ 31 - 1.

Definition is_int (z : Z) : Prop := INT_MIN <= z <= INT_MAX.

(** Reduction of a mathematical integer to the value an [int] holds. *)
Definition wrap_int (z : Z) : Z := (z + 2 ^ 31) mod 2 ^ 32 - 2 ^ 31.

(** Reduction to an [unsigned int]. *)
Definition wrap_uint (z : Z) : Z := z mod 2 ^ 32.

Definition int_add (a b : Z) : Z := wrap_int (a + b).
Definition int_sub (a b : Z) : Z := wrap_int (a - b).
Definition int_mul (a b : Z) : Z := wrap_int (a * b).

(** ** Constants of the source *)

Definition BOARD_WIDTH : Z := 20.
Definition BOARD_HEIGHT : Z := 20.

Definition BLACK : Z := 0.

Definition SCORE_SINGLE : Z := 100.
Definition SCORE_DOUBLE : Z := 300.
Definition SCORE_TRIPLE : Z := 500.
Definition SCORE_TETRIS : Z := 800.

Definition DIR_DOWN : Z := 0.
Definition DIR_UP : Z := 1.
Definition DIR_LEFT : Z := 2.
Definition DIR_RIGHT : Z := 3.

Definition startSpeed : Z := 899999.

(** [TETROMINOS[7][4]]: one 16-bit mask per kind and rotation. *)
Definition TETROMINOS : list (list Z) :=
  [ [0x0F00; 0x2222; 0x0F00; 0x2222];
    [0x8E00; 0x6440; 0x0E20; 0x44C0];
    [0x2E00; 0x4460; 0x0E80; 0xC440];
    [0x6600; 0x6600; 0x6600; 0x6600];
    [0x6C00; 0x4620; 0x6C00; 0x4620];
    [0x4E00; 0x4640; 0x0E40; 0x4C40];
    [0xC600; 0x2640; 0xC600; 0x2640] ].

(** ** Data model *)

Module Piece.

Record t : Type := mk
  { x : Z; y : Z; type : Z; rotation : Z; direction : Z }.

Definition with_x (p : t) (v : Z) : t :=
  {| x := v; y := y p; type := type p; rotation := rotation p;
     direction := direction p |}.

Definition with_y (p : t) (v : Z) : t :=
  {| x := x p; y := v; type := type p; rotation := rotation p;
     direction := direction p |}.

Definition with_rotation (p : t) (v : Z) : t :=
  {| x := x p; y := y p; type := type p; rotation := v;
     direction := direction p |}.

End Piece.

Abbreviation Piece := Piece.t.

(** [char cells[BOARD_HEIGHT][BOARD_WIDTH]] *)
Abbreviation Board := (list (list Z)).

Definition wf_board (b : Board) : Prop :=
  length b = Z.to_nat BOARD_HEIGHT /\
  Forall (fun row => length row = Z.to_nat BOARD_WIDTH) b.

#[local] Instance wf_board_dec (b : Board) : Decision (wf_board b).
Proof. unfold wf_board. apply _. Defined.

Definition wf_piece (p : Piece) : Prop :=
  0 <= Piece.type p < 7 /\ 0 <= Piece.rotation p < 4 /\
  is_int (Piece.x p) /\ is_int (Piece.y p).

(** [board.cells[y][x]] as an rvalue.  An index outside the array is
    undefined in C; the model reads [BLACK] there. *)
Definition cell (b : Board) (y x : Z) : Z :=
  if (y <? 0) || (x <? 0) then BLACK
  else match b !! Z.to_nat y with
       | Some row => default BLACK (row !! Z.to_nat x)
       | None => BLACK
       end.

(** [board.cells[y][x] = v].  An index outside the array is undefined in
    C; the model leaves the board as it is. *)
Definition set_cell (b : Board) (y x v : Z) : Board :=
  if (y <? 0) || (x <? 0) then b
  else alter (fun row => <[Z.to_nat x := v]> row) (Z.to_nat y) b.

(** The index set of [for (i = lo; i < hi; i++)]. *)
Definition range (lo hi : Z) : list Z := seqZ lo (hi - lo).

(** The index set of [for (i = hi - 1; i >= lo; i--)]. *)
Definition range_down (lo hi : Z) : list Z := reverse (range lo hi).

(** A [for] loop over an index list, threading the loop state. *)
Definition for_each {S : Type} (idx : list Z) (body : Z -> S -> S) (s : S) : S :=
  fold_left (fun st i => body i st) idx s.

Definition init_board : Board :=
  replicate (Z.to_nat BOARD_HEIGHT) (replicate (Z.to_nat BOARD_WIDTH) BLACK).

(** ** Shape table access *)

(** [TETROMINOS[type][rotation]] *)
Definition shape_of (type rotation : Z) : Z :=
  if (type <? 0) || (rotation <? 0) then 0
  else match TETROMINOS !! Z.to_nat type with
       | Some row => default 0 (row !! Z.to_nat rotation)
       | None => 0
       end.

(** [(shape >> (15 - (y * 4 + x))) & 1] as a truth value *)
Definition shape_bit (shape y x : Z) : bool :=
  negb (Z.land (Z.shiftr shape (15 - (y * 4 + x))) 1 =? 0).

(** The pairs [(y, x)] visited by
    [for (y = 0; y < 4; y++) for (x = 0; x < 4; x++)], in order. *)
Definition shape_cells : list (Z * Z) :=
  y ← range 0 4; x ← range 0 4; [(y, x)].

(** ** Session state: the global variables of the engine *)

Record Game : Type := mkGame
  { board : Board;
    currentPiece : Piece;
    gameOver : Z;
    score : Z;
    speed : Z;
    randState : Z }.

Definition set_board (g : Game) (b : Board) : Game :=
  {| board := b; currentPiece := currentPiece g; gameOver := gameOver g;
     score := score g; speed := speed g; randState := randState g |}.

Definition set_currentPiece (g : Game) (p : Piece) : Game :=
  {| board := board g; currentPiece := p; gameOver := gameOver g;
     score := score g; speed := speed g; randState := randState g |}.

(** ** Collision checker *)

(** Code that reads or writes the globals and returns a value: a state
    transformer on [Game]. *)
Definition M (A : Type) : Type := Game -> A * Game.

#[local] Instance M_ret : MRet M := fun A a g => (a, g).
#[local] Instance M_bind : MBind M :=
  fun A B k m g => let '(a, g') := m g in k a g'.

(** Reading a global. *)
Definition gets {A : Type} (f : Game -> A) : M A := fun g => (f g, g).

(** The body of the two loops of [check_collision], with its early
    [return 1].  The pointer [p] is the accessor of the piece it points
    to; [||] evaluates left to right and stops at the first true operand,
    so the board is read only inside its bounds. *)
Fixpoint collision_scan (p : Game -> Piece) (shape : Z)
    (cells : list (Z * Z)) : M Z :=
  match cells with
  | [] => mret 0
  | (y, x) :: rest =>
      if shape_bit shape y x then
        px ← gets (fun g => Piece.x (p g));
        py ← gets (fun g => Piece.y (p g));
        let boardX := int_add px x in
        let boardY := int_add py y in
        if (boardX <? 0) || (boardX >=? BOARD_WIDTH) ||
           (boardY <? 0) || (boardY >=? BOARD_HEIGHT)
        then mret 1
        else
          c ← gets (fun g => cell (board g) boardY boardX);
          if negb (c =? BLACK) then mret 1
          else collision_scan p shape rest
      else collision_scan p shape rest
  end.

Definition check_collision (p : Game -> Piece) : M Z :=
  shape ← gets (fun g => shape_of (Piece.type (p g)) (Piece.rotation (p g)));
  collision_scan p shape shape_cells.

(** ** Random source *)

(** [my_rand]: the value returned and the new [randState]. *)
Definition my_rand (st : Z) : Z * Z :=
  let st' := wrap_uint (st * 1103515245 + 12345) in
  (Z.land (Z.shiftr st' 16) 0x7fff, st').

(** ** Spawn *)

Definition spawn_piece (g : Game) : Game :=
  let '(r1, st1) := my_rand (randState g) in
  let '(r2, st2) := my_rand st1 in
  let p := {| Piece.x := Z.quot BOARD_WIDTH 2 - 2;
              Piece.y := Z.quot BOARD_HEIGHT 2 - 2;
              Piece.type := Z.rem r1 7;
              Piece.rotation := 0;
              Piece.direction := Z.rem r2 4 |} in
  let g1 :=
    {| board := board g; currentPiece := p; gameOver := gameOver g;
       score := score g; speed := speed g; randState := st2 |} in
  let '(c, g2) := check_collision currentPiece g1 in
  if negb (c =? 0)
  then {| board := board g2; currentPiece := currentPiece g2; gameOver := 1;
          score := score g2; speed := speed g2; randState := randState g2 |}
  else g2.

(** ** Lock *)

(** The two loops of [lock_piece] on the board.  The stored value
    [type + 1] is converted to [char]; for a piece kind in [0, 7) it is
    one of [1 .. 7] and the conversion is the identity. *)
Definition lock_cells (p : Piece) (b : Board) : Board :=
  let shape := shape_of (Piece.type p) (Piece.rotation p) in
  fold_left
    (fun bd '(y, x) =>
       if shape_bit shape y x
       then set_cell bd (int_add (Piece.y p) y) (int_add (Piece.x p) x)
                     (int_add (Piece.type p) 1)
       else bd)
    shape_cells b.

Definition lock_piece (g : Game) : Game :=
  set_board g (lock_cells (currentPiece g) (board g)).

(** ** Rotation *)

Definition rotate_piece (g : Game) : Game :=
  let oldRotation := Piece.rotation (currentPiece g) in
  let g1 := set_currentPiece g
              (Piece.with_rotation (currentPiece g)
                 (Z.rem (int_add (Piece.rotation (currentPiece g)) 1) 4)) in
  let '(c, g2) := check_collision currentPiece g1 in
  if negb (c =? 0)
  then set_currentPiece g2 (Piece.with_rotation (currentPiece g2) oldRotation)
  else g2.

(** ** Gravity resolver *)

Definition centerX : Z := Z.quot BOARD_WIDTH 2.
Definition centerY : Z := Z.quot BOARD_HEIGHT 2.

(** The body shared by the six inner loops of [apply_gravity]: the cell
    at [(y, x)] moves to the neighbour [(y', x')] when it is occupied and
    the neighbour is empty.  The loop state is the board and [changes]. *)
Definition fall_step (y x y' x' : Z) (st : Board * Z) : Board * Z :=
  let '(b, changes) := st in
  if negb (cell b y x =? BLACK) && (cell b y' x' =? BLACK)
  then (set_cell (set_cell b y' x' (cell b y x)) y x BLACK, changes + 1)
  else (b, changes).

Definition fall_up (st : Board * Z) : Board * Z :=
  for_each (range 1 centerY) (fun y =>
    for_each (range 0 BOARD_WIDTH) (fun x => fall_step y x (y - 1) x)) st.

Definition fall_down (st : Board * Z) : Board * Z :=
  for_each (range_down centerY (BOARD_HEIGHT - 1)) (fun y =>
    for_each (range 0 BOARD_WIDTH) (fun x => fall_step y x (y + 1) x)) st.

Definition fall_right (ylo yhi : Z) (st : Board * Z) : Board * Z :=
  for_each (range_down centerX (BOARD_WIDTH - 1)) (fun x =>
    for_each (range ylo yhi) (fun y => fall_step y x y (x + 1))) st.

Definition fall_left (ylo yhi : Z) (st : Board * Z) : Board * Z :=
  for_each (range 1 centerX) (fun x =>
    for_each (range ylo yhi) (fun y => fall_step y x y (x - 1))) st.

(** One iteration of the [do ... while] body: the board after the sweep
    and the value of [changes]. *)
Definition gravity_sweep (clearedRow clearedCol : Z) (b : Board) : Board * Z :=
  let st := (b, 0) in
  let st :=
    if negb (clearedRow =? -1) then
      if clearedRow <? centerY then fall_up st else fall_down st
    else st in
  let st :=
    if negb (clearedCol =? -1) then
      let st :=
        if clearedCol >=? centerX
        then fall_right 0 centerY st
        else fall_left 0 centerY st in
      let st :=
        if clearedCol >=? centerX
        then fall_right centerY BOARD_HEIGHT st
        else fall_left centerY BOARD_HEIGHT st in
      st
    else st in
  st.

(** [apply_gravity]: the [do ... while (changes > 0)] loop, with the
    number of sweeps it may run as fuel.  [None] is "out of fuel". *)
Fixpoint apply_gravity (fuel : nat) (clearedRow clearedCol : Z) (b : Board)
    : option Board :=
  match fuel with
  | O => None
  | S fuel' =>
      let '(b', changes) := gravity_sweep clearedRow clearedCol b in
      if changes >? 0
      then apply_gravity fuel' clearedRow clearedCol b'
      else Some b'
  end.

(** ** Line-clear pass *)

(** The inner loop that computes [complete] for row [y]. *)
Definition row_complete (b : Board) (y : Z) : bool :=
  forallb (fun x => negb (cell b y x =? BLACK)) (range 0 BOARD_WIDTH).

(** The inner loop that computes [complete] for column [x]. *)
Definition col_complete (b : Board) (x : Z) : bool :=
  forallb (fun y => negb (cell b y x =? BLACK)) (range 0 BOARD_HEIGHT).

Definition clear_row (b : Board) (y : Z) : Board :=
  for_each (range 0 BOARD_WIDTH) (fun x bd => set_cell bd y x BLACK) b.

Definition clear_col (b : Board) (x : Z) : Board :=
  for_each (range 0 BOARD_HEIGHT) (fun y bd => set_cell bd y x BLACK) b.

(** The locals of [check_lines] together with the board. *)
Record Scan : Type := mkScan
  { sc_board : Board;
    linesCleared : Z;
    lastClearedRow : Z;
    lastClearedCol : Z }.

(** "Check horizontal lines": one iteration of the outer loop. *)
Definition scan_row (y : Z) (s : Scan) : Scan :=
  if row_complete (sc_board s) y
  then {| sc_board := clear_row (sc_board s) y;
          linesCleared := linesCleared s + 1;
          lastClearedRow := y;
          lastClearedCol := lastClearedCol s |}
  else s.

(** "Check vertical lines": one iteration of the outer loop. *)
Definition scan_col (x : Z) (s : Scan) : Scan :=
  if col_complete (sc_board s) x
  then {| sc_board := clear_col (sc_board s) x;
          linesCleared := linesCleared s + 1;
          lastClearedRow := lastClearedRow s;
          lastClearedCol := x |}
  else s.

Definition scan_rows (s : Scan) : Scan :=
  for_each (range 0 BOARD_HEIGHT) scan_row s.

Definition scan_cols (s : Scan) : Scan :=
  for_each (range 0 BOARD_WIDTH) scan_col s.

(** The locals as initialised at the top of [check_lines]. *)
Definition scan_start (b : Board) : Scan :=
  {| sc_board := b; linesCleared := 0;
     lastClearedRow := -1; lastClearedCol := -1 |}.

(** The detection-and-clear part of [check_lines], up to the call of
    [apply_gravity]. *)
Definition scan_lines (b : Board) : Scan :=
  scan_cols (scan_rows (scan_start b)).

(** The [switch (linesCleared)] of [check_lines]: the new [score] and
    [speed]. *)
Definition update_score (lines sc sp : Z) : Z * Z :=
  if lines =? 1 then
    let sc := int_add sc SCORE_SINGLE in
    (sc, if sp >? 1000 then int_sub sp (int_mul sc 400) else sp)
  else if lines =? 2 then
    let sc := int_add sc SCORE_DOUBLE in
    (sc, if sp >? 1000 then int_sub sp (int_mul (int_mul sc 400) 2) else sp)
  else if lines =? 3 then
    let sc := int_add sc SCORE_TRIPLE in
    (sc, if sp >? 1000 then int_sub sp (int_mul (int_mul sc 400) 3) else sp)
  else if lines =? 4 then
    let sc := int_add sc SCORE_TETRIS in
    (sc, if sp >? 1000 then int_sub sp (int_mul (int_mul sc 400) 4) else sp)
  else (sc, sp).

Definition check_lines (fuel : nat) (g : Game) : option Game :=
  let s := scan_lines (board g) in
  let settled :=
    if negb (lastClearedRow s =? -1) || negb (lastClearedCol s =? -1)
    then apply_gravity fuel (lastClearedRow s) (lastClearedCol s) (sc_board s)
    else Some (sc_board s) in
  match settled with
  | None => None
  | Some b =>
      let '(sc, sp) := update_score (linesCleared s) (score g) (speed g) in
      Some {| board := b; currentPiece := currentPiece g;
              gameOver := gameOver g; score := sc; speed := sp;
              randState := randState g |}
  end.

(** ** Movement tick *)

(** The first [switch (currentPiece.direction)] of
    [handle_tick_movement]. *)
Definition tick_translate (p : Piece) : Piece :=
  let d := Piece.direction p in
  if d =? DIR_DOWN then Piece.with_y p (int_add (Piece.y p) 1)
  else if d =? DIR_UP then Piece.with_y p (int_sub (Piece.y p) 1)
  else if d =? DIR_LEFT then Piece.with_x p (int_sub (Piece.x p) 1)
  else if d =? DIR_RIGHT then Piece.with_x p (int_add (Piece.x p) 1)
  else p.

(** The second switch, "Undo movement". *)
Definition tick_undo (p : Piece) : Piece :=
  let d := Piece.direction p in
  if d =? DIR_DOWN then Piece.with_y p (int_sub (Piece.y p) 1)
  else if d =? DIR_UP then Piece.with_y p (int_add (Piece.y p) 1)
  else if d =? DIR_LEFT then Piece.with_x p (int_add (Piece.x p) 1)
  else if d =? DIR_RIGHT then Piece.with_x p (int_sub (Piece.x p) 1)
  else p.

Definition handle_tick_movement (fuel : nat) (g : Game) : option Game :=
  let g1 := set_currentPiece g (tick_translate (currentPiece g)) in
  let '(c, g2) := check_collision currentPiece g1 in
  if negb (c =? 0) then
    let g3 := set_currentPiece g2 (tick_undo (currentPiece g2)) in
    let g4 := lock_piece g3 in
    match check_lines fuel g4 with
    | None => None
    | Some g5 => Some (spawn_piece g5)
    end
  else Some g2.

(** * Vocabulary of the properties *)

(** ** Board positions *)

(** The position [(y, x)] exists in the list structure of [b]. *)
Definition in_board (b : Board) (y x : Z) : bool :=
  (0 <=? y) && (0 <=? x) &&
  match b !! Z.to_nat y with
  | Some row => bool_decide (Z.to_nat x < length row)%nat
  | None => false
  end.

(** ** The gravity resolver as a list of moves *)

(** A move of the resolver: the cell [(y, x)] and the neighbour
    [(y', x')] it falls into. *)
Definition Move : Type := Z * Z * Z * Z.

Definition run_move (st : Board * Z) (m : Move) : Board * Z :=
  let '(y, x, y', x') := m in fall_step y x y' x' st.

Definition run_moves (ms : list Move) (st : Board * Z) : Board * Z :=
  fold_left run_move ms st.

Definition moves_up : list Move :=
  y ← range 1 centerY; x ← range 0 BOARD_WIDTH; [(y, x, y - 1, x)].

Definition moves_down : list Move :=
  y ← range_down centerY (BOARD_HEIGHT - 1);
  x ← range 0 BOARD_WIDTH; [(y, x, y + 1, x)].

Definition moves_right (ylo yhi : Z) : list Move :=
  x ← range_down centerX (BOARD_WIDTH - 1);
  y ← range ylo yhi; [(y, x, y, x + 1)].

Definition moves_left (ylo yhi : Z) : list Move :=
  x ← range 1 centerX; y ← range ylo yhi; [(y, x, y, x - 1)].

Definition sweep_moves (clearedRow clearedCol : Z) : list Move :=
  (if negb (clearedRow =? -1)
   then if clearedRow <? centerY then moves_up else moves_down
   else []) ++
  (if negb (clearedCol =? -1)
   then (if clearedCol >=? centerX
         then moves_right 0 centerY else moves_left 0 centerY) ++
        (if clearedCol >=? centerX
         then moves_right centerY BOARD_HEIGHT
         else moves_left centerY BOARD_HEIGHT)
   else []).

(** The condition of the [if] in [fall_step]. *)
Definition movable (b : Board) (m : Move) : Prop :=
  let '(y, x, y', x') := m in cell b y x <> BLACK /\ cell b y' x' = BLACK.

(** ** Settled boards *)

Definition occupied (b : Board) (y x : Z) : Prop := cell b y x <> BLACK.

(** Rows [[1, centerY)] fall upward: nothing empty between an occupied
    cell and the top edge. *)
Definition settled_up (b : Board) : Prop :=
  forall y x, 1 <= y < centerY -> 0 <= x < BOARD_WIDTH -> occupied b y x ->
  forall y', 0 <= y' < y -> occupied b y' x.

(** Rows [[centerY, H-1)] fall downward. *)
Definition settled_down (b : Board) : Prop :=
  forall y x, centerY <= y < BOARD_HEIGHT - 1 -> 0 <= x < BOARD_WIDTH ->
  occupied b y x ->
  forall y', y < y' < BOARD_HEIGHT -> occupied b y' x.

(** Columns [[centerX, W-1)] fall rightward, in every row. *)
Definition settled_right (b : Board) : Prop :=
  forall y x, 0 <= y < BOARD_HEIGHT -> centerX <= x < BOARD_WIDTH - 1 ->
  occupied b y x ->
  forall x', x < x' < BOARD_WIDTH -> occupied b y x'.

(** Columns [[1, centerX)] fall leftward, in every row. *)
Definition settled_left (b : Board) : Prop :=
  forall y x, 0 <= y < BOARD_HEIGHT -> 1 <= x < centerX ->
  occupied b y x ->
  forall x', 0 <= x' < x -> occupied b y x'.

(** The board is a fixed point of the rules that the arguments of
    [apply_gravity] select. *)
Definition settled (clearedRow clearedCol : Z) (b : Board) : Prop :=
  (clearedRow <> -1 ->
   if clearedRow <? centerY then settled_up b else settled_down b) /\
  (clearedCol <> -1 ->
   if clearedCol >=? centerX then settled_right b else settled_left b).

(** ** Potential energy *)

Definition board_coords : list (Z * Z) :=
  y ← range 0 BOARD_HEIGHT; x ← range 0 BOARD_WIDTH; [(y, x)].

Definition sum_over (f : Z * Z -> Z) (l : list (Z * Z)) : Z :=
  foldr (fun p acc => f p + acc) 0 l.

(** Distance of a position from the edges towards which the selected
    rules let cells fall. *)
Definition fall_distance (clearedRow clearedCol : Z) (p : Z * Z) : Z :=
  (if clearedRow =? -1 then 0
   else if clearedRow <? centerY then fst p else BOARD_HEIGHT - 1 - fst p) +
  (if clearedCol =? -1 then 0
   else if clearedCol >=? centerX then BOARD_WIDTH - 1 - snd p else snd p).

Definition energy_at (clearedRow clearedCol : Z) (b : Board) (p : Z * Z) : Z :=
  if cell b (fst p) (snd p) =? BLACK then 0
  else fall_distance clearedRow clearedCol p + 1.

Definition potential (clearedRow clearedCol : Z) (b : Board) : Z :=
  sum_over (energy_at clearedRow clearedCol b) board_coords.

(** A number of sweeps that is always enough. *)
Definition gravity_fuel (clearedRow clearedCol : Z) (b : Board) : nat :=
  S (Z.to_nat (potential clearedRow clearedCol b)).

(** A move goes one step down the potential. *)
Definition falls (clearedRow clearedCol : Z) (m : Move) : Prop :=
  let '(y, x, y', x') := m in
  (y, x) ∈ board_coords /\ (y', x') ∈ board_coords /\
  fall_distance clearedRow clearedCol (y', x') + 1 =
  fall_distance clearedRow clearedCol (y, x).

(** ** Complete lines of a board *)

Definition full_rows (b : Board) : list Z :=
  List.filter (row_complete b) (range 0 BOARD_HEIGHT).

Definition full_cols (b : Board) : list Z :=
  List.filter (col_complete b) (range 0 BOARD_WIDTH).

(** Some row of the board is complete. *)
Definition has_full_row (b : Board) : bool :=
  existsb (row_complete b) (range 0 BOARD_HEIGHT).

(** The value of [complete] that the column loop computes for column [x]:
    [col_complete] on the board as it is when the loop reaches [x]. *)
Definition col_flag (b : Board) (x : Z) : bool :=
  col_complete
    (sc_board (for_each (range 0 x) scan_col (scan_rows (scan_start b)))) x.

(** A board whose row 0 and column 0 are full and which is empty
    elsewhere. *)
Definition cross_board : Board :=
  replicate 20%nat 1 :: replicate 19%nat (1 :: replicate 19%nat 0).

(** The value of [complete] that the row loop computes for row [y]. *)
Definition row_flag (b : Board) (y : Z) : bool :=
  row_complete (sc_board (for_each (range 0 y) scan_row (scan_start b))) y.

(** The board after [k] iterations of the [do ... while] body. *)
Fixpoint sweeps_after (clearedRow clearedCol : Z) (k : nat) (b : Board) : Board :=
  match k with
  | O => b
  | S k' =>
      sweeps_after clearedRow clearedCol k'
        (fst (gravity_sweep clearedRow clearedCol b))
  end.

(** ** Placements *)

(** The shape cell [(y, x)] of piece [p], translated by the position of
    the piece, is outside the board or on a non-empty cell. *)
Definition blocked (b : Board) (p : Piece) (y x : Z) : Prop :=
  ~ (0 <= Piece.x p + x < BOARD_WIDTH /\ 0 <= Piece.y p + y < BOARD_HEIGHT) \/
  cell b (Piece.y p + y) (Piece.x p + x) <> BLACK.

(** The board position [(Y, X)] is under an occupied shape cell of [p]. *)
Definition footprint (p : Piece) (Y X : Z) : bool :=
  existsb
    (fun '(y, x) =>
       shape_bit (shape_of (Piece.type p) (Piece.rotation p)) y x &&
       (Y =? Piece.y p + y) && (X =? Piece.x p + x))
    shape_cells.

(** ** Sample states *)

(** The I piece, flat, in the middle of the board, falling down. *)
Definition centre_piece : Piece :=
  {| Piece.x := 8; Piece.y := 8; Piece.type := 0; Piece.rotation := 0;
     Piece.direction := DIR_DOWN |}.

(** A fresh session: empty board, score 0, the start speed. *)
Definition fresh_game : Game :=
  {| board := init_board; currentPiece := centre_piece; gameOver := 0;
     score := 0; speed := startSpeed; randState := 1 |}.

(** A board whose bottom row alone is full. *)
Definition bottom_row_board : Board :=
  replicate 19%nat (replicate 20%nat 0) ++ [replicate 20%nat 1].

(** A board all of whose cells are occupied. *)
Definition full_board : Board := replicate 20%nat (replicate 20%nat 1).

(** A line-clear pass on a board whose bottom row has just been
    completed. *)
Definition clear_bottom_row (g : Game) : option Game :=
  check_lines 2 (set_board g bottom_row_board).

(** [n] such passes in a row. *)
Fixpoint clear_bottom_rows (n : nat) (g : Game) : option Game :=
  match n with
  | O => Some g
  | S n' =>
      match clear_bottom_row g with
      | Some g' => clear_bottom_rows n' g'
      | None => None
      end
  end.

(** * Further parts of the program *)

(** ** Board initialisation *)

(** The first pair of loops of [init_board]: every cell of the global
    board is set to [BLACK]. *)
Definition init_board_cells (b : Board) : Board :=
  for_each (range 0 BOARD_HEIGHT) (fun y =>
    for_each (range 0 BOARD_WIDTH) (fun x bd => set_cell bd y x BLACK)) b.

(** ** Vocabulary: colours and counts *)

(** Every cell holds [BLACK] or one of the seven colour tags. *)
Definition colours_ok (b : Board) : Prop :=
  forall y x, 0 <= cell b y x <= 7.

(** Boards that are 20x20 and hold valid colour tags. *)
Definition board_ok (b : Board) : Prop := wf_board b /\ colours_ok b.

(** The number of cells of the board that hold the value [k]. *)
Definition count_colour (k : Z) (b : Board) : Z :=
  sum_over (fun p => if cell b (fst p) (snd p) =? k then 1 else 0) board_coords.

(** The position [(y, x)] lies outside the rows and columns that the
    rules selected by the arguments of [apply_gravity] sweep. *)
Definition outside_sweep (clearedRow clearedCol y x : Z) : Prop :=
  (clearedRow = -1 \/ (clearedRow < centerY /\ centerY <= y) \/
   (centerY <= clearedRow /\ y < centerY)) /\
  (clearedCol = -1 \/ (centerX <= clearedCol /\ x < centerX) \/
   (clearedCol < centerX /\ centerX <= x)).

(** Some column of the board is complete. *)
Definition has_full_col (b : Board) : bool :=
  existsb (col_complete b) (range 0 BOARD_WIDTH).

(** ** Input handling *)

Definition SWITCH_LEFT : Z := 0x2.
Definition SWITCH_RIGHT : Z := 0x1.
Definition SWITCH_DOWN : Z := 0x4.
Definition SWITCH_UP : Z := 0x8.

(** The globals of the input and timing code. *)
Record Controls : Type := mkControls
  { timeoutcount : Z;
    lastButtonState : Z;
    lastSwitchState : Z }.

Definition with_direction (p : Piece) (v : Z) : Piece :=
  {| Piece.x := Piece.x p; Piece.y := Piece.y p; Piece.type := Piece.type p;
     Piece.rotation := Piece.rotation p; Piece.direction := v |}.

(** [currentPiece.direction = d] *)
Definition set_direction (g : Game) (d : Z) : Game :=
  set_currentPiece g (with_direction (currentPiece g) d).

(** [if (currentPiece.direction != d) currentPiece.direction = d;] *)
Definition turn_to (d : Z) (g : Game) : Game :=
  if negb (Piece.direction (currentPiece g) =? d) then set_direction g d else g.

(** [handle_switch_changes]; [switches] is the value read from
    [SWITCH_ADDRESS]. *)
Definition handle_switch_changes (switches : Z) (st : Game * Controls)
    : Game * Controls :=
  let '(g, c) := st in
  let currentSwitches := Z.land switches 0x3FF in
  let switchChanges := Z.lxor currentSwitches (lastSwitchState c) in
  let g' :=
    if negb (switchChanges =? 0) then
      if negb (Z.land switchChanges SWITCH_RIGHT =? 0) then turn_to DIR_RIGHT g
      else if negb (Z.land switchChanges SWITCH_LEFT =? 0) then turn_to DIR_LEFT g
      else if negb (Z.land switchChanges SWITCH_UP =? 0) then turn_to DIR_UP g
      else if negb (Z.land switchChanges SWITCH_DOWN =? 0) then turn_to DIR_DOWN g
      else g
    else g in
  (g', {| timeoutcount := timeoutcount c;
          lastButtonState := lastButtonState c;
          lastSwitchState := currentSwitches |}).

(** [handle_input]; [buttons] is the value read from [BUTTON_ADDRESS]. *)
Definition handle_input (buttons : Z) (st : Game * Controls) : Game * Controls :=
  let '(g, c) := st in
  let button := Z.land buttons 0x1 in
  let g' :=
    if negb (button =? 0) && (lastButtonState c =? 0)
    then rotate_piece g else g in
  (g', {| timeoutcount := timeoutcount c;
          lastButtonState := button;
          lastSwitchState := lastSwitchState c |}).

(** ** Timer period *)

(** [periodLow] and [periodHigh], as computed from [speed] in
    [init_timer], at the end of [check_lines] and in [main]. *)
Definition period_registers (sp : Z) : Z * Z :=
  (Z.land sp 0xFFFF, Z.land (Z.shiftr sp 16) 0xFFFF).

(** The registers of the interval timer. *)
Record Timer : Type := mkTimer
  { TIMER_CONTROL : Z; TIMER_PERIODL : Z; TIMER_PERIODH : Z }.

(** [init_timer]: the registers when it returns. *)
Definition init_timer (g : Game) : Timer :=
  let '(periodLow, periodHigh) := period_registers (speed g) in
  {| TIMER_CONTROL := 0x7; TIMER_PERIODL := periodLow;
     TIMER_PERIODH := periodHigh |}.

(** The period, in timer ticks, that the two 16-bit registers hold. *)
Definition timer_period (t : Timer) : Z :=
  TIMER_PERIODH t * 2 ^ 16 + TIMER_PERIODL t.

(** ** The session: [main] *)

(** From the label [game_start] to the [while] loop: the reset of the
    globals, [init_board] and the first [spawn_piece].  [timer_status]
    and [switches] are the values read from [TIMER_STATUS] and
    [SWITCH_ADDRESS]; [g0] holds the globals as they are on entry. *)
Definition game_start (timer_status switches : Z) (g0 : Game) : Game * Controls :=
  let g1 :=
    {| board := init_board_cells (board g0);
       currentPiece := currentPiece g0;
       gameOver := 0; score := 0; speed := startSpeed;
       randState := wrap_uint timer_status |} in
  (spawn_piece g1,
   {| timeoutcount := 0; lastButtonState := 0;
      lastSwitchState := Z.land switches 0x3FF |}).

(** The values read from the hardware in one iteration of the loop. *)
Record Inputs : Type := mkInputs
  { in_buttons : Z; in_switches : Z; in_timer_status : Z }.

(** The body of [while (!gameOver)], without the drawing.  The interrupt
    handler, which also counts timeouts, is not part of it. *)
Definition main_loop_body (fuel : nat) (i : Inputs) (st : Game * Controls)
    : option (Game * Controls) :=
  let st := handle_input (in_buttons i) st in
  let '(g, c) := handle_switch_changes (in_switches i) st in
  if negb (Z.land (in_timer_status i) 0x1 =? 0) then
    let tc := int_add (timeoutcount c) 1 in
    if tc >=? 20 then
      match handle_tick_movement fuel g with
      | Some g' =>
          Some (g', {| timeoutcount := 0;
                       lastButtonState := lastButtonState c;
                       lastSwitchState := lastSwitchState c |})
      | None => None
      end
    else
      Some (g, {| timeoutcount := tc;
                  lastButtonState := lastButtonState c;
                  lastSwitchState := lastSwitchState c |})
  else Some (g, c).

(** [while (!gameOver)] over the inputs of successive iterations; the
    state when the inputs are used up or the loop has exited. *)
Fixpoint main_loop (fuel : nat) (inputs : list Inputs) (st : Game * Controls)
    : option (Game * Controls) :=
  match inputs with
  | [] => Some st
  | i :: rest =>
      if negb (gameOver (fst st) =? 0) then Some st
      else match main_loop_body fuel i st with
           | Some st' => main_loop fuel rest st'
           | None => None
           end
  end.

(** ** Vocabulary: the invariant of a session *)

(** The board is 20x20 with valid colour tags, the piece is well formed
    and moves in one of the four directions, and while the game is not
    over the piece overlaps nothing and is inside the board. *)
Definition engine_inv (g : Game) : Prop :=
  wf_board (board g) /\ colours_ok (board g) /\
  wf_piece (currentPiece g) /\
  0 <= Piece.direction (currentPiece g) <= 3 /\
  (gameOver g = 0 -> fst (check_collision currentPiece g) = 0).

(** Switch [k] is in a different position than when the switches were
    last polled. *)
Definition toggled (switches last k : Z) : bool :=
  xorb (Z.testbit switches k) (Z.testbit last k).

(** ** Score display *)

(** The loop [while (tempScore > 0 && digitCount < 5)] of [draw_score]
    and [draw_game_over], with [room = 5 - digitCount]: the digits it
    appends, least significant first.  A digit is kept as its value; the
    source stores ['0' + d] and later subtracts ['0'] again. *)
Fixpoint score_digits_loop (room : nat) (tempScore : Z) : list Z :=
  match room with
  | O => []
  | S room' =>
      if tempScore >? 0
      then Z.rem tempScore 10 :: score_digits_loop room' (Z.quot tempScore 10)
      else []
  end.

(** "Convert score to digits": the contents of [digits[0 .. digitCount)]. *)
Definition score_digits (sc : Z) : list Z :=
  let digits := if sc =? 0 then [0] else [] in
  digits ++ score_digits_loop (5 - length digits) sc.

(** The digits in the order in which they are drawn, left to right. *)
Definition score_shown (sc : Z) : list Z := reverse (score_digits sc).

(** The number that a list of decimal digits, least significant first,
    stands for. *)
Definition digits_value (ds : list Z) : Z :=
  foldr (fun d acc => d + 10 * acc) 0 ds.

(** ** Rendering *)

Definition SCREEN_WIDTH : Z := 320.
Definition SCREEN_HEIGHT : Z := 240.
Definition BLOCK_SIZE : Z := 8.
Definition BOARD_START_X : Z := Z.quot (SCREEN_WIDTH - BOARD_WIDTH * BLOCK_SIZE) 2.
Definition BOARD_START_Y : Z := Z.quot (SCREEN_HEIGHT - BOARD_HEIGHT * BLOCK_SIZE) 2.

Definition CYAN : Z := 1.
Definition BLUE : Z := 2.
Definition ORANGE : Z := 3.
Definition YELLOW : Z := 4.
Definition GREEN : Z := 5.
Definition PURPLE : Z := 6.
Definition RED : Z := 7.
Definition WHITE : Z := 0xBBB.

(** The value of a [char] that an [int] is converted to; a byte is
    taken as its unsigned value, as plain [char] is on the RISC-V
    target. *)
Definition to_char (z : Z) : Z := z mod 256.

(** [get_vga_color]; the argument is the value of its [char]
    parameter. *)
Definition get_vga_color (piece_color : Z) : Z :=
  if piece_color =? BLACK then 0x92
  else if piece_color =? CYAN then 0x3F
  else if piece_color =? BLUE then 0x03
  else if piece_color =? ORANGE then 0xF4
  else if piece_color =? YELLOW then 0xFC
  else if piece_color =? GREEN then 0x1C
  else if piece_color =? PURPLE then 0x43
  else if piece_color =? RED then 0xE0
  else if piece_color =? WHITE then 0xFF
  else 0x92.

(** The frame buffer: the byte at each offset from [VGA_PIXELS]. *)
Definition Framebuffer : Type := Z -> Z.

(** [VGA_PIXELS[i] = v] *)
Definition write_pixel (fb : Framebuffer) (i v : Z) : Framebuffer :=
  fun j => if j =? i then v else fb j.

(** The colour [draw_block] gives the pixel at offset [(dx, dy)] of a
    block: the body of the innermost [if], from "Default to main color"
    to the write. *)
Definition block_pixel (color dx dy : Z) : Z :=
  let vgaColor := get_vga_color color in
  let lightEdge := if color =? BLACK then 0xB6 else get_vga_color (to_char WHITE) in
  let darkEdge := if color =? BLACK then 0x6D else 0x00 in
  let pixelColor := vgaColor in
  let pixelColor := if (dx <=? 1) || (dy <=? 1) then lightEdge else pixelColor in
  let pixelColor :=
    if (dx >=? BLOCK_SIZE - 2) || (dy >=? BLOCK_SIZE - 2)
    then darkEdge else pixelColor in
  pixelColor.

(** [draw_block]; [color] is the value of its [char] parameter. *)
Definition draw_block (x y color : Z) (fb : Framebuffer) : Framebuffer :=
  let screenX := int_add BOARD_START_X (int_mul x BLOCK_SIZE) in
  let screenY := int_add BOARD_START_Y (int_mul y BLOCK_SIZE) in
  for_each (range 0 BLOCK_SIZE) (fun dy =>
    for_each (range 0 BLOCK_SIZE) (fun dx fb' =>
      if (int_add screenX dx >=? 0) && (int_add screenX dx <? SCREEN_WIDTH) &&
         (int_add screenY dy >=? 0) && (int_add screenY dy <? SCREEN_HEIGHT)
      then write_pixel fb'
             (int_add (int_mul (int_add screenY dy) SCREEN_WIDTH)
                      (int_add screenX dx))
             (block_pixel color dx dy)
      else fb')) fb.

(** [draw_board]: the background, the border and the occupied cells. *)
Definition draw_board (b : Board) (fb : Framebuffer) : Framebuffer :=
  let fb :=
    for_each (range (-1) (BOARD_HEIGHT + 1)) (fun y =>
      for_each (range (-1) (BOARD_WIDTH + 1)) (fun x => draw_block x y BLACK)) fb in
  let fb :=
    for_each (range (-1) (BOARD_WIDTH + 1)) (fun i fb' =>
      draw_block i BOARD_HEIGHT (to_char WHITE)
        (draw_block i (-1) (to_char WHITE) fb')) fb in
  let fb :=
    for_each (range (-1) (BOARD_HEIGHT + 1)) (fun i fb' =>
      draw_block BOARD_WIDTH i (to_char WHITE)
        (draw_block (-1) i (to_char WHITE) fb')) fb in
  for_each (range 0 BOARD_HEIGHT) (fun y =>
    for_each (range 0 BOARD_WIDTH) (fun x fb' =>
      if negb (cell b y x =? BLACK) then draw_block x y (cell b y x) fb'
      else fb')) fb.

(** [draw_current_piece] *)
Definition draw_current_piece (g : Game) (fb : Framebuffer) : Framebuffer :=
  let shape := shape_of (Piece.type (currentPiece g))
                        (Piece.rotation (currentPiece g)) in
  let pieceColor := to_char (int_add (Piece.type (currentPiece g)) 1) in
  fold_left
    (fun fb' '(y, x) =>
       if shape_bit shape y x
       then draw_block (int_add (Piece.x (currentPiece g)) x)
                       (int_add (Piece.y (currentPiece g)) y) pieceColor fb'
       else fb')
    shape_cells fb.

(** ** Vocabulary: pixels *)

(** The offset in the frame buffer of the pixel in column [px] of line
    [py]. *)
Definition pixel_at (px py : Z) : Z := py * SCREEN_WIDTH + px.

(** The pixel [(px, py)] lies in the 8x8 square of the board cell
    [(x, y)]. *)
Definition in_block (x y px py : Z) : bool :=
  (0 <=? px - (BOARD_START_X + x * BLOCK_SIZE)) &&
  (px - (BOARD_START_X + x * BLOCK_SIZE) <? BLOCK_SIZE) &&
  (0 <=? py - (BOARD_START_Y + y * BLOCK_SIZE)) &&
  (py - (BOARD_START_Y + y * BLOCK_SIZE) <? BLOCK_SIZE).

(** A block to paint: the cell [(x, y)] and the colour. *)
Definition Paint : Type := Z * Z * Z.

(** A sequence of calls of [draw_block]. *)
Definition paint_all (l : list Paint) (fb : Framebuffer) : Framebuffer :=
  fold_left (fun fb' '(x, y, c) => draw_block x y c fb') l fb.

(** The cell of a paint lies in or next to the board, so that the
    address arithmetic of [draw_block] is exact. *)
Definition paint_near (e : Paint) : Prop :=
  let '(x, y, _) := e in -1 <= x <= BOARD_WIDTH /\ -1 <= y <= BOARD_HEIGHT.

(** The pixel [(px, py)] lies in the block of the paint. *)
Definition paint_covers (px py : Z) (e : Paint) : bool :=
  let '(x, y, _) := e in in_block x y px py.

(** The calls of [draw_block] made by the four parts of [draw_board]. *)
Definition background_paints : list Paint :=
  y ← range (-1) (BOARD_HEIGHT + 1); x ← range (-1) (BOARD_WIDTH + 1);
  [(x, y, BLACK)].

Definition border_rows_paints : list Paint :=
  i ← range (-1) (BOARD_WIDTH + 1);
  [(i, -1, to_char WHITE); (i, BOARD_HEIGHT, to_char WHITE)].

Definition border_cols_paints : list Paint :=
  i ← range (-1) (BOARD_HEIGHT + 1);
  [(-1, i, to_char WHITE); (BOARD_WIDTH, i, to_char WHITE)].

Definition cell_paints (b : Board) : list Paint :=
  y ← range 0 BOARD_HEIGHT; x ← range 0 BOARD_WIDTH;
  if negb (cell b y x =? BLACK) then [(x, y, cell b y x)] else [].

(** The loop at the head of the game loop of [main] that paints the
    blocks of the active piece in the background colour. *)
Definition erase_current_piece (g : Game) (fb : Framebuffer) : Framebuffer :=
  let oldShape := shape_of (Piece.type (currentPiece g))
                           (Piece.rotation (currentPiece g)) in
  fold_left
    (fun fb' '(y, x) =>
       if shape_bit oldShape y x
       then draw_block (int_add (Piece.x (currentPiece g)) x)
                       (int_add (Piece.y (currentPiece g)) y) BLACK fb'
       else fb')
    shape_cells fb.

(** The calls of [draw_block] that paint the blocks of the active piece
    in the colour [c]. *)
Definition piece_blocks (c : Z) (g : Game) : list Paint :=
  '(y, x) ← shape_cells;
  if shape_bit (shape_of (Piece.type (currentPiece g))
                         (Piece.rotation (currentPiece g))) y x
  then [(int_add (Piece.x (currentPiece g)) x,
         int_add (Piece.y (currentPiece g)) y, c)]
  else [].

(** The board cell [(x, y)] lies on the frame drawn around the board. *)
Definition on_border (x y : Z) : Prop :=
  -1 <= x <= BOARD_WIDTH /\ -1 <= y <= BOARD_HEIGHT /\
  (x = -1 \/ x = BOARD_WIDTH \/ y = -1 \/ y = BOARD_HEIGHT).

(** The pixel [(px, py)] lies in the square of 22x22 blocks that
    [draw_board] paints. *)
Definition in_board_area (px py : Z) : Prop :=
  BOARD_START_X - BLOCK_SIZE <= px < BOARD_START_X + (BOARD_WIDTH + 1) * BLOCK_SIZE /\
  BOARD_START_Y - BLOCK_SIZE <= py < BOARD_START_Y + (BOARD_HEIGHT + 1) * BLOCK_SIZE.

(** The offset [j] from [VGA_PIXELS] is the offset of a pixel in the
    area of the board and its frame. *)
Definition board_area_offset (j : Z) : Prop :=
  0 <= j < SCREEN_WIDTH * SCREEN_HEIGHT /\
  in_board_area (j mod SCREEN_WIDTH) (j / SCREEN_WIDTH).

(** The flat I piece resting on the floor of the empty board (its cells
    are in row 19), falling down. *)
Definition resting_game : Game :=
  set_currentPiece fresh_game (Piece.with_y centre_piece 18).

(** * Lemmas *)

(** ** Machine integers *)

Lemma wrap_int_id (z : Z) : is_int z -> wrap_int z = z.
Proof.
  unfold is_int, wrap_int, INT_MIN, INT_MAX. intros Hz.
  rewrite Z.mod_small by lia. lia.
Qed.

Lemma wrap_int_is_int (z : Z) : is_int (wrap_int z).
Proof.
  unfold is_int, wrap_int, INT_MIN, INT_MAX.
  pose proof (Z.mod_pos_bound (z + 2 ^ 31) (2 ^ 32) ltac:(lia)). lia.
Qed.

Lemma wrap_int_plus_period (z : Z) : wrap_int (z - 2 ^ 32) = wrap_int z.
Proof.
  unfold wrap_int. f_equal.
  replace (z - 2 ^ 32 + 2 ^ 31) with (z + 2 ^ 31 + (-1) * 2 ^ 32) by lia.
  apply Z.mod_add. lia.
Qed.

(** Adding a small offset to an [int]: either the sum is representable,
    or it wraps to a negative value. *)
Lemma int_add_small (a k : Z) :
  is_int a -> 0 <= k < 4 ->
  (a + k <= INT_MAX /\ int_add a k = a + k) \/
  (INT_MAX < a + k /\ int_add a k < 0).
Proof.
  intros Ha Hk. unfold int_add.
  destruct (Z_le_gt_dec (a + k) INT_MAX) as [Hle | Hgt].
  - left. split; [done |]. apply wrap_int_id. unfold is_int, INT_MIN, INT_MAX in *. lia.
  - right. split; [lia |].
    rewrite <- wrap_int_plus_period.
    rewrite wrap_int_id; unfold is_int, INT_MIN, INT_MAX in *; lia.
Qed.

Lemma int_sub_add_cancel (a k : Z) : is_int a -> int_sub (int_add a k) k = a.
Proof.
  intros Ha. unfold int_sub, int_add, wrap_int.
  rewrite <- (Z.add_opp_r _ k).
  replace ((a + k + 2 ^ 31) mod 2 ^ 32 - 2 ^ 31 + - k + 2 ^ 31)
    with ((a + k + 2 ^ 31) mod 2 ^ 32 + - k) by lia.
  rewrite Zplus_mod_idemp_l.
  replace (a + k + 2 ^ 31 + - k) with (a + 2 ^ 31) by lia.
  unfold is_int, INT_MIN, INT_MAX in Ha.
  rewrite Z.mod_small by lia. lia.
Qed.

Lemma int_add_sub_cancel (a k : Z) : is_int a -> int_add (int_sub a k) k = a.
Proof.
  intros Ha. unfold int_sub, int_add, wrap_int.
  replace ((a - k + 2 ^ 31) mod 2 ^ 32 - 2 ^ 31 + k + 2 ^ 31)
    with ((a - k + 2 ^ 31) mod 2 ^ 32 + k) by lia.
  rewrite Zplus_mod_idemp_l.
  replace (a - k + 2 ^ 31 + k) with (a + 2 ^ 31) by lia.
  unfold is_int, INT_MIN, INT_MAX in Ha.
  rewrite Z.mod_small by lia. lia.
Qed.

(** ** Loops and index ranges *)

Lemma elem_of_range (lo hi i : Z) : i ∈ range lo hi <-> lo <= i < hi.
Proof. unfold range. rewrite elem_of_seqZ. lia. Qed.

Lemma elem_of_range_down (lo hi i : Z) : i ∈ range_down lo hi <-> lo <= i < hi.
Proof. unfold range_down. rewrite elem_of_reverse. apply elem_of_range. Qed.

Lemma NoDup_range (lo hi : Z) : NoDup (range lo hi).
Proof. apply NoDup_seqZ. Qed.

Lemma elem_of_shape_cells (y x : Z) :
  (y, x) ∈ shape_cells <-> 0 <= y < 4 /\ 0 <= x < 4.
Proof.
  unfold shape_cells. rewrite list_elem_of_bind. split.
  - intros (y' & Hin & Hy). apply list_elem_of_bind in Hin as (x' & Hin & Hx).
    apply list_elem_of_singleton in Hin. inversion Hin; subst.
    apply elem_of_range in Hy, Hx. lia.
  - intros [Hy Hx]. exists y. split; [| by apply elem_of_range].
    apply list_elem_of_bind. exists x. split; [| by apply elem_of_range].
    by apply list_elem_of_singleton.
Qed.

(** A nested loop is one loop over the flattened index list. *)
Lemma fold_left_bind {A B S : Type} (f : S -> B -> S) (g : A -> list B)
    (l : list A) (s : S) :
  fold_left f (l ≫= g) s = fold_left (fun st a => fold_left f (g a) st) l s.
Proof.
  revert s. induction l as [| a l IH]; intros s; [done |].
  rewrite bind_cons, fold_left_app. simpl. apply IH.
Qed.

(** ** Board cells *)

Lemma cell_not_in_board (b : Board) (y x : Z) :
  in_board b y x = false -> cell b y x = BLACK.
Proof.
  unfold in_board, cell. intros H.
  destruct (Z.ltb_spec y 0), (Z.ltb_spec x 0); simpl; try done.
  destruct (b !! Z.to_nat y) as [row |] eqn:Hrow; [| done].
  rewrite andb_false_iff, andb_false_iff in H.
  destruct H as [[H | H] | H]; try (apply Z.leb_gt in H; lia).
  apply bool_decide_eq_false in H.
  rewrite lookup_ge_None_2; [done | lia].
Qed.

Lemma set_cell_not_in_board (b : Board) (y x v : Z) :
  in_board b y x = false -> set_cell b y x v = b.
Proof.
  unfold in_board, set_cell. intros H.
  destruct (Z.ltb_spec y 0), (Z.ltb_spec x 0); simpl; try done.
  rewrite andb_false_iff, andb_false_iff in H.
  destruct H as [[H | H] | H]; try (apply Z.leb_gt in H; lia).
  destruct (b !! Z.to_nat y) as [row |] eqn:Hrow.
  - apply bool_decide_eq_false in H.
    apply list_eq. intros i. destruct (decide (i = Z.to_nat y)) as [-> |].
    + rewrite list_lookup_alter_eq, Hrow. simpl.
      by rewrite list_insert_ge by lia.
    + by rewrite list_lookup_alter_ne.
  - apply list_eq. intros i. destruct (decide (i = Z.to_nat y)) as [-> |].
    + by rewrite list_lookup_alter_eq, Hrow.
    + by rewrite list_lookup_alter_ne.
Qed.

Lemma cell_set_cell_eq (b : Board) (y x v : Z) :
  in_board b y x = true -> cell (set_cell b y x v) y x = v.
Proof.
  unfold in_board, set_cell, cell. intros H.
  apply andb_prop in H as [H Hrow]. apply andb_prop in H as [Hy Hx].
  apply Z.leb_le in Hy, Hx.
  destruct (Z.ltb_spec y 0), (Z.ltb_spec x 0); simpl; try lia.
  rewrite list_lookup_alter_eq.
  destruct (b !! Z.to_nat y) as [row |]; [| done]. simpl.
  apply bool_decide_eq_true in Hrow.
  by rewrite list_lookup_insert_eq.
Qed.

Lemma cell_set_cell_ne (b : Board) (y x v y' x' : Z) :
  (y', x') <> (y, x) -> cell (set_cell b y x v) y' x' = cell b y' x'.
Proof.
  unfold set_cell, cell. intros Hne.
  destruct (Z.ltb_spec y 0), (Z.ltb_spec x 0); simpl; try done.
  destruct (Z.ltb_spec y' 0), (Z.ltb_spec x' 0); simpl; try done.
  destruct (decide (y' = y)) as [-> | Hy].
  - rewrite list_lookup_alter_eq.
    destruct (b !! Z.to_nat y) as [row |]; [| done]. simpl.
    rewrite list_lookup_insert_ne; [done |].
    intros E. apply Hne. f_equal. lia.
  - rewrite list_lookup_alter_ne; [done | lia].
Qed.

(** Writing [BLACK] always leaves [BLACK] behind. *)
Lemma cell_set_cell_black (b : Board) (y x : Z) :
  cell (set_cell b y x BLACK) y x = BLACK.
Proof.
  destruct (in_board b y x) eqn:E.
  - by apply cell_set_cell_eq.
  - rewrite set_cell_not_in_board by done. by apply cell_not_in_board.
Qed.

Lemma wf_board_in_board (b : Board) (y x : Z) :
  wf_board b -> 0 <= y < BOARD_HEIGHT -> 0 <= x < BOARD_WIDTH ->
  in_board b y x = true.
Proof.
  intros [Hlen Hrows] Hy Hx. unfold in_board.
  destruct (Z.leb_spec 0 y), (Z.leb_spec 0 x); try lia. simpl.
  destruct (lookup_lt_is_Some_2 b (Z.to_nat y)) as [row Hrow]; [lia |].
  rewrite Hrow. apply bool_decide_eq_true.
  rewrite Forall_lookup in Hrows. rewrite (Hrows _ _ Hrow). lia.
Qed.

Lemma wf_board_set_cell (b : Board) (y x v : Z) :
  wf_board b -> wf_board (set_cell b y x v).
Proof.
  intros [Hlen Hrows]. unfold set_cell.
  destruct ((y <? 0) || (x <? 0)); [done |]. split.
  - by rewrite length_alter.
  - apply Forall_alter; [done |]. intros row Hrow. by rewrite length_insert.
Qed.

Lemma wf_board_init : wf_board init_board.
Proof.
  split; [apply length_replicate |].
  apply Forall_replicate. apply length_replicate.
Qed.

(** ** The gravity resolver *)

Lemma fold_left_ext_in {A B : Type} (f g : A -> B -> A) (l : list B) (a : A) :
  (forall s i, f s i = g s i) -> fold_left f l a = fold_left g l a.
Proof.
  intros Hfg. revert a. induction l as [| i l IH]; intros a; [done |].
  simpl. rewrite Hfg. apply IH.
Qed.

(** Two nested [for] loops around [fall_step] run the flattened moves. *)
Lemma nested_loops_moves (outer inner : list Z) (mk : Z -> Z -> Move)
    (body : Z -> Z -> Board * Z -> Board * Z) (st : Board * Z) :
  (forall i j s, body i j s = run_move s (mk i j)) ->
  for_each outer (fun i => for_each inner (fun j => body i j)) st =
  run_moves (i ← outer; j ← inner; [mk i j]) st.
Proof.
  intros Hbody. unfold for_each, run_moves.
  rewrite fold_left_bind. apply fold_left_ext_in. intros s i.
  rewrite fold_left_bind. apply fold_left_ext_in. intros s' j.
  simpl. apply Hbody.
Qed.

Lemma fall_up_moves (st : Board * Z) : fall_up st = run_moves moves_up st.
Proof. unfold fall_up, moves_up. by apply nested_loops_moves. Qed.

Lemma fall_down_moves (st : Board * Z) : fall_down st = run_moves moves_down st.
Proof. unfold fall_down, moves_down. by apply nested_loops_moves. Qed.

Lemma fall_right_moves (ylo yhi : Z) (st : Board * Z) :
  fall_right ylo yhi st = run_moves (moves_right ylo yhi) st.
Proof.
  unfold fall_right, moves_right.
  by apply (nested_loops_moves _ _ (fun x y => (y, x, y, x + 1))).
Qed.

Lemma fall_left_moves (ylo yhi : Z) (st : Board * Z) :
  fall_left ylo yhi st = run_moves (moves_left ylo yhi) st.
Proof.
  unfold fall_left, moves_left.
  by apply (nested_loops_moves _ _ (fun x y => (y, x, y, x - 1))).
Qed.

Lemma run_moves_app (ms1 ms2 : list Move) (st : Board * Z) :
  run_moves (ms1 ++ ms2) st = run_moves ms2 (run_moves ms1 st).
Proof. apply fold_left_app. Qed.

Lemma gravity_sweep_moves (r c : Z) (b : Board) :
  gravity_sweep r c b = run_moves (sweep_moves r c) (b, 0).
Proof.
  unfold gravity_sweep, sweep_moves. rewrite run_moves_app.
  destruct (negb (r =? -1)), (negb (c =? -1)), (r <? centerY), (c >=? centerX);
    rewrite ?run_moves_app,
      ?fall_up_moves, ?fall_down_moves, ?fall_right_moves, ?fall_left_moves;
    reflexivity.
Qed.

(** Membership in the move lists. *)
Lemma elem_of_moves_up (m : Move) :
  m ∈ moves_up <->
  exists y x, 1 <= y < centerY /\ 0 <= x < BOARD_WIDTH /\ m = (y, x, y - 1, x).
Proof.
  unfold moves_up. rewrite list_elem_of_bind. split.
  - intros (y & Hin & Hy). apply list_elem_of_bind in Hin as (x & Hin & Hx).
    apply list_elem_of_singleton in Hin.
    apply elem_of_range in Hy, Hx. by exists y, x.
  - intros (y & x & Hy & Hx & ->). exists y. split; [| by apply elem_of_range].
    apply list_elem_of_bind. exists x. split; [| by apply elem_of_range].
    by apply list_elem_of_singleton.
Qed.

Lemma elem_of_moves_down (m : Move) :
  m ∈ moves_down <->
  exists y x, centerY <= y < BOARD_HEIGHT - 1 /\ 0 <= x < BOARD_WIDTH /\
              m = (y, x, y + 1, x).
Proof.
  unfold moves_down. rewrite list_elem_of_bind. split.
  - intros (y & Hin & Hy). apply list_elem_of_bind in Hin as (x & Hin & Hx).
    apply list_elem_of_singleton in Hin.
    apply elem_of_range_down in Hy. apply elem_of_range in Hx. by exists y, x.
  - intros (y & x & Hy & Hx & ->). exists y. split; [| by apply elem_of_range_down].
    apply list_elem_of_bind. exists x. split; [| by apply elem_of_range].
    by apply list_elem_of_singleton.
Qed.

Lemma elem_of_moves_right (ylo yhi : Z) (m : Move) :
  m ∈ moves_right ylo yhi <->
  exists y x, ylo <= y < yhi /\ centerX <= x < BOARD_WIDTH - 1 /\
              m = (y, x, y, x + 1).
Proof.
  unfold moves_right. rewrite list_elem_of_bind. split.
  - intros (x & Hin & Hx). apply list_elem_of_bind in Hin as (y & Hin & Hy).
    apply list_elem_of_singleton in Hin.
    apply elem_of_range_down in Hx. apply elem_of_range in Hy. by exists y, x.
  - intros (y & x & Hy & Hx & ->). exists x. split; [| by apply elem_of_range_down].
    apply list_elem_of_bind. exists y. split; [| by apply elem_of_range].
    by apply list_elem_of_singleton.
Qed.

Lemma elem_of_moves_left (ylo yhi : Z) (m : Move) :
  m ∈ moves_left ylo yhi <->
  exists y x, ylo <= y < yhi /\ 1 <= x < centerX /\ m = (y, x, y, x - 1).
Proof.
  unfold moves_left. rewrite list_elem_of_bind. split.
  - intros (x & Hin & Hx). apply list_elem_of_bind in Hin as (y & Hin & Hy).
    apply list_elem_of_singleton in Hin.
    apply elem_of_range in Hx, Hy. by exists y, x.
  - intros (y & x & Hy & Hx & ->). exists x. split; [| by apply elem_of_range].
    apply list_elem_of_bind. exists y. split; [| by apply elem_of_range].
    by apply list_elem_of_singleton.
Qed.

Lemma run_move_changes (st : Board * Z) (m : Move) :
  (run_move st m = st /\ ~ movable (fst st) m) \/
  (snd (run_move st m) = snd st + 1 /\ movable (fst st) m).
Proof.
  destruct st as [b ch], m as [[[y x] y'] x']. simpl.
  destruct (Z.eqb_spec (cell b y x) BLACK) as [E1 | E1]; simpl.
  - left. split; [done |]. intros [H _]. done.
  - destruct (Z.eqb_spec (cell b y' x') BLACK) as [E2 | E2]; simpl.
    + by right.
    + left. split; [done |]. intros [_ H]. done.
Qed.

Lemma run_moves_changes_le (ms : list Move) (st : Board * Z) :
  snd st <= snd (run_moves ms st).
Proof.
  revert st. induction ms as [| m ms IH]; intros st; [simpl; lia |].
  change (run_moves (m :: ms) st) with (run_moves ms (run_move st m)).
  etransitivity; [| apply IH].
  destruct (run_move_changes st m) as [[-> _] | [-> _]]; lia.
Qed.

Lemma run_moves_no_change (ms : list Move) (st : Board * Z) :
  snd (run_moves ms st) <= snd st ->
  run_moves ms st = st /\ Forall (fun m => ~ movable (fst st) m) ms.
Proof.
  revert st. induction ms as [| m ms IH]; intros st Hle; [by split |].
  change (run_moves (m :: ms) st) with (run_moves ms (run_move st m)) in *.
  pose proof (run_moves_changes_le ms (run_move st m)) as Hmono.
  destruct (run_move_changes st m) as [[E Hm] | [E Hm]].
  - rewrite E in *. destruct (IH st Hle) as [-> Hall]. split; [done |].
    by constructor.
  - lia.
Qed.

(** *** Each move lowers the potential *)

Lemma elem_of_board_coords (y x : Z) :
  (y, x) ∈ board_coords <-> 0 <= y < BOARD_HEIGHT /\ 0 <= x < BOARD_WIDTH.
Proof.
  unfold board_coords. rewrite list_elem_of_bind. split.
  - intros (y' & Hin & Hy). apply list_elem_of_bind in Hin as (x' & Hin & Hx).
    apply list_elem_of_singleton in Hin. inversion Hin; subst.
    apply elem_of_range in Hy, Hx. lia.
  - intros [Hy Hx]. exists y. split; [| by apply elem_of_range].
    apply list_elem_of_bind. exists x. split; [| by apply elem_of_range].
    by apply list_elem_of_singleton.
Qed.

Lemma NoDup_board_coords : NoDup board_coords.
Proof.
  unfold board_coords. apply NoDup_bind; [| | apply NoDup_range].
  - intros y1 y2 p _ _ H1 H2.
    apply list_elem_of_bind in H1 as (x1 & H1 & _).
    apply list_elem_of_bind in H2 as (x2 & H2 & _).
    apply list_elem_of_singleton in H1, H2. congruence.
  - intros y _. apply NoDup_bind; [| | apply NoDup_range].
    + intros x1 x2 p _ _ H1 H2.
      apply list_elem_of_singleton in H1, H2. congruence.
    + intros x _. apply NoDup_singleton.
Qed.

Lemma sum_over_ext (f g : Z * Z -> Z) (l : list (Z * Z)) :
  (forall q, q ∈ l -> g q = f q) -> sum_over g l = sum_over f l.
Proof.
  induction l as [| a l IH]; intros H; [done |]. simpl.
  rewrite H by left. rewrite IH; [done |]. intros q Hq. apply H. by right.
Qed.

(** Changing the summand at one position of a duplicate-free list. *)
Lemma sum_over_update (f g : Z * Z -> Z) (l : list (Z * Z)) (p : Z * Z) :
  NoDup l -> p ∈ l -> (forall q, q ∈ l -> q <> p -> g q = f q) ->
  sum_over g l = sum_over f l - f p + g p.
Proof.
  induction l as [| a l IH]; intros Hnd Hin Hext.
  - by apply elem_of_nil in Hin.
  - apply NoDup_cons in Hnd as [Hnotin Hnd]. simpl.
    apply elem_of_cons in Hin as [-> | Hin].
    + rewrite (sum_over_ext f g l); [lia |].
      intros q Hq. apply Hext; [by right |]. intros ->. done.
    + rewrite IH; [| done | done |].
      * rewrite (Hext a); [lia | by left |]. intros ->. done.
      * intros q Hq. apply Hext. by right.
Qed.

Lemma sum_over_nonneg (f : Z * Z -> Z) (l : list (Z * Z)) :
  (forall q, q ∈ l -> 0 <= f q) -> 0 <= sum_over f l.
Proof.
  induction l as [| a l IH]; intros H; [done |]. simpl.
  pose proof (H a ltac:(left)). pose proof (IH ltac:(intros; apply H; by right)).
  lia.
Qed.

Lemma fall_distance_nonneg (r c : Z) (p : Z * Z) :
  p ∈ board_coords -> 0 <= fall_distance r c p.
Proof.
  destruct p as [y x]. rewrite elem_of_board_coords.
  unfold fall_distance, BOARD_HEIGHT, BOARD_WIDTH. simpl. intros [Hy Hx].
  destruct (r =? -1), (r <? centerY), (c =? -1), (c >=? centerX); lia.
Qed.

Lemma potential_nonneg (r c : Z) (b : Board) : 0 <= potential r c b.
Proof.
  apply sum_over_nonneg. intros q Hq. unfold energy_at.
  pose proof (fall_distance_nonneg r c q Hq).
  destruct (cell b q.1 q.2 =? BLACK); lia.
Qed.

(** Filling an empty position raises the potential by at most the energy
    of that position. *)
Lemma potential_fill (r c : Z) (b : Board) (y x v : Z) :
  (y, x) ∈ board_coords -> cell b y x = BLACK ->
  potential r c (set_cell b y x v) <=
  potential r c b + (fall_distance r c (y, x) + 1).
Proof.
  intros Hin Hempty. unfold potential.
  rewrite (sum_over_update (energy_at r c b) _ _ (y, x));
    [| apply NoDup_board_coords | done |].
  - pose proof (fall_distance_nonneg r c _ Hin).
    unfold energy_at at 2 3. simpl. rewrite Hempty. simpl.
    destruct (cell (set_cell b y x v) y x =? BLACK); lia.
  - intros [y' x'] _ Hne. unfold energy_at. simpl.
    by rewrite cell_set_cell_ne.
Qed.

(** Emptying an occupied position lowers the potential by its energy. *)
Lemma potential_empty (r c : Z) (b : Board) (y x : Z) :
  (y, x) ∈ board_coords -> cell b y x <> BLACK ->
  potential r c (set_cell b y x BLACK) =
  potential r c b - (fall_distance r c (y, x) + 1).
Proof.
  intros Hin Hocc. unfold potential.
  rewrite (sum_over_update (energy_at r c b) _ _ (y, x));
    [| apply NoDup_board_coords | done |].
  - unfold energy_at at 2 3. simpl. rewrite cell_set_cell_black.
    destruct (Z.eqb_spec (cell b y x) BLACK); [done |]. simpl. lia.
  - intros [y' x'] _ Hne. unfold energy_at. simpl.
    by rewrite cell_set_cell_ne.
Qed.

Lemma run_move_potential (r c : Z) (m : Move) (st : Board * Z) :
  falls r c m ->
  potential r c (fst (run_move st m)) + snd (run_move st m) <=
  potential r c (fst st) + snd st.
Proof.
  destruct st as [b ch], m as [[[y x] y'] x']. intros (Hsrc & Hdst & Hdist).
  simpl.
  destruct (Z.eqb_spec (cell b y x) BLACK) as [E1 | E1]; simpl; [lia |].
  destruct (Z.eqb_spec (cell b y' x') BLACK) as [E2 | E2]; simpl; [| lia].
  assert (Hne : (y, x) <> (y', x')).
  { intros E. rewrite E in Hdist. lia. }
  pose proof (potential_fill r c b y' x' (cell b y x) Hdst E2) as Hfill.
  rewrite potential_empty; [lia | done |].
  by rewrite cell_set_cell_ne.
Qed.

Lemma run_moves_potential (r c : Z) (ms : list Move) (st : Board * Z) :
  Forall (falls r c) ms ->
  potential r c (fst (run_moves ms st)) + snd (run_moves ms st) <=
  potential r c (fst st) + snd st.
Proof.
  intros Hall. revert st. induction Hall as [| m ms Hm _ IH]; intros st.
  - simpl. lia.
  - change (run_moves (m :: ms) st) with (run_moves ms (run_move st m)).
    etransitivity; [apply IH |]. by apply run_move_potential.
Qed.

Lemma sweep_moves_fall (r c : Z) : Forall (falls r c) (sweep_moves r c).
Proof.
  unfold sweep_moves.
  assert (Hc : centerX = 10 /\ centerY = 10) by done. destruct Hc as [Hcx Hcy].
  apply Forall_app. split.
  - destruct (Z.eqb_spec r (-1)) as [Hr | Hr]; simpl; [constructor |].
    destruct (Z.ltb_spec r centerY) as [Hlt | Hge]; apply Forall_forall; intros m Hm.
    + apply elem_of_moves_up in Hm as (y & x & Hy & Hx & ->).
      unfold falls, fall_distance. rewrite !elem_of_board_coords.
      unfold BOARD_HEIGHT, BOARD_WIDTH in *. simpl.
      destruct (Z.eqb_spec r (-1)), (Z.ltb_spec r centerY); try lia.
    + apply elem_of_moves_down in Hm as (y & x & Hy & Hx & ->).
      unfold falls, fall_distance. rewrite !elem_of_board_coords.
      unfold BOARD_HEIGHT, BOARD_WIDTH in *. simpl.
      destruct (Z.eqb_spec r (-1)), (Z.ltb_spec r centerY); try lia.
  - destruct (Z.eqb_spec c (-1)) as [Hc | Hc]; simpl; [constructor |].
    unfold Z.geb. destruct (Z.compare_spec c centerX) as [Heq | Hlt | Hgt];
      apply Forall_app; split; apply Forall_forall; intros m Hm.
    all: first [ apply elem_of_moves_right in Hm as (y & x & Hy & Hx & ->)
               | apply elem_of_moves_left in Hm as (y & x & Hy & Hx & ->) ].
    all: unfold falls, fall_distance; rewrite !elem_of_board_coords;
      unfold BOARD_HEIGHT, BOARD_WIDTH in *; simpl;
      destruct (Z.eqb_spec c (-1)); try lia;
      unfold Z.geb; destruct (Z.compare_spec c centerX); try lia.
Qed.

Lemma gravity_sweep_potential (r c : Z) (b : Board) :
  0 <= snd (gravity_sweep r c b) /\
  potential r c (fst (gravity_sweep r c b)) + snd (gravity_sweep r c b) <=
  potential r c b.
Proof.
  rewrite gravity_sweep_moves. split.
  - apply (run_moves_changes_le (sweep_moves r c) (b, 0)).
  - pose proof (run_moves_potential r c _ (b, 0) (sweep_moves_fall r c)) as H.
    simpl in H. lia.
Qed.

(** A sweep that reports no change has not touched the board, and no
    move of the sweep is possible on it. *)
Lemma gravity_sweep_no_change (r c : Z) (b : Board) :
  snd (gravity_sweep r c b) <= 0 ->
  gravity_sweep r c b = (b, 0) /\
  Forall (fun m => ~ movable b m) (sweep_moves r c).
Proof.
  rewrite gravity_sweep_moves. intros H.
  by apply (run_moves_no_change (sweep_moves r c) (b, 0)).
Qed.

(** *** The loop of [apply_gravity] *)

Lemma apply_gravity_result (n : nat) (r c : Z) (b b' : Board) :
  apply_gravity n r c b = Some b' -> gravity_sweep r c b' = (b', 0).
Proof.
  revert b. induction n as [| n IH]; intros b; [done |]. simpl.
  destruct (gravity_sweep r c b) as [b1 ch] eqn:Hsweep.
  destruct (Z.gtb_spec ch 0) as [Hgt | Hle]; [by apply IH |].
  intros [= <-].
  destruct (gravity_sweep_no_change r c b) as [E _];
    rewrite Hsweep in *; [done |].
  by inversion E; subst.
Qed.

(** With [gravity_fuel] sweeps, or more, the loop reaches its exit. *)
Lemma apply_gravity_terminates (n : nat) (r c : Z) (b : Board) :
  (gravity_fuel r c b <= n)%nat ->
  exists b', apply_gravity n r c b = Some b'.
Proof.
  unfold gravity_fuel. revert b. induction n as [| n IH]; intros b Hfuel; [lia |].
  simpl. destruct (gravity_sweep r c b) as [b1 ch] eqn:Hsweep.
  destruct (Z.gtb_spec ch 0) as [Hgt | Hle]; [| by eexists].
  apply IH.
  pose proof (gravity_sweep_potential r c b) as [_ Hpot].
  rewrite Hsweep in Hpot. simpl in Hpot.
  pose proof (potential_nonneg r c b1). lia.
Qed.

(** The result does not depend on the fuel, once there is enough. *)
Lemma apply_gravity_fuel_irrelevant (n m : nat) (r c : Z) (b b1 b2 : Board) :
  apply_gravity n r c b = Some b1 -> apply_gravity m r c b = Some b2 ->
  b1 = b2.
Proof.
  revert m b. induction n as [| n IH]; intros m b; [done |].
  destruct m as [| m]; [done |]. simpl.
  destruct (gravity_sweep r c b) as [b' ch].
  destruct (ch >? 0); [apply IH | congruence].
Qed.

(** *** From "no move is possible" to "no gap" *)

Lemma no_move_settled_up (b : Board) :
  Forall (fun m => ~ movable b m) moves_up -> settled_up b.
Proof.
  rewrite Forall_forall. intros Hno y x Hy Hx Hocc y' Hy'.
  assert (Hstep : forall k, 0 <= k -> k <= y -> occupied b (y - k) x).
  { intros k Hk. pattern k. apply natlike_ind; [| | done].
    - intros _. by rewrite Z.sub_0_r.
    - intros j Hj IH Hle. specialize (IH ltac:(lia)).
      destruct (Z.eqb_spec (cell b (y - Z.succ j) x) BLACK) as [E | E]; [| done].
      exfalso. apply (Hno (y - j, x, y - j - 1, x)).
      + apply elem_of_moves_up. exists (y - j), x. repeat split; lia.
      + split; [done |]. by replace (y - j - 1) with (y - Z.succ j) by lia. }
  replace y' with (y - (y - y')) by lia. apply Hstep; lia.
Qed.

Lemma no_move_settled_down (b : Board) :
  Forall (fun m => ~ movable b m) moves_down -> settled_down b.
Proof.
  rewrite Forall_forall. intros Hno y x Hy Hx Hocc y' Hy'.
  assert (Hstep : forall k, 0 <= k -> y + k < BOARD_HEIGHT -> occupied b (y + k) x).
  { intros k Hk. pattern k. apply natlike_ind; [| | done].
    - intros _. by rewrite Z.add_0_r.
    - intros j Hj IH Hle. specialize (IH ltac:(lia)).
      destruct (Z.eqb_spec (cell b (y + Z.succ j) x) BLACK) as [E | E]; [| done].
      exfalso. apply (Hno (y + j, x, y + j + 1, x)).
      + apply elem_of_moves_down. exists (y + j), x. repeat split; lia.
      + split; [done |]. by replace (y + j + 1) with (y + Z.succ j) by lia. }
  replace y' with (y + (y' - y)) by lia. apply Hstep; lia.
Qed.

Lemma no_move_settled_right (b : Board) :
  Forall (fun m => ~ movable b m)
    (moves_right 0 centerY ++ moves_right centerY BOARD_HEIGHT) ->
  settled_right b.
Proof.
  rewrite Forall_forall. intros Hno y x Hy Hx Hocc x' Hx'.
  assert (Hstep : forall k, 0 <= k -> x + k < BOARD_WIDTH -> occupied b y (x + k)).
  { intros k Hk. pattern k. apply natlike_ind; [| | done].
    - intros _. by rewrite Z.add_0_r.
    - intros j Hj IH Hle. specialize (IH ltac:(lia)).
      destruct (Z.eqb_spec (cell b y (x + Z.succ j)) BLACK) as [E | E]; [| done].
      exfalso. apply (Hno (y, x + j, y, x + j + 1)).
      + apply elem_of_app. rewrite !elem_of_moves_right.
        destruct (Z_lt_le_dec y centerY); [left | right];
          exists y, (x + j); repeat split; lia.
      + split; [done |]. by replace (x + j + 1) with (x + Z.succ j) by lia. }
  replace x' with (x + (x' - x)) by lia. apply Hstep; lia.
Qed.

Lemma no_move_settled_left (b : Board) :
  Forall (fun m => ~ movable b m)
    (moves_left 0 centerY ++ moves_left centerY BOARD_HEIGHT) ->
  settled_left b.
Proof.
  rewrite Forall_forall. intros Hno y x Hy Hx Hocc x' Hx'.
  assert (Hstep : forall k, 0 <= k -> k <= x -> occupied b y (x - k)).
  { intros k Hk. pattern k. apply natlike_ind; [| | done].
    - intros _. by rewrite Z.sub_0_r.
    - intros j Hj IH Hle. specialize (IH ltac:(lia)).
      destruct (Z.eqb_spec (cell b y (x - Z.succ j)) BLACK) as [E | E]; [| done].
      exfalso. apply (Hno (y, x - j, y, x - j - 1)).
      + apply elem_of_app. rewrite !elem_of_moves_left.
        destruct (Z_lt_le_dec y centerY); [left | right];
          exists y, (x - j); repeat split; lia.
      + split; [done |]. by replace (x - j - 1) with (x - Z.succ j) by lia. }
  replace x' with (x - (x - x')) by lia. apply Hstep; lia.
Qed.

Lemma no_move_settled (r c : Z) (b : Board) :
  Forall (fun m => ~ movable b m) (sweep_moves r c) -> settled r c b.
Proof.
  unfold sweep_moves, settled. rewrite Forall_app. intros [Hrow Hcol]. split.
  - intros Hr. destruct (Z.eqb_spec r (-1)); [done |]. simpl in Hrow.
    destruct (r <? centerY);
      [by apply no_move_settled_up | by apply no_move_settled_down].
  - intros Hc. destruct (Z.eqb_spec c (-1)); [done |]. simpl in Hcol.
    destruct (c >=? centerX);
      [by apply no_move_settled_right | by apply no_move_settled_left].
Qed.

Lemma apply_gravity_settled (n : nat) (r c : Z) (b b' : Board) :
  apply_gravity n r c b = Some b' -> settled r c b'.
Proof.
  intros H. apply apply_gravity_result in H.
  apply no_move_settled.
  apply (gravity_sweep_no_change r c b'). by rewrite H.
Qed.

(** ** The line-clear pass *)

Lemma row_complete_true (b : Board) (y : Z) :
  row_complete b y = true <->
  forall x, 0 <= x < BOARD_WIDTH -> cell b y x <> BLACK.
Proof.
  unfold row_complete. rewrite forallb_forall. split.
  - intros H x Hx. specialize (H x).
    rewrite <- list_elem_of_In, elem_of_range in H. specialize (H Hx).
    by destruct (Z.eqb_spec (cell b y x) BLACK).
  - intros H x Hx. rewrite <- list_elem_of_In, elem_of_range in Hx.
    specialize (H x Hx). by destruct (Z.eqb_spec (cell b y x) BLACK).
Qed.

Lemma col_complete_true (b : Board) (x : Z) :
  col_complete b x = true <->
  forall y, 0 <= y < BOARD_HEIGHT -> cell b y x <> BLACK.
Proof.
  unfold col_complete. rewrite forallb_forall. split.
  - intros H y Hy. specialize (H y).
    rewrite <- list_elem_of_In, elem_of_range in H. specialize (H Hy).
    by destruct (Z.eqb_spec (cell b y x) BLACK).
  - intros H y Hy. rewrite <- list_elem_of_In, elem_of_range in Hy.
    specialize (H y Hy). by destruct (Z.eqb_spec (cell b y x) BLACK).
Qed.

(** Completeness of a line depends on the cells of that line only. *)
Lemma row_complete_ext (b1 b2 : Board) (y : Z) :
  (forall x, 0 <= x < BOARD_WIDTH -> cell b1 y x = cell b2 y x) ->
  row_complete b1 y = row_complete b2 y.
Proof.
  intros H. apply eq_true_iff_eq. rewrite !row_complete_true.
  split; intros Hc x Hx; [rewrite <- H | rewrite H]; auto.
Qed.

Lemma col_complete_ext (b1 b2 : Board) (x : Z) :
  (forall y, 0 <= y < BOARD_HEIGHT -> cell b1 y x = cell b2 y x) ->
  col_complete b1 x = col_complete b2 x.
Proof.
  intros H. apply eq_true_iff_eq. rewrite !col_complete_true.
  split; intros Hc y Hy; [rewrite <- H | rewrite H]; auto.
Qed.

Lemma has_full_row_true (b : Board) :
  has_full_row b = true <->
  exists y, 0 <= y < BOARD_HEIGHT /\ row_complete b y = true.
Proof.
  unfold has_full_row. rewrite existsb_exists. split.
  - intros (y & Hy & Hc). rewrite <- list_elem_of_In, elem_of_range in Hy. eauto.
  - intros (y & Hy & Hc). exists y. by rewrite <- list_elem_of_In, elem_of_range.
Qed.

(** Cells after the loop that blanks the positions [(y, x)], [x] in [xs]. *)
Lemma cell_blank_row (xs : list Z) (b : Board) (y y' x' : Z) :
  cell (for_each xs (fun x bd => set_cell bd y x BLACK) b) y' x' =
  if bool_decide (y' = y /\ x' ∈ xs) then BLACK else cell b y' x'.
Proof.
  unfold for_each. revert b. induction xs as [| a xs IH]; intros b; simpl.
  - rewrite bool_decide_eq_false_2; [done |]. intros [_ H]. by apply elem_of_nil in H.
  - rewrite IH. destruct (decide (y' = y /\ x' ∈ xs)) as [Hin | Hnin].
    + rewrite !bool_decide_eq_true_2; [done | | done].
      destruct Hin. split; [done | by right].
    + rewrite (bool_decide_eq_false_2 _ Hnin).
      destruct (decide ((y', x') = (y, a))) as [[= -> ->] | Hne].
      * rewrite cell_set_cell_black. rewrite bool_decide_eq_true_2; [done |].
        split; [done | by left].
      * rewrite cell_set_cell_ne by done.
        rewrite bool_decide_eq_false_2; [done |].
        intros [-> [-> | Hin]%elem_of_cons]; [done |]. by apply Hnin.
Qed.

Lemma cell_blank_col (ys : list Z) (b : Board) (x y' x' : Z) :
  cell (for_each ys (fun y bd => set_cell bd y x BLACK) b) y' x' =
  if bool_decide (x' = x /\ y' ∈ ys) then BLACK else cell b y' x'.
Proof.
  unfold for_each. revert b. induction ys as [| a ys IH]; intros b; simpl.
  - rewrite bool_decide_eq_false_2; [done |]. intros [_ H]. by apply elem_of_nil in H.
  - rewrite IH. destruct (decide (x' = x /\ y' ∈ ys)) as [Hin | Hnin].
    + rewrite !bool_decide_eq_true_2; [done | | done].
      destruct Hin. split; [done | by right].
    + rewrite (bool_decide_eq_false_2 _ Hnin).
      destruct (decide ((y', x') = (a, x))) as [[= -> ->] | Hne].
      * rewrite cell_set_cell_black. rewrite bool_decide_eq_true_2; [done |].
        split; [done | by left].
      * rewrite cell_set_cell_ne by done.
        rewrite bool_decide_eq_false_2; [done |].
        intros [-> [-> | Hin]%elem_of_cons]; [done |]. by apply Hnin.
Qed.

Lemma cell_clear_row (b : Board) (y y' x' : Z) :
  0 <= x' < BOARD_WIDTH ->
  cell (clear_row b y) y' x' = if y' =? y then BLACK else cell b y' x'.
Proof.
  intros Hx. unfold clear_row. rewrite cell_blank_row.
  destruct (Z.eqb_spec y' y) as [-> | Hne].
  - rewrite bool_decide_eq_true_2; [done |]. split; [done | by apply elem_of_range].
  - rewrite bool_decide_eq_false_2; [done |]. by intros [? _].
Qed.

Lemma cell_clear_col (b : Board) (x y' x' : Z) :
  0 <= y' < BOARD_HEIGHT ->
  cell (clear_col b x) y' x' = if x' =? x then BLACK else cell b y' x'.
Proof.
  intros Hy. unfold clear_col. rewrite cell_blank_col.
  destruct (Z.eqb_spec x' x) as [-> | Hne].
  - rewrite bool_decide_eq_true_2; [done |]. split; [done | by apply elem_of_range].
  - rewrite bool_decide_eq_false_2; [done |]. by intros [? _].
Qed.

Lemma last_cons_default {A : Type} (a d : A) (l : list A) :
  List.last (a :: l) d = List.last l a.
Proof.
  revert a d. induction l as [| a' l IH]; intros a d; [done |].
  change (List.last (a :: a' :: l) d) with (List.last (a' :: l) d).
  by rewrite !IH.
Qed.

(** The row loop over any duplicate-free list of row indices: which cells
    it blanks and what it leaves in the locals. *)
Lemma scan_rows_spec (ys : list Z) (s0 : Scan) :
  NoDup ys ->
  let s := for_each ys scan_row s0 in
  let b0 := sc_board s0 in
  (forall y' x', 0 <= x' < BOARD_WIDTH ->
     cell (sc_board s) y' x' =
     if bool_decide (y' ∈ ys) && row_complete b0 y' then BLACK
     else cell b0 y' x') /\
  linesCleared s =
    linesCleared s0 + Z.of_nat (length (List.filter (row_complete b0) ys)) /\
  lastClearedRow s =
    List.last (List.filter (row_complete b0) ys) (lastClearedRow s0) /\
  lastClearedCol s = lastClearedCol s0.
Proof.
  revert s0. induction ys as [| y ys IH]; intros s0 Hnd; simpl.
  - repeat split; first [lia | done].
  - apply NoDup_cons in Hnd as [Hnotin Hnd].
    specialize (IH (scan_row y s0) Hnd). simpl in IH.
    destruct IH as (Hcells & Hcount & Hlast & Hcol).
    unfold for_each in *. simpl.
    assert (Hrows : forall y', y' ∈ ys ->
              row_complete (sc_board (scan_row y s0)) y' =
              row_complete (sc_board s0) y').
    { intros y' Hy'. apply row_complete_ext. intros x Hx. unfold scan_row.
      destruct (row_complete (sc_board s0) y); [| done]. simpl.
      rewrite cell_clear_row by done.
      destruct (Z.eqb_spec y' y) as [-> | _]; [done | done]. }
    assert (Hfilter : List.filter (row_complete (sc_board (scan_row y s0))) ys =
                      List.filter (row_complete (sc_board s0)) ys).
    { apply filter_ext_in. intros y' Hy'. apply Hrows. by apply list_elem_of_In. }
    rewrite Hfilter in *. repeat split.
    + intros y' x' Hx. rewrite Hcells by done.
      destruct (decide (y' ∈ ys)) as [Hin | Hnin].
      * rewrite (bool_decide_eq_true_2 _ Hin). rewrite (Hrows _ Hin). simpl.
        rewrite bool_decide_eq_true_2 by (by right). simpl.
        destruct (row_complete (sc_board s0) y') eqn:Hc; [done |].
        unfold scan_row.
        destruct (row_complete (sc_board s0) y); [| done]. simpl.
        rewrite cell_clear_row by done.
        destruct (Z.eqb_spec y' y) as [-> | _]; done.
      * rewrite (bool_decide_eq_false_2 _ Hnin). simpl.
        unfold scan_row.
        destruct (decide (y' = y)) as [-> | Hne].
        -- rewrite bool_decide_eq_true_2 by (by left). simpl.
           destruct (row_complete (sc_board s0) y); [| done]. simpl.
           rewrite cell_clear_row by done. by rewrite Z.eqb_refl.
        -- rewrite bool_decide_eq_false_2.
           2:{ intros [-> | Hin]%elem_of_cons; done. }
           simpl. destruct (row_complete (sc_board s0) y); [| done]. simpl.
           rewrite cell_clear_row by done.
           by destruct (Z.eqb_spec y' y).
    + rewrite Hcount. unfold scan_row.
      destruct (row_complete (sc_board s0) y); simpl; lia.
    + rewrite Hlast. unfold scan_row.
      destruct (row_complete (sc_board s0) y); [| done].
      symmetry. apply last_cons_default.
    + rewrite Hcol. unfold scan_row.
      by destruct (row_complete (sc_board s0) y).
Qed.

(** The same for the column loop. *)
Lemma scan_cols_spec (xs : list Z) (s0 : Scan) :
  NoDup xs ->
  let s := for_each xs scan_col s0 in
  let b0 := sc_board s0 in
  (forall y' x', 0 <= y' < BOARD_HEIGHT ->
     cell (sc_board s) y' x' =
     if bool_decide (x' ∈ xs) && col_complete b0 x' then BLACK
     else cell b0 y' x') /\
  linesCleared s =
    linesCleared s0 + Z.of_nat (length (List.filter (col_complete b0) xs)) /\
  lastClearedCol s =
    List.last (List.filter (col_complete b0) xs) (lastClearedCol s0) /\
  lastClearedRow s = lastClearedRow s0.
Proof.
  revert s0. induction xs as [| x xs IH]; intros s0 Hnd; simpl.
  - repeat split; first [lia | done].
  - apply NoDup_cons in Hnd as [Hnotin Hnd].
    specialize (IH (scan_col x s0) Hnd). simpl in IH.
    destruct IH as (Hcells & Hcount & Hlast & Hrow).
    unfold for_each in *. simpl.
    assert (Hcols : forall x', x' ∈ xs ->
              col_complete (sc_board (scan_col x s0)) x' =
              col_complete (sc_board s0) x').
    { intros x' Hx'. apply col_complete_ext. intros y Hy. unfold scan_col.
      destruct (col_complete (sc_board s0) x); [| done]. simpl.
      rewrite cell_clear_col by done.
      destruct (Z.eqb_spec x' x) as [-> | _]; [done | done]. }
    assert (Hfilter : List.filter (col_complete (sc_board (scan_col x s0))) xs =
                      List.filter (col_complete (sc_board s0)) xs).
    { apply filter_ext_in. intros x' Hx'. apply Hcols. by apply list_elem_of_In. }
    rewrite Hfilter in *. repeat split.
    + intros y' x' Hy. rewrite Hcells by done.
      destruct (decide (x' ∈ xs)) as [Hin | Hnin].
      * rewrite (bool_decide_eq_true_2 _ Hin). rewrite (Hcols _ Hin). simpl.
        rewrite bool_decide_eq_true_2 by (by right). simpl.
        destruct (col_complete (sc_board s0) x') eqn:Hc; [done |].
        unfold scan_col.
        destruct (col_complete (sc_board s0) x); [| done]. simpl.
        rewrite cell_clear_col by done.
        destruct (Z.eqb_spec x' x) as [-> | _]; done.
      * rewrite (bool_decide_eq_false_2 _ Hnin). simpl.
        unfold scan_col.
        destruct (decide (x' = x)) as [-> | Hne].
        -- rewrite bool_decide_eq_true_2 by (by left). simpl.
           destruct (col_complete (sc_board s0) x); [| done]. simpl.
           rewrite cell_clear_col by done. by rewrite Z.eqb_refl.
        -- rewrite bool_decide_eq_false_2.
           2:{ intros [-> | Hin]%elem_of_cons; done. }
           simpl. destruct (col_complete (sc_board s0) x); [| done]. simpl.
           rewrite cell_clear_col by done.
           by destruct (Z.eqb_spec x' x).
    + rewrite Hcount. unfold scan_col.
      destruct (col_complete (sc_board s0) x); simpl; lia.
    + rewrite Hlast. unfold scan_col.
      destruct (col_complete (sc_board s0) x); [| done].
      symmetry. apply last_cons_default.
    + rewrite Hrow. unfold scan_col.
      by destruct (col_complete (sc_board s0) x).
Qed.

Lemma not_elem_of_range_end (lo hi : Z) : hi ∉ range lo hi.
Proof. rewrite elem_of_range. lia. Qed.

(** The board between the two loops: the complete rows are blank. *)
Lemma cell_after_rows (b : Board) (y x : Z) :
  0 <= y < BOARD_HEIGHT -> 0 <= x < BOARD_WIDTH ->
  cell (sc_board (scan_rows (scan_start b))) y x =
  if row_complete b y then BLACK else cell b y x.
Proof.
  intros Hy Hx.
  destruct (scan_rows_spec (range 0 BOARD_HEIGHT) (scan_start b)
              (NoDup_range _ _)) as (Hcells & _).
  unfold scan_rows. rewrite Hcells by done. simpl.
  rewrite bool_decide_eq_true_2; [done | by apply elem_of_range].
Qed.

Lemma row_flag_spec (b : Board) (y : Z) : row_flag b y = row_complete b y.
Proof.
  unfold row_flag. apply row_complete_ext. intros x Hx.
  destruct (scan_rows_spec (range 0 y) (scan_start b) (NoDup_range _ _))
    as (Hcells & _).
  rewrite Hcells by done.
  rewrite bool_decide_eq_false_2; [done | apply not_elem_of_range_end].
Qed.

Lemma has_full_row_false (b : Board) :
  has_full_row b = false <->
  forall y, 0 <= y < BOARD_HEIGHT -> row_complete b y = false.
Proof.
  rewrite <- not_true_iff_false, has_full_row_true. split.
  - intros H y Hy. apply not_true_iff_false. intros Hc. apply H. eauto.
  - intros H (y & Hy & Hc). rewrite (H y Hy) in Hc. done.
Qed.

(** Seen from the column loop, a column is complete exactly when it is
    full in the original board and the row loop has found nothing. *)
Lemma col_complete_after_rows (b : Board) (x : Z) :
  0 <= x < BOARD_WIDTH ->
  col_complete (sc_board (scan_rows (scan_start b))) x =
  col_complete b x && negb (has_full_row b).
Proof.
  intros Hx. apply eq_true_iff_eq.
  rewrite andb_true_iff, negb_true_iff, has_full_row_false.
  rewrite !col_complete_true. split.
  - intros H. split.
    + intros y Hy. specialize (H y Hy). rewrite cell_after_rows in H by done.
      by destruct (row_complete b y).
    + intros y Hy. specialize (H y Hy). rewrite cell_after_rows in H by done.
      by destruct (row_complete b y).
  - intros [Hfull Hnone] y Hy. rewrite cell_after_rows by done.
    rewrite (Hnone y Hy). by apply Hfull.
Qed.

Lemma col_flag_after_rows (b : Board) (x : Z) :
  col_flag b x = col_complete (sc_board (scan_rows (scan_start b))) x.
Proof.
  unfold col_flag. apply col_complete_ext. intros y Hy.
  destruct (scan_cols_spec (range 0 x) (scan_rows (scan_start b))
              (NoDup_range _ _)) as (Hcells & _).
  rewrite Hcells by done.
  rewrite bool_decide_eq_false_2; [done | apply not_elem_of_range_end].
Qed.

Lemma col_flag_spec (b : Board) (x : Z) :
  0 <= x < BOARD_WIDTH ->
  col_flag b x = col_complete b x && negb (has_full_row b).
Proof.
  intros Hx. rewrite col_flag_after_rows. by apply col_complete_after_rows.
Qed.

Lemma cell_scan_lines (b : Board) (y x : Z) :
  0 <= y < BOARD_HEIGHT -> 0 <= x < BOARD_WIDTH ->
  cell (sc_board (scan_lines b)) y x =
  if row_flag b y || col_flag b x then BLACK else cell b y x.
Proof.
  intros Hy Hx. unfold scan_lines.
  destruct (scan_cols_spec (range 0 BOARD_WIDTH) (scan_rows (scan_start b))
              (NoDup_range _ _)) as (Hcells & _).
  unfold scan_cols. rewrite Hcells by done.
  rewrite bool_decide_eq_true_2 by (by apply elem_of_range).
  rewrite andb_true_l.
  rewrite <- col_flag_after_rows, row_flag_spec.
  rewrite cell_after_rows by done.
  by destruct (col_flag b x), (row_complete b y).
Qed.

Lemma linesCleared_scan_lines (b : Board) :
  linesCleared (scan_lines b) =
  Z.of_nat (length (List.filter (row_flag b) (range 0 BOARD_HEIGHT))) +
  Z.of_nat (length (List.filter (col_flag b) (range 0 BOARD_WIDTH))).
Proof.
  unfold scan_lines.
  destruct (scan_cols_spec (range 0 BOARD_WIDTH) (scan_rows (scan_start b))
              (NoDup_range _ _)) as (_ & Hcount & _).
  destruct (scan_rows_spec (range 0 BOARD_HEIGHT) (scan_start b)
              (NoDup_range _ _)) as (_ & Hrows & _).
  unfold scan_cols. rewrite Hcount. unfold scan_rows at 1. rewrite Hrows.
  change (linesCleared (scan_start b)) with 0.
  change (sc_board (scan_start b)) with b.
  rewrite Z.add_0_l. f_equal; f_equal; f_equal.
  - apply filter_ext. intros y. symmetry. apply row_flag_spec.
  - apply filter_ext. intros x. symmetry. apply col_flag_after_rows.
Qed.

(** The run of the loop, sweep by sweep. *)
Lemma apply_gravity_trace (n : nat) (r c : Z) (b b' : Board) :
  apply_gravity n r c b = Some b' ->
  exists k, (k < n)%nat /\ sweeps_after r c k b = b' /\
            gravity_sweep r c b' = (b', 0) /\
            (forall j, (j < k)%nat ->
               0 < snd (gravity_sweep r c (sweeps_after r c j b))) /\
            forall m, (k < m)%nat -> apply_gravity m r c b = Some b'.
Proof.
  revert b. induction n as [| n IH]; intros b; [done |]. simpl.
  destruct (gravity_sweep r c b) as [b1 ch] eqn:Hsweep.
  destruct (Z.gtb_spec ch 0) as [Hgt | Hle].
  - intros H. destruct (IH _ H) as (k & Hk & Hafter & Hfix & Hpos & Hfuel).
    exists (S k). repeat split; [lia | | done | |].
    + simpl. by rewrite Hsweep.
    + intros [| j] Hj; simpl; rewrite Hsweep; simpl; [lia |].
      apply Hpos. lia.
    + intros [| m] Hm; [lia |]. simpl. rewrite Hsweep.
      destruct (Z.gtb_spec ch 0); [| lia]. apply Hfuel. lia.
  - intros [= <-].
    destruct (gravity_sweep_no_change r c b) as [E _];
      rewrite Hsweep in *; [done |].
    inversion E; subst. exists 0%nat. repeat split; [lia | done | |].
    + intros j Hj. lia.
    + intros [| m] Hm; [lia |]. simpl. by rewrite Hsweep.
Qed.

Lemma potential_sweeps_after (r c : Z) (k : nat) (b : Board) :
  (forall j, (j < k)%nat -> 0 < snd (gravity_sweep r c (sweeps_after r c j b))) ->
  potential r c (sweeps_after r c k b) + Z.of_nat k <= potential r c b.
Proof.
  revert b. induction k as [| k IH]; intros b Hpos; [simpl; lia |].
  simpl. pose proof (gravity_sweep_potential r c b) as [_ Hpot].
  pose proof (Hpos 0%nat ltac:(lia)) as H0. simpl in H0.
  specialize (IH (fst (gravity_sweep r c b))).
  assert (Hpos' : forall j, (j < k)%nat ->
            0 < snd (gravity_sweep r c
                       (sweeps_after r c j (fst (gravity_sweep r c b))))).
  { intros j Hj. apply (Hpos (S j)). lia. }
  specialize (IH Hpos'). lia.
Qed.

(** ** Collision checker *)

Lemma collision_scan_spec (p : Game -> Piece) (shape : Z)
    (cells : list (Z * Z)) (g : Game) :
  (forall y x, (y, x) ∈ cells -> 0 <= y < 4 /\ 0 <= x < 4) ->
  is_int (Piece.x (p g)) -> is_int (Piece.y (p g)) ->
  (collision_scan p shape cells g = (0, g) /\
   forall y x, (y, x) ∈ cells -> shape_bit shape y x = true ->
               ~ blocked (board g) (p g) y x) \/
  (collision_scan p shape cells g = (1, g) /\
   exists y x, (y, x) ∈ cells /\ shape_bit shape y x = true /\
               blocked (board g) (p g) y x).
Proof.
  intros Hcells Hx Hy. induction cells as [| [y x] rest IH].
  - left. split; [done |]. intros y x H. by apply elem_of_nil in H.
  - assert (Hrest : forall y x, (y, x) ∈ rest -> 0 <= y < 4 /\ 0 <= x < 4).
    { intros y' x' H. apply Hcells. by right. }
    specialize (IH Hrest).
    destruct (Hcells y x ltac:(left)) as [Hy4 Hx4].
    assert (Hskip : ~ blocked (board g) (p g) y x \/ shape_bit shape y x = false ->
      (collision_scan p shape rest g = (0, g) /\
       forall y' x', (y', x') ∈ rest -> shape_bit shape y' x' = true ->
                     ~ blocked (board g) (p g) y' x') ->
      forall y' x', (y', x') ∈ (y, x) :: rest -> shape_bit shape y' x' = true ->
                    ~ blocked (board g) (p g) y' x').
    { intros Hhead [_ Htail] y' x' [[= -> ->] | Hin]%elem_of_cons Hbit.
      - destruct Hhead as [H | H]; [done | congruence].
      - by apply Htail. }
    simpl. destruct (shape_bit shape y x) eqn:Hbit.
    2:{ destruct IH as [IH | IH].
        - left. split; [apply IH | apply Hskip; auto].
        - right. split; [apply IH |].
          destruct IH as (_ & y' & x' & Hin & H). exists y', x'.
          split; [by right | done]. }
    unfold mbind, M_bind, mret, M_ret, gets.
    destruct (int_add_small _ x Hx Hx4) as [[HxM ->] | [HxM HxW]];
      destruct (int_add_small _ y Hy Hy4) as [[HyM ->] | [HyM HyW]].
    + destruct (Z.ltb_spec (Piece.x (p g) + x) 0);
        destruct (Z.geb_spec (Piece.x (p g) + x) BOARD_WIDTH);
        destruct (Z.ltb_spec (Piece.y (p g) + y) 0);
        destruct (Z.geb_spec (Piece.y (p g) + y) BOARD_HEIGHT); simpl;
        try (right; split; [done |]; exists y, x;
             split; [by left |]; split; [done |]; left; lia).
      destruct (Z.eqb_spec (cell (board g) (Piece.y (p g) + y)
                              (Piece.x (p g) + x)) BLACK) as [E | E]; simpl.
      * destruct IH as [IH | IH].
        -- left. split; [apply IH |]. apply Hskip; [| done].
           left. intros [H' | H']; [apply H'; lia | done].
        -- right. split; [apply IH |].
           destruct IH as (_ & y' & x' & Hin & H'). exists y', x'.
           split; [by right | done].
      * right. split; [done |]. exists y, x.
        split; [by left |]. split; [done |]. by right.
    + right. destruct (Z.ltb_spec (int_add (Piece.y (p g)) y) 0); [| lia].
      rewrite !orb_true_r. simpl. split; [done |]. exists y, x.
      split; [by left |]. split; [done |]. left.
      unfold BOARD_HEIGHT, INT_MAX in *. lia.
    + right. destruct (Z.ltb_spec (int_add (Piece.x (p g)) x) 0); [| lia].
      simpl. split; [done |]. exists y, x.
      split; [by left |]. split; [done |]. left.
      unfold BOARD_WIDTH, INT_MAX in *. lia.
    + right. destruct (Z.ltb_spec (int_add (Piece.x (p g)) x) 0); [| lia].
      simpl. split; [done |]. exists y, x.
      split; [by left |]. split; [done |]. left.
      unfold BOARD_WIDTH, INT_MAX in *. lia.
Qed.

(** [check_collision] returns [0] or [1], leaves the globals as they
    are, and returns [1] exactly for a blocked placement. *)
Lemma check_collision_cases (p : Game -> Piece) (g : Game) :
  is_int (Piece.x (p g)) -> is_int (Piece.y (p g)) ->
  let shape := shape_of (Piece.type (p g)) (Piece.rotation (p g)) in
  (check_collision p g = (0, g) /\
   forall y x, 0 <= y < 4 -> 0 <= x < 4 -> shape_bit shape y x = true ->
               ~ blocked (board g) (p g) y x) \/
  (check_collision p g = (1, g) /\
   exists y x, 0 <= y < 4 /\ 0 <= x < 4 /\ shape_bit shape y x = true /\
               blocked (board g) (p g) y x).
Proof.
  intros Hx Hy shape. unfold check_collision, mbind, M_bind, gets.
  destruct (collision_scan_spec p shape shape_cells g) as [[E H] | [E H]];
    [by intros y x ?%elem_of_shape_cells | done | done | |].
  - left. split; [done |]. intros y x Hy4 Hx4. apply H.
    by apply elem_of_shape_cells.
  - right. split; [done |]. destruct H as (y & x & Hin & Hbit & Hb).
    apply elem_of_shape_cells in Hin as [? ?]. by exists y, x.
Qed.

Lemma check_collision_state (p : Game -> Piece) (g : Game) :
  snd (check_collision p g) = g.
Proof.
  unfold check_collision, mbind, M_bind, gets.
  generalize (shape_of (Piece.type (p g)) (Piece.rotation (p g))) as shape.
  intros shape. induction shape_cells as [| [y x] rest IH]; [done |].
  simpl. destruct (shape_bit shape y x); [| done].
  unfold mbind, M_bind, mret, M_ret, gets.
  destruct (_ || _); [done |]. by destruct (negb _).
Qed.

(** ** Lock *)

Lemma int_add_in_board (a k : Z) :
  0 <= a + k < 20 -> int_add a k = a + k.
Proof.
  intros H. apply wrap_int_id. unfold is_int, INT_MIN, INT_MAX. lia.
Qed.

(** The loop of [lock_piece] over a list of shape cells all of whose
    occupied cells land inside the board. *)
Lemma lock_loop_spec (p : Piece) (cells : list (Z * Z)) (b : Board) :
  let shape := shape_of (Piece.type p) (Piece.rotation p) in
  let step := fun (bd : Board) '(y, x) =>
    if shape_bit shape y x
    then set_cell bd (int_add (Piece.y p) y) (int_add (Piece.x p) x)
                  (int_add (Piece.type p) 1)
    else bd in
  wf_board b ->
  (forall y x, (y, x) ∈ cells -> shape_bit shape y x = true ->
     0 <= Piece.x p + x < BOARD_WIDTH /\ 0 <= Piece.y p + y < BOARD_HEIGHT) ->
  wf_board (fold_left step cells b) /\
  forall Y X,
    cell (fold_left step cells b) Y X =
    if existsb (fun '(y, x) =>
                  shape_bit shape y x &&
                  (Y =? Piece.y p + y) && (X =? Piece.x p + x)) cells
    then int_add (Piece.type p) 1
    else cell b Y X.
Proof.
  intros shape step. revert b.
  induction cells as [| [y x] rest IH]; intros b Hwf Hin; [by split |].
  assert (Hrest : forall y' x', (y', x') ∈ rest -> shape_bit shape y' x' = true ->
            0 <= Piece.x p + x' < BOARD_WIDTH /\
            0 <= Piece.y p + y' < BOARD_HEIGHT).
  { intros y' x' H. apply Hin. by right. }
  simpl. destruct (shape_bit shape y x) eqn:Hbit; simpl.
  - destruct (Hin y x ltac:(left) Hbit) as [Hx Hy].
    rewrite (int_add_in_board _ y Hy), (int_add_in_board _ x Hx).
    destruct (IH (set_cell b (Piece.y p + y) (Piece.x p + x)
                    (int_add (Piece.type p) 1))) as [Hwf' Hcell];
      [by apply wf_board_set_cell | done |].
    split; [done |]. intros Y X. rewrite Hcell.
    destruct (existsb _ rest); [by rewrite orb_true_r |].
    rewrite orb_false_r.
    destruct (Z.eqb_spec Y (Piece.y p + y)) as [-> | HneY];
      destruct (Z.eqb_spec X (Piece.x p + x)) as [-> | HneX]; simpl.
    + apply cell_set_cell_eq. by apply wf_board_in_board.
    + apply cell_set_cell_ne. congruence.
    + apply cell_set_cell_ne. congruence.
    + apply cell_set_cell_ne. congruence.
  - by apply IH.
Qed.

Lemma lock_cells_spec (p : Piece) (b : Board) :
  wf_board b ->
  (forall y x, 0 <= y < 4 -> 0 <= x < 4 ->
     shape_bit (shape_of (Piece.type p) (Piece.rotation p)) y x = true ->
     ~ blocked b p y x) ->
  wf_board (lock_cells p b) /\
  forall Y X,
    cell (lock_cells p b) Y X =
    if footprint p Y X then int_add (Piece.type p) 1 else cell b Y X.
Proof.
  intros Hwf Hfree. apply lock_loop_spec; [done |].
  intros y x [Hy Hx]%elem_of_shape_cells Hbit.
  specialize (Hfree y x Hy Hx Hbit). unfold blocked in Hfree.
  destruct (decide (0 <= Piece.x p + x < BOARD_WIDTH /\
                    0 <= Piece.y p + y < BOARD_HEIGHT)); [done |].
  exfalso. apply Hfree. by left.
Qed.

(** ** Rotation *)

Lemma next_rotation (r : Z) :
  0 <= r < 4 -> Z.rem (int_add r 1) 4 = (r + 1) mod 4.
Proof.
  intros H. assert (r = 0 \/ r = 1 \/ r = 2 \/ r = 3) as [-> | [-> | [-> | ->]]] by lia;
    reflexivity.
Qed.

Lemma set_currentPiece_same (g : Game) : set_currentPiece g (currentPiece g) = g.
Proof. by destruct g. Qed.

Lemma set_currentPiece_twice (g : Game) (p q : Piece) :
  set_currentPiece (set_currentPiece g p) q = set_currentPiece g q.
Proof. done. Qed.

Lemma with_rotation_same (p : Piece) : Piece.with_rotation p (Piece.rotation p) = p.
Proof. by destruct p. Qed.

Lemma with_rotation_twice (p : Piece) (r s : Z) :
  Piece.with_rotation (Piece.with_rotation p r) s = Piece.with_rotation p s.
Proof. done. Qed.

(** One call of [rotate_piece]: the turned piece if it fits, the old
    state otherwise. *)
Lemma rotate_piece_step (g : Game) :
  0 <= Piece.rotation (currentPiece g) < 4 ->
  let turned :=
    set_currentPiece g
      (Piece.with_rotation (currentPiece g)
         ((Piece.rotation (currentPiece g) + 1) mod 4)) in
  rotate_piece g =
  if fst (check_collision currentPiece turned) =? 0 then turned else g.
Proof.
  intros Hrot turned. unfold rotate_piece.
  rewrite next_rotation by done. subst turned.
  set (turned := set_currentPiece g _).
  pose proof (check_collision_state currentPiece turned) as Hstate.
  destruct (check_collision currentPiece turned) as [c g2].
  simpl in Hstate. subst g2. simpl.
  destruct (c =? 0); simpl; [done |].
  unfold turned. rewrite with_rotation_twice, with_rotation_same.
  rewrite set_currentPiece_twice. apply set_currentPiece_same.
Qed.

(** ** Movement tick *)

Lemma tick_undo_translate (p : Piece) :
  is_int (Piece.x p) -> is_int (Piece.y p) -> tick_undo (tick_translate p) = p.
Proof.
  intros Hx Hy. destruct p as [x y t r d]. unfold tick_translate, tick_undo.
  simpl in *.
  destruct (Z.eqb_spec d DIR_DOWN) as [-> | ?]; simpl.
  { unfold Piece.with_y. simpl. by rewrite int_sub_add_cancel. }
  destruct (Z.eqb_spec d DIR_UP) as [-> | ?]; simpl.
  { unfold Piece.with_y. simpl. by rewrite int_add_sub_cancel. }
  destruct (Z.eqb_spec d DIR_LEFT) as [-> | ?]; simpl.
  { unfold Piece.with_x. simpl. by rewrite int_add_sub_cancel. }
  destruct (Z.eqb_spec d DIR_RIGHT) as [-> | ?]; simpl.
  { unfold Piece.with_x. simpl. by rewrite int_sub_add_cancel. }
  destruct (Z.eqb_spec d DIR_DOWN), (Z.eqb_spec d DIR_UP),
    (Z.eqb_spec d DIR_LEFT), (Z.eqb_spec d DIR_RIGHT); done.
Qed.

(** ** Score and speed of a line-clear pass *)

Lemma check_lines_terminates (g : Game) :
  exists n, forall m, (n <= m)%nat -> is_Some (check_lines m g).
Proof.
  set (s := scan_lines (board g)).
  exists (gravity_fuel (lastClearedRow s) (lastClearedCol s) (sc_board s)).
  intros m Hm. unfold check_lines. fold s.
  destruct (negb (lastClearedRow s =? -1) || negb (lastClearedCol s =? -1)).
  - destruct (apply_gravity_terminates m _ _ _ Hm) as [b' ->].
    destruct (update_score _ _ _). by eexists.
  - destruct (update_score _ _ _). by eexists.
Qed.

Lemma check_lines_result (fuel : nat) (g g' : Game) :
  check_lines fuel g = Some g' ->
  (score g', speed g') =
    update_score (linesCleared (scan_lines (board g))) (score g) (speed g) /\
  currentPiece g' = currentPiece g /\ gameOver g' = gameOver g /\
  randState g' = randState g.
Proof.
  unfold check_lines.
  destruct (if _ : bool then _ else _) as [b' |]; [| done].
  destruct (update_score _ _ _) as [sc sp]. by intros [= <-].
Qed.

Lemma handle_tick_movement_terminates (g : Game) :
  exists n, forall m, (n <= m)%nat -> is_Some (handle_tick_movement m g).
Proof.
  unfold handle_tick_movement.
  destruct (check_collision currentPiece _) as [c g2].
  destruct (negb (c =? 0)); [| by exists 0%nat; eexists].
  destruct (check_lines_terminates
              (lock_piece (set_currentPiece g2 (tick_undo (currentPiece g2)))))
    as [n Hn].
  exists n. intros m Hm. destruct (Hn m Hm) as [g' ->]. by eexists.
Qed.

(** [handle_tick_movement], with the purity of [check_collision] used. *)
Lemma handle_tick_movement_unfold (fuel : nat) (g : Game) :
  handle_tick_movement fuel g =
  let g1 := set_currentPiece g (tick_translate (currentPiece g)) in
  if fst (check_collision currentPiece g1) =? 0 then Some g1
  else option_map spawn_piece
         (check_lines fuel
            (lock_piece (set_currentPiece g1 (tick_undo (currentPiece g1))))).
Proof.
  unfold handle_tick_movement. cbv zeta.
  set (g1 := set_currentPiece g (tick_translate (currentPiece g))).
  pose proof (check_collision_state currentPiece g1) as Hstate.
  destruct (check_collision currentPiece g1) as [c g2].
  cbn [fst snd] in *. subst g2.
  destruct (c =? 0); cbn [negb]; unfold option_map; reflexivity.
Qed.

(** Outside 1 .. 4 the [switch] of [check_lines] has no case. *)
Lemma update_score_no_case (n sc sp : Z) :
  ~ (1 <= n <= 4) -> update_score n sc sp = (sc, sp).
Proof.
  intros Hn. unfold update_score.
  destruct (Z.eqb_spec n 1); [lia |]. destruct (Z.eqb_spec n 2); [lia |].
  destruct (Z.eqb_spec n 3); [lia |]. destruct (Z.eqb_spec n 4); [lia |].
  reflexivity.
Qed.

(** The new score in the four cases of the [switch]. *)
Lemma update_score_score (n sc sp : Z) :
  0 <= sc <= INT_MAX - 800 ->
  (n = 1 -> fst (update_score n sc sp) = sc + 100) /\
  (n = 2 -> fst (update_score n sc sp) = sc + 300) /\
  (n = 3 -> fst (update_score n sc sp) = sc + 500) /\
  (n = 4 -> fst (update_score n sc sp) = sc + 800).
Proof.
  intros Hsc.
  assert (Hadd : forall k, 0 <= k <= 800 -> int_add sc k = sc + k).
  { intros k Hk. apply wrap_int_id. unfold is_int, INT_MIN, INT_MAX in *. lia. }
  repeat split; intros ->; unfold update_score; cbn [Z.eqb Pos.eqb fst];
    apply Hadd;
    unfold SCORE_SINGLE, SCORE_DOUBLE, SCORE_TRIPLE, SCORE_TETRIS; lia.
Qed.

(** At or below the threshold the [switch] leaves the speed alone. *)
Lemma update_score_speed_guard (n sc sp : Z) :
  sp <= 1000 -> snd (update_score n sc sp) = sp.
Proof.
  intros Hsp. unfold update_score.
  destruct (Z.gtb_spec sp 1000); [lia |].
  by destruct (n =? 1), (n =? 2), (n =? 3), (n =? 4).
Qed.

(** * Lemmas for the further properties *)

(** ** Boards as grids of cells *)

Lemma cell_lookup (b : Board) (y x : Z) (row : list Z) (v : Z) :
  0 <= y -> 0 <= x ->
  b !! Z.to_nat y = Some row -> row !! Z.to_nat x = Some v -> cell b y x = v.
Proof.
  intros Hy Hx Hrow Hv. unfold cell.
  destruct (Z.ltb_spec y 0), (Z.ltb_spec x 0); try lia. simpl.
  by rewrite Hrow, Hv.
Qed.

(** Two well-formed boards with the same cells are the same board. *)
Lemma board_ext (b1 b2 : Board) :
  wf_board b1 -> wf_board b2 ->
  (forall y x, 0 <= y < BOARD_HEIGHT -> 0 <= x < BOARD_WIDTH ->
     cell b1 y x = cell b2 y x) ->
  b1 = b2.
Proof.
  intros [Hlen1 Hrows1] [Hlen2 Hrows2] Hcells.
  rewrite Forall_lookup in Hrows1, Hrows2.
  apply list_eq_same_length with (Z.to_nat BOARD_HEIGHT); [done | done |].
  intros i r1 r2 Hi Hr1 Hr2.
  pose proof (Hrows1 _ _ Hr1) as Hl1. pose proof (Hrows2 _ _ Hr2) as Hl2.
  apply list_eq_same_length with (Z.to_nat BOARD_WIDTH); [done | done |].
  intros j v1 v2 Hj Hv1 Hv2.
  assert (H1 : cell b1 (Z.of_nat i) (Z.of_nat j) = v1).
  { apply cell_lookup with r1; rewrite ?Nat2Z.id; first [done | lia]. }
  assert (H2 : cell b2 (Z.of_nat i) (Z.of_nat j) = v2).
  { apply cell_lookup with r2; rewrite ?Nat2Z.id; first [done | lia]. }
  rewrite <- H1, <- H2. apply Hcells; lia.
Qed.

Lemma cell_init_board (y x : Z) : cell init_board y x = BLACK.
Proof.
  unfold cell, init_board.
  destruct ((y <? 0) || (x <? 0)); [done |].
  destruct (replicate _ _ !! Z.to_nat y) as [row |] eqn:Hrow; [| done].
  apply lookup_replicate in Hrow as [-> _].
  destruct (replicate _ _ !! Z.to_nat x) as [v |] eqn:Hv; [| done].
  by apply lookup_replicate in Hv as [-> _].
Qed.

Lemma wf_board_for_each_set (idx : list Z) (f : Z -> Z * Z * Z) (b : Board) :
  wf_board b ->
  wf_board (for_each idx (fun i bd =>
              let '(y, x, v) := f i in set_cell bd y x v) b).
Proof.
  unfold for_each. revert b. induction idx as [| i idx IH]; intros b Hwf; [done |].
  simpl. apply IH. destruct (f i) as [[y x] v]. by apply wf_board_set_cell.
Qed.

Lemma wf_board_clear_row (b : Board) (y : Z) : wf_board b -> wf_board (clear_row b y).
Proof. apply (wf_board_for_each_set _ (fun x => (y, x, BLACK))). Qed.

Lemma wf_board_clear_col (b : Board) (x : Z) : wf_board b -> wf_board (clear_col b x).
Proof. apply (wf_board_for_each_set _ (fun y => (y, x, BLACK))). Qed.

(** A loop whose body keeps a property keeps it. *)
Lemma for_each_invariant {S : Type} (P : S -> Prop) (idx : list Z)
    (body : Z -> S -> S) (s : S) :
  (forall i st, i ∈ idx -> P st -> P (body i st)) -> P s -> P (for_each idx body s).
Proof.
  unfold for_each. revert s. induction idx as [| i idx IH]; intros s Hbody Hs; [done |].
  simpl. apply IH.
  - intros j st Hj. apply Hbody. by right.
  - apply Hbody; [by left | done].
Qed.

Lemma cell_set_cell_cases (b : Board) (y x v y' x' : Z) :
  cell (set_cell b y x v) y' x' = v \/
  cell (set_cell b y x v) y' x' = cell b y' x'.
Proof.
  destruct (decide ((y', x') = (y, x))) as [[= -> ->] | Hne].
  - destruct (in_board b y x) eqn:E.
    + left. by apply cell_set_cell_eq.
    + right. by rewrite set_cell_not_in_board.
  - right. by apply cell_set_cell_ne.
Qed.

Lemma colours_ok_set_cell (b : Board) (y x v : Z) :
  colours_ok b -> 0 <= v <= 7 -> colours_ok (set_cell b y x v).
Proof.
  intros Hok Hv y' x'.
  destruct (cell_set_cell_cases b y x v y' x') as [-> | ->]; [done | apply Hok].
Qed.

Lemma colours_ok_init : colours_ok init_board.
Proof. intros y x. rewrite cell_init_board. unfold BLACK. lia. Qed.

(** ** Board initialisation *)

Lemma cell_init_board_cells (b : Board) (y x : Z) :
  0 <= y < BOARD_HEIGHT -> 0 <= x < BOARD_WIDTH ->
  cell (init_board_cells b) y x = BLACK.
Proof.
  intros Hy Hx. unfold init_board_cells.
  assert (Hgen : forall ys bd,
            cell (for_each ys (fun y0 =>
                    for_each (range 0 BOARD_WIDTH)
                      (fun x0 bd0 => set_cell bd0 y0 x0 BLACK)) bd) y x =
            if bool_decide (y ∈ ys) then BLACK else cell bd y x).
  { intros ys. unfold for_each at 1.
    induction ys as [| a ys IH]; intros bd; cbn [fold_left].
    - by rewrite bool_decide_eq_false_2 by apply not_elem_of_nil.
    - rewrite IH. destruct (decide (y ∈ ys)) as [Hin | Hnin].
      + rewrite !bool_decide_eq_true_2; [done | by right | done].
      + rewrite (bool_decide_eq_false_2 _ Hnin).
        fold (clear_row bd a). rewrite cell_clear_row by done.
        destruct (Z.eqb_spec y a) as [-> | Hne].
        * by rewrite bool_decide_eq_true_2 by (by left).
        * rewrite bool_decide_eq_false_2; [done |].
          intros [-> | Hin]%elem_of_cons; done. }
  rewrite Hgen. by rewrite bool_decide_eq_true_2 by (by apply elem_of_range).
Qed.

Lemma wf_board_init_board_cells (b : Board) :
  wf_board b -> wf_board (init_board_cells b).
Proof.
  intros Hwf. unfold init_board_cells.
  apply (for_each_invariant wf_board); [| done].
  intros y bd _ Hbd. by apply (wf_board_clear_row bd y).
Qed.

(** ** What a sweep of the gravity resolver keeps *)

Lemma elem_of_sweep_moves (r c : Z) (m : Move) :
  m ∈ sweep_moves r c ->
  exists y x,
    (r <> -1 /\ r < centerY /\ 1 <= y < centerY /\ 0 <= x < BOARD_WIDTH /\
     m = (y, x, y - 1, x)) \/
    (r <> -1 /\ centerY <= r /\ centerY <= y < BOARD_HEIGHT - 1 /\
     0 <= x < BOARD_WIDTH /\ m = (y, x, y + 1, x)) \/
    (c <> -1 /\ centerX <= c /\ 0 <= y < BOARD_HEIGHT /\
     centerX <= x < BOARD_WIDTH - 1 /\ m = (y, x, y, x + 1)) \/
    (c <> -1 /\ c < centerX /\ 0 <= y < BOARD_HEIGHT /\ 1 <= x < centerX /\
     m = (y, x, y, x - 1)).
Proof.
  unfold sweep_moves. assert (Hc : centerY = 10) by done.
  intros [Hrow | Hcol]%elem_of_app.
  - destruct (Z.eqb_spec r (-1)) as [? | Hr]; simpl in Hrow;
      [by apply elem_of_nil in Hrow |].
    destruct (Z.ltb_spec r centerY).
    + apply elem_of_moves_up in Hrow as (y & x & Hy & Hx & ->).
      exists y, x. left. tauto.
    + apply elem_of_moves_down in Hrow as (y & x & Hy & Hx & ->).
      exists y, x. right. left. tauto.
  - destruct (Z.eqb_spec c (-1)) as [? | Hr]; simpl in Hcol;
      [by apply elem_of_nil in Hcol |].
    destruct (Z.geb_spec c centerX).
    + assert (exists y x, 0 <= y < BOARD_HEIGHT /\
                centerX <= x < BOARD_WIDTH - 1 /\ m = (y, x, y, x + 1))
        as (y & x & Hy & Hx & ->).
      { apply elem_of_app in Hcol as [H' | H'];
          apply elem_of_moves_right in H' as (y & x & Hy & Hx & ->);
          exists y, x; unfold BOARD_HEIGHT in *; repeat split; lia. }
      exists y, x. right. right. left. repeat split; try lia; done.
    + assert (exists y x, 0 <= y < BOARD_HEIGHT /\
                1 <= x < centerX /\ m = (y, x, y, x - 1))
        as (y & x & Hy & Hx & ->).
      { apply elem_of_app in Hcol as [H' | H'];
          apply elem_of_moves_left in H' as (y & x & Hy & Hx & ->);
          exists y, x; unfold BOARD_HEIGHT in *; repeat split; lia. }
      exists y, x. right. right. right. repeat split; try lia; done.
Qed.

Lemma run_moves_invariant (P : Board -> Prop) (ms : list Move) (st : Board * Z) :
  (forall m b ch, m ∈ ms -> P b -> P (fst (run_move (b, ch) m))) ->
  P (fst st) -> P (fst (run_moves ms st)).
Proof.
  revert st. induction ms as [| m ms IH]; intros st Hstep Hst; [done |].
  change (run_moves (m :: ms) st) with (run_moves ms (run_move st m)).
  apply IH.
  - intros m' b ch Hm'. apply Hstep. by right.
  - destruct st as [b ch]. apply Hstep; [by left | done].
Qed.

(** A property of boards that every move of the selected rules keeps is
    kept by the whole call of [apply_gravity]. *)
Lemma apply_gravity_invariant (P : Board -> Prop) (r c : Z) :
  (forall m b ch, m ∈ sweep_moves r c -> P b -> P (fst (run_move (b, ch) m))) ->
  forall n b b', P b -> apply_gravity n r c b = Some b' -> P b'.
Proof.
  intros Hstep. induction n as [| n IH]; intros b b' Hb; [done |]. simpl.
  destruct (gravity_sweep r c b) as [b1 ch] eqn:Hsweep.
  assert (Hb1 : P b1).
  { rewrite gravity_sweep_moves in Hsweep.
    pose proof (run_moves_invariant P (sweep_moves r c) (b, 0) Hstep Hb) as H.
    by rewrite Hsweep in H. }
  destruct (ch >? 0); [by apply IH | by intros [= <-]].
Qed.

Lemma run_move_wf (m : Move) (b : Board) (ch : Z) :
  wf_board b -> wf_board (fst (run_move (b, ch) m)).
Proof.
  intros Hwf. destruct m as [[[y x] y'] x']. simpl.
  destruct (_ && _); simpl; [| done]. by do 2 apply wf_board_set_cell.
Qed.

Lemma run_move_colours (m : Move) (b : Board) (ch : Z) :
  colours_ok b -> colours_ok (fst (run_move (b, ch) m)).
Proof.
  intros Hok. destruct m as [[[y x] y'] x']. simpl.
  destruct (_ && _); simpl; [| done].
  apply colours_ok_set_cell; [| unfold BLACK; lia].
  apply colours_ok_set_cell; [done | apply Hok].
Qed.

(** The sum of any function of the cell values over the board. *)
Lemma sum_cells_set_cell (f : Z -> Z) (b : Board) (y x v : Z) :
  wf_board b -> (y, x) ∈ board_coords ->
  sum_over (fun p => f (cell (set_cell b y x v) (fst p) (snd p))) board_coords =
  sum_over (fun p => f (cell b (fst p) (snd p))) board_coords
  - f (cell b y x) + f v.
Proof.
  intros Hwf Hin.
  rewrite (sum_over_update (fun p => f (cell b (fst p) (snd p))) _ _ (y, x));
    [| apply NoDup_board_coords | done |].
  - cbn [fst snd]. rewrite cell_set_cell_eq; [done |].
    apply elem_of_board_coords in Hin as [Hy Hx]. by apply wf_board_in_board.
  - intros [y' x'] _ Hne. cbn [fst snd]. by rewrite cell_set_cell_ne.
Qed.

Lemma run_move_sum_cells (f : Z -> Z) (r c : Z) (m : Move) (b : Board) (ch : Z) :
  falls r c m -> wf_board b ->
  sum_over (fun p => f (cell (fst (run_move (b, ch) m)) (fst p) (snd p)))
    board_coords =
  sum_over (fun p => f (cell b (fst p) (snd p))) board_coords.
Proof.
  destruct m as [[[y x] y'] x']. intros (Hsrc & Hdst & Hdist) Hwf.
  unfold run_move, fall_step.
  destruct (Z.eqb_spec (cell b y x) BLACK) as [E1 | E1];
    cbn [negb andb fst]; [done |].
  destruct (Z.eqb_spec (cell b y' x') BLACK) as [E2 | E2];
    cbn [negb andb fst]; [| done].
  assert (Hne : (y, x) <> (y', x')).
  { intros E. rewrite E in Hdist. lia. }
  rewrite sum_cells_set_cell; [| by apply wf_board_set_cell | done].
  rewrite sum_cells_set_cell by done.
  rewrite cell_set_cell_ne by done. rewrite E2. lia.
Qed.

Lemma run_move_frame (r c : Z) (m : Move) (b : Board) (ch : Z) (y x : Z) :
  m ∈ sweep_moves r c -> outside_sweep r c y x ->
  cell (fst (run_move (b, ch) m)) y x = cell b y x.
Proof.
  intros Hm [Hrow Hcol].
  assert (Hc : centerY = 10 /\ centerX = 10) by done.
  apply elem_of_sweep_moves in Hm
    as (y1 & x1 & [H | [H | [H | H]]]);
    destruct H as (H1 & H2 & H3 & H4 & ->); simpl;
    (destruct (_ && _); simpl; [| done]);
    rewrite !cell_set_cell_ne; try done; intros [= -> ->]; lia.
Qed.

(** ** More on the line-clear pass *)

Lemma has_full_col_true (b : Board) :
  has_full_col b = true <->
  exists x, 0 <= x < BOARD_WIDTH /\ col_complete b x = true.
Proof.
  unfold has_full_col. rewrite existsb_exists. split.
  - intros (x & Hx & Hc). rewrite <- list_elem_of_In, elem_of_range in Hx. eauto.
  - intros (x & Hx & Hc). exists x. by rewrite <- list_elem_of_In, elem_of_range.
Qed.

Lemma has_full_col_false (b : Board) :
  has_full_col b = false <->
  forall x, 0 <= x < BOARD_WIDTH -> col_complete b x = false.
Proof.
  rewrite <- not_true_iff_false, has_full_col_true. split.
  - intros H x Hx. apply not_true_iff_false. intros Hc. apply H. eauto.
  - intros H (x & Hx & Hc). rewrite (H x Hx) in Hc. done.
Qed.

(** A loop of the scan that meets no complete line changes nothing. *)
Lemma scan_rows_none (ys : list Z) (s : Scan) :
  (forall y, y ∈ ys -> row_complete (sc_board s) y = false) ->
  for_each ys scan_row s = s.
Proof.
  unfold for_each. induction ys as [| y ys IH]; intros Hnone; [done |].
  cbn [fold_left]. unfold scan_row at 2. rewrite Hnone by left.
  apply IH. intros y' Hy'. apply Hnone. by right.
Qed.

Lemma scan_cols_none (xs : list Z) (s : Scan) :
  (forall x, x ∈ xs -> col_complete (sc_board s) x = false) ->
  for_each xs scan_col s = s.
Proof.
  unfold for_each. induction xs as [| x xs IH]; intros Hnone; [done |].
  cbn [fold_left]. unfold scan_col at 2. rewrite Hnone by left.
  apply IH. intros x' Hx'. apply Hnone. by right.
Qed.

Lemma scan_lines_none (b : Board) :
  has_full_row b = false -> has_full_col b = false ->
  scan_lines b = scan_start b.
Proof.
  intros Hrow Hcol. unfold scan_lines, scan_rows, scan_cols.
  rewrite (scan_rows_none _ (scan_start b)).
  - apply scan_cols_none. intros x Hx%elem_of_range.
    by apply has_full_col_false.
  - intros y Hy%elem_of_range. by apply has_full_row_false.
Qed.

Lemma range_snoc (k : Z) : 0 <= k -> range 0 (Z.succ k) = range 0 k ++ [k].
Proof.
  intros Hk. unfold range.
  replace (Z.succ k - 0) with (k + 1) by lia. rewrite Z.sub_0_r.
  rewrite seqZ_app by lia. f_equal.
Qed.

(** The last element kept by a filter over [0 .. k-1] is the greatest
    index that passes the test. *)
Lemma last_filter_range (f : Z -> bool) (d k : Z) :
  0 <= k ->
  (List.last (List.filter f (range 0 k)) d = d /\
   List.filter f (range 0 k) = [] /\
   forall y, 0 <= y < k -> f y = false) \/
  (0 <= List.last (List.filter f (range 0 k)) d < k /\
   f (List.last (List.filter f (range 0 k)) d) = true /\
   forall y, 0 <= y < k -> f y = true ->
             y <= List.last (List.filter f (range 0 k)) d).
Proof.
  intros Hk. pattern k. apply natlike_ind; [| | done]; clear k Hk.
  - left. repeat split. intros y Hy. lia.
  - intros k Hk IH. rewrite range_snoc by done. rewrite List.filter_app.
    cbn [List.filter]. destruct (f k) eqn:Hfk.
    + right. rewrite last_last. repeat split; [lia | lia | done |].
      intros y Hy _. lia.
    + rewrite app_nil_r. destruct IH as [(Hlast & Hnil & Hnone) | (Hr & Hf & Hmax)].
      * left. repeat split; [done | done |]. intros y Hy.
        destruct (decide (y = k)) as [-> | Hne]; [done |]. apply Hnone. lia.
      * right. repeat split; [lia | lia | done |]. intros y Hy Hfy.
        destruct (decide (y = k)) as [-> | Hne]; [congruence |].
        apply Hmax; [lia | done].
Qed.

Lemma length_filter_range (f : Z -> bool) (k : Z) :
  0 <= k -> Z.of_nat (length (List.filter f (range 0 k))) <= k.
Proof.
  intros Hk. pose proof (List.filter_length_le f (range 0 k)) as H.
  unfold range in H at 2. rewrite length_seqZ in H. lia.
Qed.

(** The locals after the two loops, in terms of the original board. *)
Lemma scan_lines_locals (b : Board) :
  linesCleared (scan_lines b) =
    Z.of_nat (length (List.filter (row_complete b) (range 0 BOARD_HEIGHT))) +
    Z.of_nat (length (List.filter (col_flag b) (range 0 BOARD_WIDTH))) /\
  lastClearedRow (scan_lines b) =
    List.last (List.filter (row_complete b) (range 0 BOARD_HEIGHT)) (-1) /\
  lastClearedCol (scan_lines b) =
    List.last (List.filter (col_flag b) (range 0 BOARD_WIDTH)) (-1).
Proof.
  unfold scan_lines.
  destruct (scan_cols_spec (range 0 BOARD_WIDTH) (scan_rows (scan_start b))
              (NoDup_range _ _)) as (_ & Hcount & Hcol & Hrow').
  destruct (scan_rows_spec (range 0 BOARD_HEIGHT) (scan_start b)
              (NoDup_range _ _)) as (_ & Hrows & Hrow & Hcol').
  unfold scan_cols. rewrite Hcount, Hcol, Hrow'.
  unfold scan_rows at 1 3 5. rewrite Hrows, Hrow, Hcol'.
  change (linesCleared (scan_start b)) with 0.
  change (lastClearedRow (scan_start b)) with (-1).
  change (lastClearedCol (scan_start b)) with (-1).
  change (sc_board (scan_start b)) with b.
  rewrite Z.add_0_l.
  assert (Hf : List.filter (col_complete (sc_board (scan_rows (scan_start b))))
                 (range 0 BOARD_WIDTH) =
               List.filter (col_flag b) (range 0 BOARD_WIDTH)).
  { apply filter_ext. intros x. symmetry. apply col_flag_after_rows. }
  rewrite Hf. done.
Qed.

Lemma filter_none {A : Type} (f : A -> bool) (l : list A) :
  (forall a, a ∈ l -> f a = false) -> List.filter f l = [].
Proof.
  induction l as [| a l IH]; intros H; [done |]. cbn [List.filter].
  rewrite H by left. apply IH. intros a' Ha'. apply H. by right.
Qed.

(** Once a row is complete, the column loop finds nothing. *)
Lemma col_flags_none (b : Board) :
  has_full_row b = true -> List.filter (col_flag b) (range 0 BOARD_WIDTH) = [].
Proof.
  intros Hrow. apply filter_none. intros x Hx%elem_of_range.
  rewrite col_flag_spec by done. rewrite Hrow. apply andb_false_r.
Qed.

Lemma row_flags_none (b : Board) :
  has_full_row b = false ->
  List.filter (row_complete b) (range 0 BOARD_HEIGHT) = [].
Proof.
  intros Hrow. apply filter_none. intros y Hy%elem_of_range.
  by apply has_full_row_false.
Qed.

(** The cells after the clearing phase are blank or as before. *)
Lemma cell_scan_lines_cases (b : Board) (y x : Z) :
  0 <= y < BOARD_HEIGHT -> 0 <= x < BOARD_WIDTH ->
  (cell (sc_board (scan_lines b)) y x = BLACK /\
   (row_complete b y = true \/ col_flag b x = true)) \/
  (cell (sc_board (scan_lines b)) y x = cell b y x /\
   row_complete b y = false /\ col_flag b x = false).
Proof.
  intros Hy Hx. rewrite cell_scan_lines by done. rewrite row_flag_spec.
  destruct (row_complete b y), (col_flag b x); simpl; auto.
Qed.

(** The score and speed arithmetic of the [switch], away from overflow. *)
Lemma update_score_exact (n sc sp : Z) :
  1 <= n <= 4 -> 0 <= sc <= 1000000 -> is_int sp ->
  let pts := if n =? 1 then 100 else if n =? 2 then 300
             else if n =? 3 then 500 else 800 in
  update_score n sc sp =
  (sc + pts, if sp >? 1000 then sp - (sc + pts) * 400 * n else sp).
Proof.
  intros Hn Hsc Hsp pts. unfold is_int, INT_MIN, INT_MAX in Hsp.
  assert (Hw : forall z, - 2 ^ 31 <= z <= 2 ^ 31 - 1 -> wrap_int z = z).
  { intros z Hz. by apply wrap_int_id. }
  assert (Hadd : forall k, 0 <= k <= 800 -> int_add sc k = sc + k).
  { intros k Hk. apply Hw. lia. }
  assert (Hmul : forall s, 0 <= s <= 1000800 -> int_mul s 400 = s * 400).
  { intros s' Hs. apply Hw. lia. }
  assert (Hmul2 : forall s k, 0 <= s <= 1000800 -> 1 <= k <= 4 ->
            int_mul (s * 400) k = s * 400 * k).
  { intros s' k Hs Hk. apply Hw. nia. }
  assert (Hsub : forall z, 0 <= z <= 1000800 * 1600 -> 1000 < sp ->
            int_sub sp z = sp - z).
  { intros z Hz Hgt. apply Hw. lia. }
  assert (n = 1 \/ n = 2 \/ n = 3 \/ n = 4) as [-> | [-> | [-> | ->]]] by lia;
    unfold update_score, pts,
      SCORE_SINGLE, SCORE_DOUBLE, SCORE_TRIPLE, SCORE_TETRIS;
    cbn [Z.eqb Pos.eqb]; rewrite Hadd by lia;
    (destruct (Z.gtb_spec sp 1000); [| reflexivity]);
    rewrite Hmul by lia; rewrite ?Hmul2 by lia;
    rewrite Hsub by lia; f_equal; lia.
Qed.

(** ** Random source and spawn *)

Lemma my_rand_bounds (st : Z) :
  0 <= fst (my_rand st) <= 32767 /\ 0 <= snd (my_rand st) < 2 ^ 32.
Proof.
  unfold my_rand, wrap_uint. cbn [fst snd]. split.
  - change 0x7fff with (Z.ones 15). rewrite Z.land_ones by lia.
    change (Z.ones 15) with 32767.
    pose proof (Z.mod_pos_bound (Z.shiftr ((st * 1103515245 + 12345) mod 2 ^ 32) 16)
                  (2 ^ 15) ltac:(lia)).
    lia.
  - apply Z.mod_pos_bound. lia.
Qed.

(** The answer of [check_collision] depends on the board and on the
    position, kind and rotation of the piece only. *)
Lemma check_collision_ext (g1 g2 : Game) :
  board g1 = board g2 ->
  Piece.x (currentPiece g1) = Piece.x (currentPiece g2) ->
  Piece.y (currentPiece g1) = Piece.y (currentPiece g2) ->
  Piece.type (currentPiece g1) = Piece.type (currentPiece g2) ->
  Piece.rotation (currentPiece g1) = Piece.rotation (currentPiece g2) ->
  fst (check_collision currentPiece g1) = fst (check_collision currentPiece g2).
Proof.
  intros Hb Hx Hy Ht Hr. unfold check_collision, mbind, M_bind, gets.
  rewrite Ht, Hr.
  generalize (shape_of (Piece.type (currentPiece g2))
                (Piece.rotation (currentPiece g2))) as shape.
  intros shape. induction shape_cells as [| [y x] rest IH]; [done |].
  cbn [collision_scan]. destruct (shape_bit shape y x); [| done].
  unfold mbind, M_bind, mret, M_ret, gets. cbv beta iota zeta.
  rewrite Hx, Hy.
  destruct (_ || _); [done |]. cbv beta iota zeta. rewrite Hb.
  by destruct (negb _).
Qed.

(** The spawn position on the empty board is free for every shape. *)
Lemma check_collision_centre_empty (g : Game) :
  board g = init_board ->
  Piece.x (currentPiece g) = 8 -> Piece.y (currentPiece g) = 8 ->
  fst (check_collision currentPiece g) = 0.
Proof.
  intros Hb Hx Hy.
  destruct (check_collision_cases currentPiece g) as [[-> _] | [_ H]]; [| | done |].
  - rewrite Hx. unfold is_int, INT_MIN, INT_MAX. lia.
  - rewrite Hy. unfold is_int, INT_MIN, INT_MAX. lia.
  - exfalso. destruct H as (y & x & Hy4 & Hx4 & _ & [Hout | Hocc]).
    + apply Hout. rewrite Hx, Hy. unfold BOARD_WIDTH, BOARD_HEIGHT. lia.
    + apply Hocc. rewrite Hb. apply cell_init_board.
Qed.

(** The fields of the state after [spawn_piece]. *)
Lemma spawn_piece_fields (g : Game) :
  let g' := spawn_piece g in
  board g' = board g /\ score g' = score g /\ speed g' = speed g /\
  randState g' = snd (my_rand (snd (my_rand (randState g)))) /\
  currentPiece g' =
    {| Piece.x := 8; Piece.y := 8;
       Piece.type := Z.rem (fst (my_rand (randState g))) 7;
       Piece.rotation := 0;
       Piece.direction :=
         Z.rem (fst (my_rand (snd (my_rand (randState g))))) 4 |} /\
  gameOver g' =
    if fst (check_collision currentPiece g') =? 0 then gameOver g else 1.
Proof.
  unfold spawn_piece.
  destruct (my_rand (randState g)) as [r1 st1] eqn:E1. cbn [fst snd].
  destruct (my_rand st1) as [r2 st2] eqn:E2. cbn [fst snd].
  set (g1 := {| board := board g; currentPiece := _; gameOver := gameOver g;
                score := score g; speed := speed g; randState := st2 |}).
  pose proof (check_collision_state currentPiece g1) as Hstate.
  destruct (check_collision currentPiece g1) as [c g2] eqn:Hc.
  cbn [snd] in Hstate. subst g2.
  assert (Hfst : fst (check_collision currentPiece g1) = c) by by rewrite Hc.
  destruct (Z.eqb_spec c 0) as [-> | Hne]; cbn [negb].
  - repeat split; try done. by rewrite Hfst.
  - cbv zeta. repeat split; try done. cbn [gameOver].
    match goal with |- 1 = (if fst (check_collision currentPiece ?g') =? 0
                            then _ else _) =>
      rewrite (check_collision_ext g' g1) by done end.
    rewrite Hfst. by destruct (Z.eqb_spec c 0).
Qed.

Lemma rem_small_range (r k : Z) : 0 <= r -> 0 < k -> 0 <= Z.rem r k < k.
Proof. intros Hr Hk. rewrite Z.rem_mod_nonneg by lia. apply Z.mod_pos_bound. lia. Qed.

Lemma spawn_piece_wf (g : Game) :
  wf_piece (currentPiece (spawn_piece g)) /\
  0 <= Piece.direction (currentPiece (spawn_piece g)) <= 3.
Proof.
  destruct (spawn_piece_fields g) as (_ & _ & _ & _ & -> & _).
  pose proof (my_rand_bounds (randState g)) as [H1 _].
  pose proof (my_rand_bounds (snd (my_rand (randState g)))) as [H2 _].
  pose proof (rem_small_range _ 7 (proj1 H1) ltac:(lia)).
  pose proof (rem_small_range _ 4 (proj1 H2) ltac:(lia)).
  unfold wf_piece, is_int, INT_MIN, INT_MAX. cbn [Piece.x Piece.y Piece.type
    Piece.rotation Piece.direction]. lia.
Qed.

(** ** The invariant of a session *)

Lemma board_ok_set_cell (b : Board) (y x v : Z) :
  board_ok b -> 0 <= v <= 7 -> board_ok (set_cell b y x v).
Proof.
  intros [Hwf Hok] Hv. split;
    [by apply wf_board_set_cell | by apply colours_ok_set_cell].
Qed.

Lemma board_ok_lock_cells (p : Piece) (b : Board) :
  0 <= Piece.type p < 7 -> board_ok b -> board_ok (lock_cells p b).
Proof.
  intros Ht. unfold lock_cells.
  generalize (shape_of (Piece.type p) (Piece.rotation p)) as shape. intros shape.
  revert b. induction shape_cells as [| [y x] rest IH]; intros b Hb; [done |].
  cbn [fold_left]. apply IH. destruct (shape_bit shape y x); [| done].
  apply board_ok_set_cell; [done |].
  unfold int_add. rewrite wrap_int_id; unfold is_int, INT_MIN, INT_MAX; lia.
Qed.

Lemma board_ok_clear_row (b : Board) (y : Z) : board_ok b -> board_ok (clear_row b y).
Proof.
  intros Hb. unfold clear_row. apply (for_each_invariant board_ok); [| done].
  intros x bd _ Hbd. apply board_ok_set_cell; [done | unfold BLACK; lia].
Qed.

Lemma board_ok_clear_col (b : Board) (x : Z) : board_ok b -> board_ok (clear_col b x).
Proof.
  intros Hb. unfold clear_col. apply (for_each_invariant board_ok); [| done].
  intros y bd _ Hbd. apply board_ok_set_cell; [done | unfold BLACK; lia].
Qed.

Lemma board_ok_scan_lines (b : Board) : board_ok b -> board_ok (sc_board (scan_lines b)).
Proof.
  intros Hb. unfold scan_lines, scan_cols, scan_rows.
  apply (for_each_invariant (fun s => board_ok (sc_board s))).
  - intros x s _ Hs. unfold scan_col. destruct (col_complete _ _); [| done].
    by apply board_ok_clear_col.
  - apply (for_each_invariant (fun s => board_ok (sc_board s))); [| done].
    intros y s _ Hs. unfold scan_row. destruct (row_complete _ _); [| done].
    by apply board_ok_clear_row.
Qed.

Lemma board_ok_apply_gravity (n : nat) (r c : Z) (b b' : Board) :
  board_ok b -> apply_gravity n r c b = Some b' -> board_ok b'.
Proof.
  apply (apply_gravity_invariant board_ok).
  intros m bd ch _ [Hwf Hok]. split;
    [by apply run_move_wf | by apply run_move_colours].
Qed.

Lemma board_ok_check_lines (fuel : nat) (g g' : Game) :
  board_ok (board g) -> check_lines fuel g = Some g' -> board_ok (board g').
Proof.
  intros Hb. unfold check_lines.
  pose proof (board_ok_scan_lines _ Hb) as Hs. revert Hs.
  generalize (scan_lines (board g)) as s. intros s Hs.
  destruct (negb _ || negb _).
  - destruct (apply_gravity _ _ _ _) as [b' |] eqn:Hrun; [| done].
    destruct (update_score _ _ _). intros [= <-]. cbn [board].
    by eapply board_ok_apply_gravity.
  - destruct (update_score _ _ _). intros [= <-]. exact Hs.
Qed.

Lemma engine_inv_spawn_piece (g : Game) :
  board_ok (board g) -> engine_inv (spawn_piece g).
Proof.
  intros [Hwf Hok].
  destruct (spawn_piece_fields g) as (Hb & _ & _ & _ & _ & Hover).
  destruct (spawn_piece_wf g) as [Hp Hd].
  unfold engine_inv. rewrite Hb.
  split; [done |]. split; [done |]. split; [exact Hp |]. split; [exact Hd |].
  intros H0. rewrite H0 in Hover.
  by destruct (Z.eqb_spec (fst (check_collision currentPiece (spawn_piece g))) 0).
Qed.

Lemma engine_inv_rotate_piece (g : Game) : engine_inv g -> engine_inv (rotate_piece g).
Proof.
  intros Hinv. pose proof Hinv as (Hwf & Hok & Hp & Hd & Hfree).
  pose proof Hp as (Ht & Hr & Hx & Hy).
  rewrite rotate_piece_step by done. cbv zeta.
  destruct (Z.eqb_spec (fst (check_collision currentPiece
              (set_currentPiece g (Piece.with_rotation (currentPiece g)
                 ((Piece.rotation (currentPiece g) + 1) mod 4))))) 0)
    as [E | _]; [| done].
  unfold engine_inv. cbn [board currentPiece set_currentPiece gameOver].
  split; [done |]. split; [done |]. split; [| split; [done |]].
  - split; [done |]. split; [| done].
    cbn [Piece.rotation Piece.with_rotation]. apply Z.mod_pos_bound. lia.
  - intros _. exact E.
Qed.

Lemma engine_inv_set_direction (g : Game) (d : Z) :
  0 <= d <= 3 -> engine_inv g -> engine_inv (set_direction g d).
Proof.
  intros Hd (Hwf & Hok & Hp & _ & Hfree).
  unfold engine_inv, set_direction.
  cbn [board currentPiece set_currentPiece gameOver].
  split; [done |]. split; [done |]. split; [exact Hp |]. split; [done |].
  intros H0. rewrite <- (Hfree H0). by apply check_collision_ext.
Qed.

Lemma engine_inv_turn_to (g : Game) (d : Z) :
  0 <= d <= 3 -> engine_inv g -> engine_inv (turn_to d g).
Proof.
  intros Hd Hinv. unfold turn_to. destruct (negb _); [| done].
  by apply engine_inv_set_direction.
Qed.

Lemma engine_inv_handle_switch_changes (sw : Z) (g : Game) (c : Controls) :
  engine_inv g -> engine_inv (fst (handle_switch_changes sw (g, c))).
Proof.
  intros Hinv. unfold handle_switch_changes. cbn [fst].
  repeat (destruct (negb _); try done);
    apply engine_inv_turn_to; try done;
    unfold DIR_RIGHT, DIR_LEFT, DIR_UP, DIR_DOWN; lia.
Qed.

Lemma engine_inv_handle_input (bt : Z) (g : Game) (c : Controls) :
  engine_inv g -> engine_inv (fst (handle_input bt (g, c))).
Proof.
  intros Hinv. unfold handle_input. cbn [fst].
  destruct (_ && _); [by apply engine_inv_rotate_piece | done].
Qed.

Lemma wf_piece_tick_translate (p : Piece) :
  wf_piece p -> wf_piece (tick_translate p).
Proof.
  intros (Ht & Hr & Hx & Hy). unfold tick_translate, wf_piece.
  repeat (destruct (_ =? _)); cbn [Piece.with_x Piece.with_y Piece.x Piece.y
    Piece.type Piece.rotation]; repeat split; try done; try lia;
    try apply Ht; try apply Hr; try apply Hx; try apply Hy;
    apply wrap_int_is_int.
Qed.

Lemma direction_tick_translate (p : Piece) :
  Piece.direction (tick_translate p) = Piece.direction p.
Proof. unfold tick_translate. by repeat (destruct (_ =? _)). Qed.

Lemma engine_inv_handle_tick_movement (fuel : nat) (g g' : Game) :
  engine_inv g -> handle_tick_movement fuel g = Some g' -> engine_inv g'.
Proof.
  intros (Hwf & Hok & Hp & Hd & Hfree). rewrite handle_tick_movement_unfold.
  cbv zeta.
  destruct (Z.eqb_spec (fst (check_collision currentPiece
              (set_currentPiece g (tick_translate (currentPiece g))))) 0)
    as [E | _].
  - intros [= <-]. unfold engine_inv.
    cbn [board currentPiece set_currentPiece gameOver].
    rewrite direction_tick_translate.
    split; [done |]. split; [done |].
    split; [by apply wf_piece_tick_translate |]. split; [done |].
    intros _. exact E.
  - cbn [currentPiece set_currentPiece].
    destruct (check_lines _ _) as [g4 |] eqn:Hrun; [| done].
    intros [= <-]. apply engine_inv_spawn_piece.
    apply (board_ok_check_lines _ _ _) with (2 := Hrun).
    unfold lock_piece. cbn [board set_board set_currentPiece].
    apply board_ok_lock_cells; [| done].
    cbn [currentPiece set_currentPiece].
    destruct (wf_piece_tick_translate _ Hp) as (Ht & Hr & Hx & Hy).
    unfold tick_undo.
    repeat (destruct (_ =? _)); cbn [Piece.with_x Piece.with_y Piece.type];
      unfold tick_translate;
      repeat (destruct (_ =? _)); cbn [Piece.with_x Piece.with_y Piece.type];
      apply Hp.
Qed.

(** ** Bits of the input registers *)

Lemma land_pow2_eqb (a k : Z) :
  0 <= k -> (Z.land a (2 ^ k) =? 0) = negb (Z.testbit a k).
Proof.
  intros Hk. destruct (Z.testbit a k) eqn:Hbit; simpl.
  - apply Z.eqb_neq. intros E.
    assert (H : Z.testbit (Z.land a (2 ^ k)) k = true).
    { rewrite Z.land_spec, Hbit, Z.pow2_bits_true by done. done. }
    rewrite E, Z.bits_0 in H. done.
  - apply Z.eqb_eq. apply Z.bits_inj'. intros n Hn.
    rewrite Z.land_spec, Z.bits_0, Z.pow2_bits_eqb by done.
    destruct (Z.eqb_spec k n) as [<- | _]; [by rewrite Hbit | apply andb_false_r].
Qed.

Lemma switch_changes_bit (sw last k : Z) :
  0 <= k < 10 ->
  (Z.land (Z.lxor (Z.land sw 0x3FF) last) (2 ^ k) =? 0) =
  negb (toggled sw last k).
Proof.
  intros Hk. rewrite land_pow2_eqb by lia. f_equal. unfold toggled.
  rewrite Z.lxor_spec, Z.land_spec. change 0x3FF with (Z.ones 10).
  rewrite Z.ones_spec_low by lia. by rewrite andb_true_r.
Qed.

Lemma land_1_testbit (a : Z) : Z.land a 0x1 = if Z.testbit a 0 then 1 else 0.
Proof.
  change 0x1 with (Z.ones 1). rewrite Z.land_ones by lia.
  change (2 ^ 1) with 2. rewrite <- Z.bit0_mod. by destruct (Z.testbit a 0).
Qed.

(** ** Input handling *)

Lemma set_direction_same (g : Game) :
  set_direction g (Piece.direction (currentPiece g)) = g.
Proof. destruct g as [b [x y t r d] go sc sp rs]. reflexivity. Qed.

Lemma turn_to_set_direction (d : Z) (g : Game) : turn_to d g = set_direction g d.
Proof.
  unfold turn_to. destruct (Z.eqb_spec (Piece.direction (currentPiece g)) d)
    as [<- | _]; [| done].
  symmetry. apply set_direction_same.
Qed.

Lemma handle_switch_changes_game (sw : Z) (g : Game) (c : Controls) :
  fst (handle_switch_changes sw (g, c)) =
  set_direction g
    (if toggled sw (lastSwitchState c) 0 then DIR_RIGHT
     else if toggled sw (lastSwitchState c) 1 then DIR_LEFT
     else if toggled sw (lastSwitchState c) 3 then DIR_UP
     else if toggled sw (lastSwitchState c) 2 then DIR_DOWN
     else Piece.direction (currentPiece g)).
Proof.
  unfold handle_switch_changes. cbn [fst]. cbv zeta.
  change SWITCH_RIGHT with (2 ^ 0). change SWITCH_LEFT with (2 ^ 1).
  change SWITCH_UP with (2 ^ 3). change SWITCH_DOWN with (2 ^ 2).
  rewrite !switch_changes_bit by lia. rewrite !negb_involutive.
  destruct (Z.eqb_spec (Z.lxor (Z.land sw 1023) (lastSwitchState c)) 0)
    as [E | _]; cbn [negb].
  - assert (Hno : forall k, 0 <= k < 10 -> toggled sw (lastSwitchState c) k = false).
    { intros k Hk. apply negb_true_iff. rewrite <- switch_changes_bit by done.
      rewrite E. by rewrite Z.land_0_l. }
    rewrite !Hno by lia. symmetry. apply set_direction_same.
  - destruct (toggled _ _ 0); [apply turn_to_set_direction |].
    destruct (toggled _ _ 1); [apply turn_to_set_direction |].
    destruct (toggled _ _ 3); [apply turn_to_set_direction |].
    destruct (toggled _ _ 2); [apply turn_to_set_direction |].
    symmetry. apply set_direction_same.
Qed.

Lemma handle_switch_changes_controls (sw : Z) (g : Game) (c : Controls) :
  snd (handle_switch_changes sw (g, c)) =
  {| timeoutcount := timeoutcount c; lastButtonState := lastButtonState c;
     lastSwitchState := Z.land sw 0x3FF |}.
Proof. reflexivity. Qed.

Lemma toggled_same (sw k : Z) : 0 <= k < 10 -> toggled sw (Z.land sw 0x3FF) k = false.
Proof.
  intros Hk. unfold toggled. rewrite Z.land_spec. change 0x3FF with (Z.ones 10).
  rewrite Z.ones_spec_low by lia. rewrite andb_true_r. apply xorb_nilpotent.
Qed.

(** ** Timer period *)

Lemma period_registers_spec (sp : Z) :
  let '(lo, hi) := period_registers sp in
  0 <= lo < 2 ^ 16 /\ 0 <= hi < 2 ^ 16 /\ hi * 2 ^ 16 + lo = sp mod 2 ^ 32.
Proof.
  unfold period_registers. change 0xFFFF with (Z.ones 16).
  rewrite !Z.land_ones by lia. rewrite Z.shiftr_div_pow2 by lia.
  split; [apply Z.mod_pos_bound; lia |].
  split; [apply Z.mod_pos_bound; lia |].
  change (2 ^ 32) with (2 ^ 16 * 2 ^ 16).
  rewrite Z.rem_mul_r by lia. lia.
Qed.

(** ** The main loop *)

Lemma apply_gravity_fuel_mono (n m : nat) (r c : Z) (b b' : Board) :
  (n <= m)%nat -> apply_gravity n r c b = Some b' ->
  apply_gravity m r c b = Some b'.
Proof.
  intros Hle Hrun.
  apply apply_gravity_trace in Hrun as (k & Hk & _ & _ & _ & Hfuel).
  apply Hfuel. lia.
Qed.

Lemma check_lines_fuel_mono (n m : nat) (g g' : Game) :
  (n <= m)%nat -> check_lines n g = Some g' -> check_lines m g = Some g'.
Proof.
  intros Hle. unfold check_lines.
  generalize (scan_lines (board g)) as s. intros s.
  destruct (negb _ || negb _); [| done].
  destruct (apply_gravity n _ _ _) as [b' |] eqn:Hrun; [| done].
  by rewrite (apply_gravity_fuel_mono n m _ _ _ b' Hle Hrun).
Qed.

Lemma handle_tick_movement_fuel_mono (n m : nat) (g g' : Game) :
  (n <= m)%nat -> handle_tick_movement n g = Some g' ->
  handle_tick_movement m g = Some g'.
Proof.
  intros Hle. rewrite !handle_tick_movement_unfold. cbv zeta.
  destruct (_ =? 0); [done |].
  destruct (check_lines n _) as [g4 |] eqn:Hrun; [| done].
  by rewrite (check_lines_fuel_mono n m _ g4 Hle Hrun).
Qed.

Lemma main_loop_body_fuel_mono (n m : nat) (i : Inputs) (st st' : Game * Controls) :
  (n <= m)%nat -> main_loop_body n i st = Some st' ->
  main_loop_body m i st = Some st'.
Proof.
  intros Hle. unfold main_loop_body.
  destruct (handle_switch_changes _ _) as [g c].
  destruct (negb _); [| done]. destruct (_ >=? 20); [| done].
  destruct (handle_tick_movement n g) as [g1 |] eqn:Hrun; [| done].
  by rewrite (handle_tick_movement_fuel_mono n m g g1 Hle Hrun).
Qed.

Lemma main_loop_fuel_mono (n m : nat) (inputs : list Inputs)
    (st st' : Game * Controls) :
  (n <= m)%nat -> main_loop n inputs st = Some st' ->
  main_loop m inputs st = Some st'.
Proof.
  intros Hle. revert st. induction inputs as [| i rest IH]; intros st; [done |].
  cbn [main_loop]. destruct (negb _); [done |].
  destruct (main_loop_body n i st) as [st1 |] eqn:Hrun; [| done].
  rewrite (main_loop_body_fuel_mono n m i st st1 Hle Hrun). apply IH.
Qed.

Lemma main_loop_body_terminates (i : Inputs) (st : Game * Controls) :
  exists n st', main_loop_body n i st = Some st'.
Proof.
  unfold main_loop_body.
  destruct (handle_switch_changes _ _) as [g c].
  destruct (negb _); [| by exists 0%nat; eexists].
  destruct (_ >=? 20); [| by exists 0%nat; eexists].
  destruct (handle_tick_movement_terminates g) as [n Hn].
  destruct (Hn n ltac:(lia)) as [g' Hg']. exists n. rewrite Hg'. by eexists.
Qed.

Lemma main_loop_terminates (inputs : list Inputs) (st : Game * Controls) :
  exists n st', main_loop n inputs st = Some st'.
Proof.
  revert st. induction inputs as [| i rest IH]; intros st;
    [by exists 0%nat; eexists |].
  cbn [main_loop]. destruct (negb _); [by exists 0%nat; eexists |].
  destruct (main_loop_body_terminates i st) as (n1 & st1 & H1).
  destruct (IH st1) as (n2 & st2 & H2).
  exists (Nat.max n1 n2), st2.
  rewrite (main_loop_body_fuel_mono n1 _ i st st1 (Nat.le_max_l _ _) H1).
  by apply (main_loop_fuel_mono n2 _ rest st1 st2 (Nat.le_max_r _ _)).
Qed.

Lemma engine_inv_main_loop_body (fuel : nat) (i : Inputs) (st st' : Game * Controls) :
  engine_inv (fst st) -> main_loop_body fuel i st = Some st' ->
  engine_inv (fst st').
Proof.
  destruct st as [g c]. intros Hinv. unfold main_loop_body.
  pose proof (engine_inv_handle_input (in_buttons i) g c Hinv) as H1.
  destruct (handle_input (in_buttons i) (g, c)) as [g1 c1].
  pose proof (engine_inv_handle_switch_changes (in_switches i) g1 c1 H1) as H2.
  destruct (handle_switch_changes (in_switches i) (g1, c1)) as [g2 c2].
  cbn [fst] in *.
  destruct (negb _); [| by intros [= <-]].
  destruct (_ >=? 20); [| by intros [= <-]].
  destruct (handle_tick_movement fuel g2) as [g3 |] eqn:Hrun; [| done].
  intros [= <-]. cbn [fst]. by eapply engine_inv_handle_tick_movement.
Qed.

Lemma engine_inv_main_loop (fuel : nat) (inputs : list Inputs)
    (st st' : Game * Controls) :
  engine_inv (fst st) -> main_loop fuel inputs st = Some st' ->
  engine_inv (fst st').
Proof.
  revert st. induction inputs as [| i rest IH]; intros st Hinv;
    [by intros [= <-] |].
  cbn [main_loop]. destruct (negb _); [by intros [= <-] |].
  destruct (main_loop_body fuel i st) as [st1 |] eqn:Hrun; [| done].
  apply IH. by eapply engine_inv_main_loop_body.
Qed.

(** [rotate_piece] touches nothing but the rotation of the piece. *)
Lemma rotate_piece_frame (g : Game) :
  exists r, rotate_piece g =
            set_currentPiece g (Piece.with_rotation (currentPiece g) r).
Proof.
  unfold rotate_piece.
  set (g1 := set_currentPiece g _).
  pose proof (check_collision_state currentPiece g1) as Hstate.
  destruct (check_collision currentPiece g1) as [c g2].
  cbn [snd] in Hstate. subst g2.
  destruct (negb _); eexists; reflexivity.
Qed.

(** ** Score display *)

Lemma score_digits_loop_spec (room : nat) (t : Z) :
  0 <= t ->
  digits_value (score_digits_loop room t) = t mod 10 ^ Z.of_nat room /\
  Forall (fun d => 0 <= d <= 9) (score_digits_loop room t) /\
  (length (score_digits_loop room t) <= room)%nat.
Proof.
  revert t. induction room as [| room IH]; intros t Ht.
  - cbn [score_digits_loop digits_value foldr length]. rewrite Z.mod_1_r.
    repeat split; [constructor | lia].
  - cbn [score_digits_loop]. destruct (Z.gtb_spec t 0) as [Hpos | Hzero].
    + assert (Hq : 0 <= Z.quot t 10) by (apply Z.quot_pos; lia).
      destruct (IH (Z.quot t 10) Hq) as (Hval & Hdig & Hlen).
      split; [| split].
      * cbn [digits_value foldr].
        fold (digits_value (score_digits_loop room (Z.quot t 10))).
        rewrite Hval. rewrite Z.rem_mod_nonneg, Z.quot_div_nonneg by lia.
        rewrite Nat2Z.inj_succ, Z.pow_succ_r by lia.
        rewrite Z.rem_mul_r by lia. lia.
      * constructor; [| done]. rewrite Z.rem_mod_nonneg by lia.
        pose proof (Z.mod_pos_bound t 10 ltac:(lia)). lia.
      * cbn [length]. lia.
    + assert (t = 0) as -> by lia. cbn [digits_value foldr length].
      rewrite Z.mod_0_l by lia. repeat split; [constructor | lia].
Qed.

(** A positive number that fits the room is converted without a leading
    zero. *)
Lemma score_digits_loop_leading (room : nat) (t : Z) :
  0 < t < 10 ^ Z.of_nat room ->
  List.last (score_digits_loop room t) 0 <> 0.
Proof.
  revert t. induction room as [| room IH]; intros t Ht.
  - change (10 ^ Z.of_nat 0) with 1 in Ht. lia.
  - cbn [score_digits_loop]. destruct (Z.gtb_spec t 0) as [_ | ?]; [| lia].
    rewrite last_cons_default.
    rewrite Nat2Z.inj_succ, Z.pow_succ_r in Ht by lia.
    destruct (decide (Z.quot t 10 = 0)) as [E | Hne].
    + rewrite E. assert (score_digits_loop room 0 = []) as ->
        by (by destruct room).
      cbn [List.last]. rewrite Z.rem_mod_nonneg by lia.
      rewrite Z.quot_div_nonneg in E by lia.
      pose proof (Z.div_mod t 10 ltac:(lia)). lia.
    + assert (Hq : 0 < Z.quot t 10 < 10 ^ Z.of_nat room).
      { rewrite Z.quot_div_nonneg in * by lia.
        pose proof (Z.div_pos t 10 ltac:(lia) ltac:(lia)).
        split; [lia |]. apply Z.div_lt_upper_bound; lia. }
      specialize (IH _ Hq).
      destruct (score_digits_loop room (Z.quot t 10)) eqn:E; [done |].
      by rewrite last_cons_default in IH |- *.
Qed.

(** ** Rendering *)

Lemma for_each_nested {S : Type} (outer inner : list Z)
    (body : Z -> Z -> S -> S) (s : S) :
  for_each outer (fun i => for_each inner (fun j => body i j)) s =
  fold_left (fun st '(i, j) => body i j st) (i ← outer; j ← inner; [(i, j)]) s.
Proof.
  unfold for_each. rewrite fold_left_bind. apply fold_left_ext_in. intros st i.
  rewrite fold_left_bind. by apply fold_left_ext_in.
Qed.

Lemma elem_of_nested (outer inner : list Z) (i j : Z) :
  (i, j) ∈ (i ← outer; j ← inner; [(i, j)]) <-> i ∈ outer /\ j ∈ inner.
Proof.
  rewrite list_elem_of_bind. split.
  - intros (i' & Hin & Hi). apply list_elem_of_bind in Hin as (j' & Hin & Hj).
    apply list_elem_of_singleton in Hin. by inversion Hin; subst.
  - intros [Hi Hj]. exists i. split; [| done].
    apply list_elem_of_bind. exists j. split; [| done].
    by apply list_elem_of_singleton.
Qed.

(** A loop of guarded pixel writes: a pixel holds what some iteration
    wrote to it, or what it held before if no iteration wrote to it. *)
Lemma guarded_writes (A : Type) (guard : A -> bool) (idx col : A -> Z)
    (l : list A) (fb : Framebuffer) (j : Z) :
  let step := fun (fb' : Framebuffer) (a : A) =>
    if guard a then write_pixel fb' (idx a) (col a) else fb' in
  (exists a, a ∈ l /\ guard a = true /\ idx a = j /\
             fold_left step l fb j = col a) \/
  ((forall a, a ∈ l -> guard a = true -> idx a <> j) /\
   fold_left step l fb j = fb j).
Proof.
  intros step. revert fb. induction l as [| a l IH]; intros fb.
  - right. split; [| done]. intros a Ha. by apply elem_of_nil in Ha.
  - cbn [fold_left]. destruct (IH (step fb a)) as [(a' & Hin & Hg & Hi & Hv) | [Hno Hv]].
    + left. exists a'. split; [by right | done].
    + assert (Hstep : step fb a j =
                if guard a then (if j =? idx a then col a else fb j) else fb j).
      { unfold step, write_pixel. by destruct (guard a). }
      rewrite Hv, Hstep. destruct (guard a) eqn:Hg.
      * destruct (Z.eqb_spec j (idx a)) as [-> | Hne].
        -- left. exists a. repeat split; [by left | done].
        -- right. split; [| done].
           intros a' [-> | Hin]%elem_of_cons Hg'; [congruence | by apply Hno].
      * right. split; [| done].
        intros a' [-> | Hin]%elem_of_cons Hg'; [congruence | by apply Hno].
Qed.

Lemma int_add_nonneg (a k : Z) :
  is_int a -> 0 <= k <= INT_MAX ->
  (a + k <= INT_MAX /\ int_add a k = a + k) \/
  (INT_MAX < a + k /\ int_add a k < 0).
Proof.
  intros Ha Hk. unfold int_add.
  destruct (Z_le_gt_dec (a + k) INT_MAX) as [Hle | Hgt].
  - left. split; [done |]. apply wrap_int_id. unfold is_int, INT_MIN, INT_MAX in *. lia.
  - right. split; [lia |].
    rewrite <- wrap_int_plus_period.
    rewrite wrap_int_id; unfold is_int, INT_MIN, INT_MAX in *; lia.
Qed.

(** [draw_block] with the corner [(sx, sy)] of the block on the screen
    already computed. *)
Lemma draw_block_pixels (x y color : Z) (fb : Framebuffer) :
  let sx := int_add BOARD_START_X (int_mul x BLOCK_SIZE) in
  let sy := int_add BOARD_START_Y (int_mul y BLOCK_SIZE) in
  (forall j, ~ (0 <= j < SCREEN_WIDTH * SCREEN_HEIGHT) ->
     draw_block x y color fb j = fb j) /\
  (forall px py, 0 <= px < SCREEN_WIDTH -> 0 <= py < SCREEN_HEIGHT ->
     draw_block x y color fb (pixel_at px py) =
     if (0 <=? px - sx) && (px - sx <? BLOCK_SIZE) &&
        (0 <=? py - sy) && (py - sy <? BLOCK_SIZE)
     then block_pixel color (px - sx) (py - sy)
     else fb (pixel_at px py)).
Proof.
  intros sx sy. unfold draw_block. fold sx sy. rewrite for_each_nested.
  set (cells := dy ← range 0 BLOCK_SIZE; dx ← range 0 BLOCK_SIZE; [(dy, dx)]).
  set (guard := fun p : Z * Z =>
         (int_add sx (snd p) >=? 0) && (int_add sx (snd p) <? SCREEN_WIDTH) &&
         (int_add sy (fst p) >=? 0) && (int_add sy (fst p) <? SCREEN_HEIGHT)).
  set (idx := fun p : Z * Z =>
         int_add (int_mul (int_add sy (fst p)) SCREEN_WIDTH) (int_add sx (snd p))).
  set (col := fun p : Z * Z => block_pixel color (snd p) (fst p)).
  assert (Hfold : forall fb0,
            fold_left (fun (st : Framebuffer) '(i, j) =>
                         if (int_add sx j >=? 0) && (int_add sx j <? SCREEN_WIDTH) &&
                            (int_add sy i >=? 0) && (int_add sy i <? SCREEN_HEIGHT)
                         then write_pixel st
                                (int_add (int_mul (int_add sy i) SCREEN_WIDTH)
                                   (int_add sx j)) (block_pixel color j i)
                         else st) cells fb0 =
            fold_left (fun fb' a => if guard a then write_pixel fb' (idx a) (col a)
                                    else fb') cells fb0).
  { intros fb0. apply fold_left_ext_in. by intros st [i j]. }
  rewrite Hfold. clear Hfold.
  assert (Hsx : is_int sx) by apply wrap_int_is_int.
  assert (Hsy : is_int sy) by apply wrap_int_is_int.
  assert (Hcells : forall dy dx, (dy, dx) ∈ cells <-> 0 <= dy < 8 /\ 0 <= dx < 8).
  { intros dy dx. unfold cells. rewrite elem_of_nested, !elem_of_range.
    unfold BLOCK_SIZE. lia. }
  (* what the guard says about an iteration *)
  assert (Hguard : forall dy dx, 0 <= dy < 8 -> 0 <= dx < 8 ->
            guard (dy, dx) = true ->
            0 <= sx + dx < SCREEN_WIDTH /\ 0 <= sy + dy < SCREEN_HEIGHT /\
            idx (dy, dx) = pixel_at (sx + dx) (sy + dy)).
  { intros dy dx Hdy Hdx Hg. unfold guard in Hg. cbn [fst snd] in Hg.
    apply andb_prop in Hg as [Hg H4]. apply andb_prop in Hg as [Hg H3].
    apply andb_prop in Hg as [H1 H2].
    apply Z.geb_le in H1, H3. apply Z.ltb_lt in H2, H4.
    assert (Hk : forall k, 0 <= k < 8 -> 0 <= k <= INT_MAX)
      by (unfold INT_MAX; lia).
    destruct (int_add_nonneg sx dx Hsx (Hk _ Hdx)) as [[_ Ex] | [_ Ex]]; [| lia].
    destruct (int_add_nonneg sy dy Hsy (Hk _ Hdy)) as [[_ Ey] | [_ Ey]]; [| lia].
    unfold idx. cbn [fst snd]. rewrite Ex, Ey in *.
    split; [lia |]. split; [lia |].
    unfold pixel_at, int_add, int_mul, SCREEN_WIDTH, SCREEN_HEIGHT in *.
    rewrite (wrap_int_id ((sy + dy) * 320))
      by (unfold is_int, INT_MIN, INT_MAX; lia).
    apply wrap_int_id. unfold is_int, INT_MIN, INT_MAX. lia. }
  split.
  - intros j Hout.
    destruct (guarded_writes _ guard idx col cells fb j)
      as [([dy dx] & Hin & Hg & Hi & _) | [_ Hv]]; [| exact Hv].
    exfalso. apply Hcells in Hin as [Hdy Hdx].
    destruct (Hguard dy dx Hdy Hdx Hg) as (Hx & Hy & Hidx).
    rewrite Hidx in Hi. apply Hout. subst j.
    unfold pixel_at, SCREEN_WIDTH, SCREEN_HEIGHT in *. lia.
  - intros px py Hpx Hpy.
    destruct (guarded_writes _ guard idx col cells fb (pixel_at px py))
      as [([dy dx] & Hin & Hg & Hi & Hv) | [Hno Hv]].
    + apply Hcells in Hin as [Hdy Hdx].
      destruct (Hguard dy dx Hdy Hdx Hg) as (Hx & Hy & Hidx).
      rewrite Hidx in Hi.
      assert (sx + dx = px /\ sy + dy = py) as [Epx Epy].
      { unfold pixel_at, SCREEN_WIDTH, SCREEN_HEIGHT in *. lia. }
      rewrite Hv. unfold col. cbn [fst snd].
      replace (px - sx) with dx by lia. replace (py - sy) with dy by lia.
      unfold BLOCK_SIZE.
      destruct (Z.leb_spec 0 dx), (Z.ltb_spec dx 8), (Z.leb_spec 0 dy),
        (Z.ltb_spec dy 8); try lia. done.
    + rewrite Hv. unfold BLOCK_SIZE.
      destruct (Z.leb_spec 0 (px - sx)), (Z.ltb_spec (px - sx) 8),
        (Z.leb_spec 0 (py - sy)), (Z.ltb_spec (py - sy) 8); try done.
      exfalso. apply (Hno (py - sy, px - sx)).
      * apply Hcells. lia.
      * unfold guard. cbn [fst snd]. unfold int_add.
        rewrite !wrap_int_id;
          unfold is_int, INT_MIN, INT_MAX, SCREEN_WIDTH, SCREEN_HEIGHT in *; lia.
      * unfold idx. cbn [fst snd]. unfold int_add, int_mul.
        rewrite (wrap_int_id (sx + _));
          [| unfold is_int, INT_MIN, INT_MAX, SCREEN_WIDTH, SCREEN_HEIGHT in *; lia].
        rewrite (wrap_int_id (sy + _));
          [| unfold is_int, INT_MIN, INT_MAX, SCREEN_WIDTH, SCREEN_HEIGHT in *; lia].
        unfold pixel_at, SCREEN_WIDTH, SCREEN_HEIGHT in *.
        rewrite (wrap_int_id ((sy + (py - sy)) * 320))
          by (unfold is_int, INT_MIN, INT_MAX; lia).
        rewrite wrap_int_id by (unfold is_int, INT_MIN, INT_MAX; lia). lia.
Qed.

Lemma draw_block_at (x y color : Z) (fb : Framebuffer) (px py : Z) :
  -1 <= x <= BOARD_WIDTH -> -1 <= y <= BOARD_HEIGHT ->
  0 <= px < SCREEN_WIDTH -> 0 <= py < SCREEN_HEIGHT ->
  draw_block x y color fb (pixel_at px py) =
  if in_block x y px py
  then block_pixel color (px - (BOARD_START_X + x * BLOCK_SIZE))
                         (py - (BOARD_START_Y + y * BLOCK_SIZE))
  else fb (pixel_at px py).
Proof.
  intros Hx Hy Hpx Hpy.
  destruct (draw_block_pixels x y color fb) as [_ H]. rewrite H by done.
  assert (Ex : int_add BOARD_START_X (int_mul x BLOCK_SIZE) =
               BOARD_START_X + x * BLOCK_SIZE).
  { unfold int_add, int_mul, BOARD_WIDTH in *.
    change BOARD_START_X with 80. unfold BLOCK_SIZE.
    rewrite (wrap_int_id (x * 8)) by (unfold is_int, INT_MIN, INT_MAX; lia).
    apply wrap_int_id. unfold is_int, INT_MIN, INT_MAX. lia. }
  assert (Ey : int_add BOARD_START_Y (int_mul y BLOCK_SIZE) =
               BOARD_START_Y + y * BLOCK_SIZE).
  { unfold int_add, int_mul, BOARD_HEIGHT in *.
    change BOARD_START_Y with 40. unfold BLOCK_SIZE.
    rewrite (wrap_int_id (y * 8)) by (unfold is_int, INT_MIN, INT_MAX; lia).
    apply wrap_int_id. unfold is_int, INT_MIN, INT_MAX. lia. }
  rewrite Ex, Ey. reflexivity.
Qed.

(** Two blocks that share a pixel are the same block. *)
Lemma in_block_unique (x y x' y' px py : Z) :
  in_block x y px py = true -> in_block x' y' px py = true -> x = x' /\ y = y'.
Proof.
  unfold in_block, BLOCK_SIZE. intros H1 H2.
  apply andb_prop in H1 as [H1 H14]. apply andb_prop in H1 as [H1 H13].
  apply andb_prop in H1 as [H11 H12].
  apply andb_prop in H2 as [H2 H24]. apply andb_prop in H2 as [H2 H23].
  apply andb_prop in H2 as [H21 H22].
  apply Z.leb_le in H11, H13, H21, H23. apply Z.ltb_lt in H12, H14, H22, H24.
  lia.
Qed.

Lemma paint_all_app (l1 l2 : list Paint) (fb : Framebuffer) :
  paint_all (l1 ++ l2) fb = paint_all l2 (paint_all l1 fb).
Proof. apply fold_left_app. Qed.

Lemma fold_left_step {A S : Type} (f : S -> A -> S) (a : A) (l : list A)
    (s : S) :
  fold_left f (a :: l) s = fold_left f l (f s a).
Proof. reflexivity. Qed.

Lemma paint_all_cons (x y c : Z) (l : list Paint) (fb : Framebuffer) :
  paint_all ((x, y, c) :: l) fb = paint_all l (draw_block x y c fb).
Proof. exact (fold_left_step _ (x, y, c) l fb). Qed.

(** Paints that do not cover a pixel leave it alone. *)
Lemma paint_all_miss (l : list Paint) (fb : Framebuffer) (px py : Z) :
  0 <= px < SCREEN_WIDTH -> 0 <= py < SCREEN_HEIGHT ->
  Forall paint_near l ->
  (forall e, e ∈ l -> paint_covers px py e = false) ->
  paint_all l fb (pixel_at px py) = fb (pixel_at px py).
Proof.
  intros Hpx Hpy Hnear. revert fb.
  induction Hnear as [| [[x y] c] l [Hx Hy] _ IH]; intros fb Hmiss; [done |].
  rewrite paint_all_cons.
  rewrite IH by (intros e He; apply Hmiss; by right).
  rewrite draw_block_at by done.
  specialize (Hmiss (x, y, c) ltac:(left)). cbn [paint_covers] in Hmiss.
  by rewrite Hmiss.
Qed.

(** If every paint that covers a pixel paints the cell [(x, y)] in the
    colour [c], and there is one, the pixel shows that colour. *)
Lemma paint_all_hit (l : list Paint) (fb : Framebuffer) (px py x y c : Z) :
  0 <= px < SCREEN_WIDTH -> 0 <= py < SCREEN_HEIGHT ->
  Forall paint_near l ->
  (forall e, e ∈ l -> paint_covers px py e = true -> e = (x, y, c)) ->
  (x, y, c) ∈ l -> in_block x y px py = true ->
  paint_all l fb (pixel_at px py) =
  block_pixel c (px - (BOARD_START_X + x * BLOCK_SIZE))
                (py - (BOARD_START_Y + y * BLOCK_SIZE)).
Proof.
  intros Hpx Hpy Hnear. revert fb.
  induction Hnear as [| e l He Hl IH]; intros fb Huni Hin Hblock.
  - by apply elem_of_nil in Hin.
  - destruct e as [[x0 y0] c0]. destruct He as [Hx0 Hy0].
    rewrite paint_all_cons.
    destruct (existsb (paint_covers px py) l) eqn:Hex.
    + apply existsb_exists in Hex as (e' & He' & Hc').
      apply list_elem_of_In in He'.
      assert (e' = (x, y, c)) as -> by (apply Huni; [by right | done]).
      apply IH; [| done | done]. intros e He Hc. apply Huni; [by right | done].
    + rewrite paint_all_miss; [| done | done | done |].
      2:{ intros e He. destruct (paint_covers px py e) eqn:Hc; [| done].
          assert (existsb (paint_covers px py) l = true); [| congruence].
          apply existsb_exists. exists e. split; [by apply list_elem_of_In | done]. }
      rewrite draw_block_at by done.
      apply elem_of_cons in Hin as [Heq | Hin].
      * inversion Heq; subst. by rewrite Hblock.
      * exfalso.
        assert (existsb (paint_covers px py) l = true); [| congruence].
        apply existsb_exists. exists (x, y, c).
        split; [by apply list_elem_of_In | done].
Qed.

Lemma paint_all_nil (fb : Framebuffer) : paint_all [] fb = fb.
Proof. reflexivity. Qed.

Lemma paint_all_bind {A : Type} (l : list A) (g : A -> list Paint)
    (fb : Framebuffer) :
  paint_all (l ≫= g) fb = fold_left (fun st a => paint_all (g a) st) l fb.
Proof. exact (fold_left_bind _ g l fb). Qed.

(** Each of the four loops of [draw_board] is the sequence of its calls
    of [draw_block]. *)
Lemma background_loop (fb : Framebuffer) :
  for_each (range (-1) (BOARD_HEIGHT + 1)) (fun y =>
    for_each (range (-1) (BOARD_WIDTH + 1)) (fun x => draw_block x y BLACK)) fb =
  paint_all background_paints fb.
Proof.
  unfold background_paints, for_each. rewrite paint_all_bind.
  apply fold_left_ext_in. intros st y. rewrite paint_all_bind.
  apply fold_left_ext_in. intros st' x.
  rewrite paint_all_cons. symmetry. apply paint_all_nil.
Qed.

Lemma border_rows_loop (fb : Framebuffer) :
  for_each (range (-1) (BOARD_WIDTH + 1)) (fun i fb' =>
    draw_block i BOARD_HEIGHT (to_char WHITE)
      (draw_block i (-1) (to_char WHITE) fb')) fb =
  paint_all border_rows_paints fb.
Proof.
  unfold border_rows_paints, for_each. rewrite paint_all_bind.
  apply fold_left_ext_in. intros st i.
  rewrite !paint_all_cons. symmetry. apply paint_all_nil.
Qed.

Lemma border_cols_loop (fb : Framebuffer) :
  for_each (range (-1) (BOARD_HEIGHT + 1)) (fun i fb' =>
    draw_block BOARD_WIDTH i (to_char WHITE)
      (draw_block (-1) i (to_char WHITE) fb')) fb =
  paint_all border_cols_paints fb.
Proof.
  unfold border_cols_paints, for_each. rewrite paint_all_bind.
  apply fold_left_ext_in. intros st i.
  rewrite !paint_all_cons. symmetry. apply paint_all_nil.
Qed.

Lemma cells_loop (b : Board) (fb : Framebuffer) :
  for_each (range 0 BOARD_HEIGHT) (fun y =>
    for_each (range 0 BOARD_WIDTH) (fun x fb' =>
      if negb (cell b y x =? BLACK) then draw_block x y (cell b y x) fb'
      else fb')) fb =
  paint_all (cell_paints b) fb.
Proof.
  unfold cell_paints, for_each. rewrite paint_all_bind.
  apply fold_left_ext_in. intros st y. rewrite paint_all_bind.
  apply fold_left_ext_in. intros st' x.
  destruct (negb (cell b y x =? BLACK)).
  - rewrite paint_all_cons. symmetry. apply paint_all_nil.
  - symmetry. apply paint_all_nil.
Qed.

Lemma draw_board_paints (b : Board) (fb : Framebuffer) :
  draw_board b fb =
  paint_all (cell_paints b)
    (paint_all border_cols_paints
       (paint_all border_rows_paints (paint_all background_paints fb))).
Proof.
  unfold draw_board. cbv zeta.
  rewrite background_loop, border_rows_loop, border_cols_loop.
  apply cells_loop.
Qed.

Lemma paint_all_outside (l : list Paint) (fb : Framebuffer) (j : Z) :
  ~ (0 <= j < SCREEN_WIDTH * SCREEN_HEIGHT) -> paint_all l fb j = fb j.
Proof.
  intros Hout. revert fb. induction l as [| [[x y] c] l IH]; intros fb.
  - by rewrite paint_all_nil.
  - rewrite paint_all_cons, IH.
    destruct (draw_block_pixels x y c fb) as [H _]. exact (H j Hout).
Qed.

Lemma background_paints_spec (e : Paint) :
  e ∈ background_paints <->
  exists x y, -1 <= x <= BOARD_WIDTH /\ -1 <= y <= BOARD_HEIGHT /\
              e = (x, y, BLACK).
Proof.
  unfold background_paints. rewrite list_elem_of_bind. split.
  - intros (y & Hin & Hy). apply list_elem_of_bind in Hin as (x & Hin & Hx).
    apply list_elem_of_singleton in Hin. apply elem_of_range in Hx, Hy.
    exists x, y. split; [lia |]. split; [lia | exact Hin].
  - intros (x & y & Hx & Hy & ->). exists y. split; [| apply elem_of_range; lia].
    apply list_elem_of_bind. exists x. split; [| apply elem_of_range; lia].
    by apply list_elem_of_singleton.
Qed.

Lemma border_rows_paints_spec (e : Paint) :
  e ∈ border_rows_paints <->
  exists i y, -1 <= i <= BOARD_WIDTH /\ (y = -1 \/ y = BOARD_HEIGHT) /\
              e = (i, y, to_char WHITE).
Proof.
  unfold border_rows_paints. rewrite list_elem_of_bind. split.
  - intros (i & Hin & Hi). apply elem_of_range in Hi.
    apply elem_of_cons in Hin as [-> | Hin];
      [| apply list_elem_of_singleton in Hin as ->].
    + exists i, (-1). split; [lia |]. split; [by left | reflexivity].
    + exists i, BOARD_HEIGHT. split; [lia |]. split; [by right | reflexivity].
  - intros (i & y & Hi & Hy & ->). exists i.
    split; [| apply elem_of_range; lia].
    destruct Hy as [-> | ->]; [by left | right; by left].
Qed.

Lemma border_cols_paints_spec (e : Paint) :
  e ∈ border_cols_paints <->
  exists x i, (x = -1 \/ x = BOARD_WIDTH) /\ -1 <= i <= BOARD_HEIGHT /\
              e = (x, i, to_char WHITE).
Proof.
  unfold border_cols_paints. rewrite list_elem_of_bind. split.
  - intros (i & Hin & Hi). apply elem_of_range in Hi.
    apply elem_of_cons in Hin as [-> | Hin];
      [| apply list_elem_of_singleton in Hin as ->].
    + exists (-1), i. split; [by left |]. split; [lia | reflexivity].
    + exists BOARD_WIDTH, i. split; [by right |]. split; [lia | reflexivity].
  - intros (x & i & Hx & Hi & ->). exists i.
    split; [| apply elem_of_range; lia].
    destruct Hx as [-> | ->]; [by left | right; by left].
Qed.

Lemma cell_paints_spec (b : Board) (e : Paint) :
  e ∈ cell_paints b <->
  exists x y, 0 <= x < BOARD_WIDTH /\ 0 <= y < BOARD_HEIGHT /\
              cell b y x <> BLACK /\ e = (x, y, cell b y x).
Proof.
  unfold cell_paints. rewrite list_elem_of_bind. split.
  - intros (y & Hin & Hy). apply list_elem_of_bind in Hin as (x & Hin & Hx).
    apply elem_of_range in Hx, Hy.
    destruct (Z.eqb_spec (cell b y x) BLACK) as [E | E]; cbn [negb] in Hin.
    + by apply elem_of_nil in Hin.
    + apply list_elem_of_singleton in Hin. exists x, y.
      split; [exact Hx |]. split; [exact Hy |]. split; [exact E | exact Hin].
  - intros (x & y & Hx & Hy & Hocc & ->). exists y.
    split; [| by apply elem_of_range].
    apply list_elem_of_bind. exists x. split; [| by apply elem_of_range].
    destruct (Z.eqb_spec (cell b y x) BLACK) as [E | E]; [by destruct Hocc |].
    cbn [negb]. by apply list_elem_of_singleton.
Qed.

Lemma background_paints_near : Forall paint_near background_paints.
Proof.
  apply Forall_forall. intros e He.
  apply background_paints_spec in He as (x & y & Hx & Hy & ->). by split.
Qed.

Lemma border_rows_paints_near : Forall paint_near border_rows_paints.
Proof.
  apply Forall_forall. intros e He.
  apply border_rows_paints_spec in He as (x & y & Hx & Hy & ->).
  split; [exact Hx |]. unfold BOARD_HEIGHT in *. lia.
Qed.

Lemma border_cols_paints_near : Forall paint_near border_cols_paints.
Proof.
  apply Forall_forall. intros e He.
  apply border_cols_paints_spec in He as (x & y & Hx & Hy & ->).
  split; [| exact Hy]. unfold BOARD_WIDTH in *. lia.
Qed.

Lemma cell_paints_near (b : Board) : Forall paint_near (cell_paints b).
Proof.
  apply Forall_forall. intros e He.
  apply cell_paints_spec in He as (x & y & Hx & Hy & _ & ->).
  split; lia.
Qed.

Lemma in_block_offsets (x y dx dy : Z) :
  0 <= dx < BLOCK_SIZE -> 0 <= dy < BLOCK_SIZE ->
  in_block x y (BOARD_START_X + x * BLOCK_SIZE + dx)
               (BOARD_START_Y + y * BLOCK_SIZE + dy) = true.
Proof. unfold in_block. intros Hdx Hdy. lia. Qed.

(** The pixels of the blocks in and around the board are on the screen. *)
Lemma block_on_screen (x y dx dy : Z) :
  -1 <= x <= BOARD_WIDTH -> -1 <= y <= BOARD_HEIGHT ->
  0 <= dx < BLOCK_SIZE -> 0 <= dy < BLOCK_SIZE ->
  0 <= BOARD_START_X + x * BLOCK_SIZE + dx < SCREEN_WIDTH /\
  0 <= BOARD_START_Y + y * BLOCK_SIZE + dy < SCREEN_HEIGHT.
Proof.
  unfold BOARD_WIDTH, BOARD_HEIGHT, BLOCK_SIZE, SCREEN_WIDTH, SCREEN_HEIGHT.
  change BOARD_START_X with 80. change BOARD_START_Y with 40. lia.
Qed.

(** What [draw_board] leaves in the block of a board cell. *)
Lemma draw_board_cell (b : Board) (fb : Framebuffer) (x y px py : Z) :
  0 <= x < BOARD_WIDTH -> 0 <= y < BOARD_HEIGHT ->
  0 <= px < SCREEN_WIDTH -> 0 <= py < SCREEN_HEIGHT ->
  in_block x y px py = true ->
  draw_board b fb (pixel_at px py) =
  block_pixel (cell b y x) (px - (BOARD_START_X + x * BLOCK_SIZE))
                           (py - (BOARD_START_Y + y * BLOCK_SIZE)).
Proof.
  intros Hx Hy Hpx Hpy Hin. rewrite draw_board_paints.
  destruct (Z.eq_dec (cell b y x) BLACK) as [E | E].
  - rewrite paint_all_miss; [| done | done | apply cell_paints_near |].
    2:{ intros e He. apply cell_paints_spec in He as (x' & y' & _ & _ & Hocc & ->).
        cbn [paint_covers]. destruct (in_block x' y' px py) eqn:Hc; [| done].
        destruct (in_block_unique _ _ _ _ _ _ Hc Hin) as [-> ->]. by destruct Hocc. }
    rewrite paint_all_miss; [| done | done | apply border_cols_paints_near |].
    2:{ intros e He. apply border_cols_paints_spec in He as (x' & y' & Hx' & _ & ->).
        cbn [paint_covers]. destruct (in_block x' y' px py) eqn:Hc; [| done].
        destruct (in_block_unique _ _ _ _ _ _ Hc Hin) as [-> ->]. lia. }
    rewrite paint_all_miss; [| done | done | apply border_rows_paints_near |].
    2:{ intros e He. apply border_rows_paints_spec in He as (x' & y' & _ & Hy' & ->).
        cbn [paint_covers]. destruct (in_block x' y' px py) eqn:Hc; [| done].
        destruct (in_block_unique _ _ _ _ _ _ Hc Hin) as [-> ->]. lia. }
    rewrite E.
    apply paint_all_hit; [done | done | apply background_paints_near | | | done].
    + intros e He Hc. apply background_paints_spec in He as (x' & y' & _ & _ & ->).
      cbn [paint_covers] in Hc.
      by destruct (in_block_unique _ _ _ _ _ _ Hc Hin) as [-> ->].
    + apply background_paints_spec. exists x, y.
      split; [lia |]. split; [lia | reflexivity].
  - apply paint_all_hit; [done | done | apply cell_paints_near | | | done].
    + intros e He Hc. apply cell_paints_spec in He as (x' & y' & _ & _ & _ & ->).
      cbn [paint_covers] in Hc.
      by destruct (in_block_unique _ _ _ _ _ _ Hc Hin) as [-> ->].
    + apply cell_paints_spec. exists x, y.
      split; [exact Hx |]. split; [exact Hy |]. split; [exact E | reflexivity].
Qed.

(** What [draw_board] leaves in a block of the frame. *)
Lemma draw_board_border (b : Board) (fb : Framebuffer) (x y px py : Z) :
  on_border x y ->
  0 <= px < SCREEN_WIDTH -> 0 <= py < SCREEN_HEIGHT ->
  in_block x y px py = true ->
  draw_board b fb (pixel_at px py) =
  block_pixel (to_char WHITE) (px - (BOARD_START_X + x * BLOCK_SIZE))
                              (py - (BOARD_START_Y + y * BLOCK_SIZE)).
Proof.
  intros (Hx & Hy & Hedge) Hpx Hpy Hin. rewrite draw_board_paints.
  rewrite paint_all_miss; [| done | done | apply cell_paints_near |].
  2:{ intros e He. apply cell_paints_spec in He as (x' & y' & Hx' & Hy' & _ & ->).
      cbn [paint_covers]. destruct (in_block x' y' px py) eqn:Hc; [| done].
      destruct (in_block_unique _ _ _ _ _ _ Hc Hin) as [-> ->]. lia. }
  destruct (decide (x = -1 \/ x = BOARD_WIDTH)) as [Hcol | Hcol].
  - apply paint_all_hit; [done | done | apply border_cols_paints_near | | | done].
    + intros e He Hc. apply border_cols_paints_spec in He as (x' & y' & _ & _ & ->).
      cbn [paint_covers] in Hc.
      by destruct (in_block_unique _ _ _ _ _ _ Hc Hin) as [-> ->].
    + apply border_cols_paints_spec. exists x, y.
      split; [exact Hcol |]. split; [exact Hy | reflexivity].
  - rewrite paint_all_miss; [| done | done | apply border_cols_paints_near |].
    2:{ intros e He. apply border_cols_paints_spec in He as (x' & y' & Hx' & _ & ->).
        cbn [paint_covers]. destruct (in_block x' y' px py) eqn:Hc; [| done].
        destruct (in_block_unique _ _ _ _ _ _ Hc Hin) as [-> ->]. by destruct Hcol. }
    apply paint_all_hit; [done | done | apply border_rows_paints_near | | | done].
    + intros e He Hc. apply border_rows_paints_spec in He as (x' & y' & _ & _ & ->).
      cbn [paint_covers] in Hc.
      by destruct (in_block_unique _ _ _ _ _ _ Hc Hin) as [-> ->].
    + apply border_rows_paints_spec. exists x, y.
      split; [exact Hx |]. split; [| reflexivity].
      destruct Hedge as [E | [E | [E | E]]]; [destruct Hcol; by left | destruct Hcol; by right | by left | by right].
Qed.

(** A block in or next to the board lies in the painted area. *)
Lemma in_block_board_area (x y px py : Z) :
  -1 <= x <= BOARD_WIDTH -> -1 <= y <= BOARD_HEIGHT ->
  in_block x y px py = true -> in_board_area px py.
Proof.
  unfold in_block, in_board_area, BOARD_WIDTH, BOARD_HEIGHT, BLOCK_SIZE.
  change BOARD_START_X with 80. change BOARD_START_Y with 40. lia.
Qed.

(** [draw_board] leaves the rest of the screen alone. *)
Lemma draw_board_frame (b : Board) (fb : Framebuffer) (px py : Z) :
  0 <= px < SCREEN_WIDTH -> 0 <= py < SCREEN_HEIGHT ->
  ~ in_board_area px py ->
  draw_board b fb (pixel_at px py) = fb (pixel_at px py).
Proof.
  intros Hpx Hpy Hout. rewrite draw_board_paints.
  assert (Hmiss : forall l, Forall paint_near l ->
            forall e, e ∈ l -> paint_covers px py e = false).
  { intros l Hl e He. rewrite Forall_forall in Hl. specialize (Hl e He).
    destruct e as [[x y] c]. destruct Hl as [Hx Hy]. cbn [paint_covers].
    destruct (in_block x y px py) eqn:Hc; [| done].
    destruct Hout. by apply (in_block_board_area x y). }
  rewrite paint_all_miss;
    [| done | done | apply cell_paints_near | apply Hmiss, cell_paints_near].
  rewrite paint_all_miss;
    [| done | done | apply border_cols_paints_near
     | apply Hmiss, border_cols_paints_near].
  rewrite paint_all_miss;
    [| done | done | apply border_rows_paints_near
     | apply Hmiss, border_rows_paints_near].
  apply paint_all_miss;
    [done | done | apply background_paints_near
     | apply Hmiss, background_paints_near].
Qed.

Lemma draw_current_piece_paints (g : Game) (fb : Framebuffer) :
  draw_current_piece g fb =
  paint_all (piece_blocks (to_char (int_add (Piece.type (currentPiece g)) 1)) g) fb.
Proof.
  unfold draw_current_piece, piece_blocks. cbv zeta. rewrite paint_all_bind.
  apply fold_left_ext_in. intros st [y x].
  destruct (shape_bit _ y x).
  - rewrite paint_all_cons. symmetry. apply paint_all_nil.
  - symmetry. apply paint_all_nil.
Qed.

Lemma erase_current_piece_paints (g : Game) (fb : Framebuffer) :
  erase_current_piece g fb = paint_all (piece_blocks BLACK g) fb.
Proof.
  unfold erase_current_piece, piece_blocks. cbv zeta. rewrite paint_all_bind.
  apply fold_left_ext_in. intros st [y x].
  destruct (shape_bit _ y x).
  - rewrite paint_all_cons. symmetry. apply paint_all_nil.
  - symmetry. apply paint_all_nil.
Qed.

Lemma piece_blocks_spec (c : Z) (g : Game) (e : Paint) :
  e ∈ piece_blocks c g <->
  exists y x, 0 <= y < 4 /\ 0 <= x < 4 /\
    shape_bit (shape_of (Piece.type (currentPiece g))
                        (Piece.rotation (currentPiece g))) y x = true /\
    e = (int_add (Piece.x (currentPiece g)) x,
         int_add (Piece.y (currentPiece g)) y, c).
Proof.
  unfold piece_blocks. rewrite list_elem_of_bind. split.
  - intros ([y x] & Hin & Hyx). apply elem_of_shape_cells in Hyx as [Hy Hx].
    destruct (shape_bit _ y x) eqn:Hbit.
    + apply list_elem_of_singleton in Hin. exists y, x.
      split; [exact Hy |]. split; [exact Hx |]. split; [exact Hbit | exact Hin].
    + by apply elem_of_nil in Hin.
  - intros (y & x & Hy & Hx & Hbit & ->). exists (y, x).
    split; [| by apply elem_of_shape_cells].
    rewrite Hbit. by apply list_elem_of_singleton.
Qed.

Lemma footprint_true (p : Piece) (Y X : Z) :
  footprint p Y X = true <->
  exists y x, 0 <= y < 4 /\ 0 <= x < 4 /\
    shape_bit (shape_of (Piece.type p) (Piece.rotation p)) y x = true /\
    Y = Piece.y p + y /\ X = Piece.x p + x.
Proof.
  unfold footprint. rewrite existsb_exists. split.
  - intros ([y x] & Hin & H). apply list_elem_of_In, elem_of_shape_cells in Hin.
    apply andb_prop in H as [H HX]. apply andb_prop in H as [Hbit HY].
    apply Z.eqb_eq in HX, HY. exists y, x. tauto.
  - intros (y & x & Hy & Hx & Hbit & -> & ->). exists (y, x).
    split; [by apply list_elem_of_In, elem_of_shape_cells |].
    by rewrite Hbit, !Z.eqb_refl.
Qed.

(** The footprint of a piece that overlaps nothing lies in the board. *)
Lemma footprint_in_board (g : Game) (Y X : Z) :
  wf_piece (currentPiece g) ->
  fst (check_collision currentPiece g) = 0 ->
  footprint (currentPiece g) Y X = true ->
  0 <= X < BOARD_WIDTH /\ 0 <= Y < BOARD_HEIGHT.
Proof.
  intros (_ & _ & Hx & Hy) Hfree Hfp.
  destruct (check_collision_cases currentPiece g Hx Hy) as [[_ Hnb] | [E _]];
    [| rewrite E in Hfree; discriminate Hfree].
  cbv zeta in Hnb.
  apply footprint_true in Hfp as (y & x & Hy4 & Hx4 & Hbit & -> & ->).
  destruct (decide (0 <= Piece.x (currentPiece g) + x < BOARD_WIDTH /\
                    0 <= Piece.y (currentPiece g) + y < BOARD_HEIGHT))
    as [H | H]; [exact H |].
  destruct (Hnb y x Hy4 Hx4 Hbit). by left.
Qed.

(** The cells under a piece that overlaps nothing are empty. *)
Lemma footprint_free (g : Game) (Y X : Z) :
  wf_piece (currentPiece g) ->
  fst (check_collision currentPiece g) = 0 ->
  footprint (currentPiece g) Y X = true ->
  cell (board g) Y X = BLACK.
Proof.
  intros (_ & _ & Hx & Hy) Hfree Hfp.
  destruct (check_collision_cases currentPiece g Hx Hy) as [[_ Hnb] | [E _]];
    [| rewrite E in Hfree; discriminate Hfree].
  cbv zeta in Hnb.
  apply footprint_true in Hfp as (y & x & Hy4 & Hx4 & Hbit & -> & ->).
  destruct (Z.eq_dec (cell (board g) (Piece.y (currentPiece g) + y)
                           (Piece.x (currentPiece g) + x)) BLACK)
    as [E | E]; [exact E |].
  destruct (Hnb y x Hy4 Hx4 Hbit). by right.
Qed.

(** The blocks of a piece that overlaps nothing are the cells of its
    footprint, all inside the board. *)
Lemma piece_blocks_placed (c : Z) (g : Game) (e : Paint) :
  wf_piece (currentPiece g) ->
  fst (check_collision currentPiece g) = 0 ->
  e ∈ piece_blocks c g <->
  exists X Y, footprint (currentPiece g) Y X = true /\
    0 <= X < BOARD_WIDTH /\ 0 <= Y < BOARD_HEIGHT /\ e = (X, Y, c).
Proof.
  intros Hwf Hfree. rewrite piece_blocks_spec. split.
  - intros (y & x & Hy4 & Hx4 & Hbit & ->).
    assert (Hfp : footprint (currentPiece g) (Piece.y (currentPiece g) + y)
                            (Piece.x (currentPiece g) + x) = true).
    { apply footprint_true. exists y, x. tauto. }
    destruct (footprint_in_board g _ _ Hwf Hfree Hfp) as [HX HY].
    unfold int_add.
    rewrite !wrap_int_id
      by (unfold is_int, INT_MIN, INT_MAX, BOARD_WIDTH, BOARD_HEIGHT in *; lia).
    exists (Piece.x (currentPiece g) + x), (Piece.y (currentPiece g) + y).
    split; [exact Hfp |]. split; [exact HX |]. split; [exact HY | reflexivity].
  - intros (X & Y & Hfp & HX & HY & ->).
    apply footprint_true in Hfp as (y & x & Hy4 & Hx4 & Hbit & -> & ->).
    exists y, x. split; [exact Hy4 |]. split; [exact Hx4 |].
    split; [exact Hbit |]. unfold int_add.
    rewrite !wrap_int_id
      by (unfold is_int, INT_MIN, INT_MAX, BOARD_WIDTH, BOARD_HEIGHT in *; lia).
    reflexivity.
Qed.

Lemma piece_blocks_near (c : Z) (g : Game) :
  wf_piece (currentPiece g) ->
  fst (check_collision currentPiece g) = 0 ->
  Forall paint_near (piece_blocks c g).
Proof.
  intros Hwf Hfree. apply Forall_forall. intros e He.
  apply (piece_blocks_placed c g e Hwf Hfree) in He
    as (X & Y & _ & HX & HY & ->).
  split; lia.
Qed.

(** What painting the blocks of the piece leaves at a pixel of the block
    of the cell [(X, Y)]. *)
Lemma piece_blocks_at (c : Z) (g : Game) (fb : Framebuffer) (X Y px py : Z) :
  wf_piece (currentPiece g) ->
  fst (check_collision currentPiece g) = 0 ->
  0 <= px < SCREEN_WIDTH -> 0 <= py < SCREEN_HEIGHT ->
  in_block X Y px py = true ->
  paint_all (piece_blocks c g) fb (pixel_at px py) =
  if footprint (currentPiece g) Y X
  then block_pixel c (px - (BOARD_START_X + X * BLOCK_SIZE))
                     (py - (BOARD_START_Y + Y * BLOCK_SIZE))
  else fb (pixel_at px py).
Proof.
  intros Hwf Hfree Hpx Hpy Hin.
  destruct (footprint (currentPiece g) Y X) eqn:Hfp.
  - assert (Hmem : (X, Y, c) ∈ piece_blocks c g).
    { apply (piece_blocks_placed c g _ Hwf Hfree).
      destruct (footprint_in_board g Y X Hwf Hfree Hfp) as [HX HY].
      exists X, Y. split; [exact Hfp |]. split; [exact HX |].
      split; [exact HY | reflexivity]. }
    apply paint_all_hit;
      [done | done | by apply piece_blocks_near | | exact Hmem | done].
    intros e He Hc.
    apply (piece_blocks_placed c g e Hwf Hfree) in He as (X' & Y' & _ & _ & _ & ->).
    cbn [paint_covers] in Hc.
    by destruct (in_block_unique _ _ _ _ _ _ Hc Hin) as [-> ->].
  - apply paint_all_miss; [done | done | by apply piece_blocks_near |].
    intros e He.
    apply (piece_blocks_placed c g e Hwf Hfree) in He as (X' & Y' & Hfp' & _ & _ & ->).
    cbn [paint_covers]. destruct (in_block X' Y' px py) eqn:Hc; [| done].
    destruct (in_block_unique _ _ _ _ _ _ Hc Hin) as [-> ->]. congruence.
Qed.

Lemma piece_colour (p : Piece) :
  wf_piece p -> to_char (int_add (Piece.type p) 1) = Piece.type p + 1.
Proof.
  intros (Ht & _). unfold to_char, int_add.
  rewrite wrap_int_id by (unfold is_int, INT_MIN, INT_MAX; lia).
  apply Z.mod_small. lia.
Qed.

(** Every pixel lies in the block of one cell of the grid of blocks. *)
Lemma in_block_div (px py : Z) :
  in_block ((px - BOARD_START_X) / BLOCK_SIZE)
           ((py - BOARD_START_Y) / BLOCK_SIZE) px py = true.
Proof.
  unfold in_block, BLOCK_SIZE. change BOARD_START_X with 80.
  change BOARD_START_Y with 40.
  assert (Hx := Z.div_mod (px - 80) 8 ltac:(lia)).
  assert (Hx' := Z.mod_pos_bound (px - 80) 8 ltac:(lia)).
  assert (Hy := Z.div_mod (py - 40) 8 ltac:(lia)).
  assert (Hy' := Z.mod_pos_bound (py - 40) 8 ltac:(lia)).
  lia.
Qed.

(** Every offset in the frame buffer is the offset of a pixel of the
    screen. *)
Lemma pixel_at_div (j : Z) :
  0 <= j < SCREEN_WIDTH * SCREEN_HEIGHT ->
  j = pixel_at (j mod SCREEN_WIDTH) (j / SCREEN_WIDTH) /\
  0 <= j mod SCREEN_WIDTH < SCREEN_WIDTH /\
  0 <= j / SCREEN_WIDTH < SCREEN_HEIGHT.
Proof.
  unfold pixel_at, SCREEN_WIDTH, SCREEN_HEIGHT. intros Hj.
  assert (H := Z.div_mod j 320 ltac:(lia)).
  assert (H' := Z.mod_pos_bound j 320 ltac:(lia)).
  split; [lia |]. split; [lia |].
  split; [apply Z.div_pos; lia | apply Z.div_lt_upper_bound; lia].
Qed.


(** ** The movement tick on a placed piece *)

(** Every shape of the table has an occupied cell. *)
Lemma shape_has_bit (t r : Z) :
  0 <= t < 7 -> 0 <= r < 4 ->
  exists y x, 0 <= y < 4 /\ 0 <= x < 4 /\ shape_bit (shape_of t r) y x = true.
Proof.
  intros Ht Hr.
  assert (Hex : existsb (fun '(y, x) => shape_bit (shape_of t r) y x)
                        shape_cells = true).
  { assert (t = 0 \/ t = 1 \/ t = 2 \/ t = 3 \/ t = 4 \/ t = 5 \/ t = 6)
      as [-> | [-> | [-> | [-> | [-> | [-> | ->]]]]]] by lia;
      assert (r = 0 \/ r = 1 \/ r = 2 \/ r = 3)
        as [-> | [-> | [-> | ->]]] by lia;
      vm_compute; reflexivity. }
  apply existsb_exists in Hex as ([y x] & Hin & Hbit).
  apply list_elem_of_In, elem_of_shape_cells in Hin. exists y, x. tauto.
Qed.

(** A piece that overlaps nothing is at most three cells off the board. *)
Lemma free_piece_position (g : Game) :
  wf_piece (currentPiece g) ->
  fst (check_collision currentPiece g) = 0 ->
  -3 <= Piece.x (currentPiece g) < BOARD_WIDTH /\
  -3 <= Piece.y (currentPiece g) < BOARD_HEIGHT.
Proof.
  intros Hwf Hfree.
  destruct (shape_has_bit (Piece.type (currentPiece g))
              (Piece.rotation (currentPiece g)))
    as (y & x & Hy & Hx & Hbit); [apply Hwf | apply Hwf |].
  assert (Hfp : footprint (currentPiece g) (Piece.y (currentPiece g) + y)
                          (Piece.x (currentPiece g) + x) = true).
  { apply footprint_true. exists y, x. tauto. }
  destruct (footprint_in_board g _ _ Hwf Hfree Hfp) as [HX HY]. lia.
Qed.

(** [lock_piece] on a piece that overlaps nothing, cell by cell. *)
Lemma lock_piece_cells (g : Game) :
  wf_board (board g) -> wf_piece (currentPiece g) ->
  fst (check_collision currentPiece g) = 0 ->
  wf_board (board (lock_piece g)) /\
  forall Y X,
    cell (board (lock_piece g)) Y X =
    if footprint (currentPiece g) Y X
    then Piece.type (currentPiece g) + 1 else cell (board g) Y X.
Proof.
  intros Hwf Hp Hfree.
  assert (Hnot : forall y x, 0 <= y < 4 -> 0 <= x < 4 ->
            shape_bit (shape_of (Piece.type (currentPiece g))
                                (Piece.rotation (currentPiece g))) y x = true ->
            ~ blocked (board g) (currentPiece g) y x).
  { destruct Hp as (_ & _ & Hx & Hy).
    destruct (check_collision_cases currentPiece g Hx Hy) as [[_ H] | [E _]];
      [exact H |]. rewrite E in Hfree. discriminate Hfree. }
  destruct (lock_cells_spec (currentPiece g) (board g) Hwf Hnot) as [Hwf' Hcell].
  assert (Hcolour : int_add (Piece.type (currentPiece g)) 1 =
                    Piece.type (currentPiece g) + 1).
  { destruct Hp as (Ht & _). apply wrap_int_id.
    unfold is_int, INT_MIN, INT_MAX. lia. }
  rewrite Hcolour in Hcell.
  split; [exact Hwf' | exact Hcell].
Qed.

(** * Properties stated by the specification *)

(** ** Line-clear pass *)

(** C1, as the specification states it, fails on [cross_board]: column 0
    has no empty cell before the pass, yet the column loop finds it
    incomplete, the pass counts one line only, no column index is
    recorded, and the cell at row 5 of column 0 is still occupied when
    the clearing is over. *)
Lemma cross_board_column_not_cleared :
  wf_board cross_board /\
  row_complete cross_board 0 = true /\
  col_complete cross_board 0 = true /\
  col_flag cross_board 0 = false /\
  linesCleared (scan_lines cross_board) = 1 /\
  lastClearedRow (scan_lines cross_board) = 0 /\
  lastClearedCol (scan_lines cross_board) = -1 /\
  cell (sc_board (scan_lines cross_board)) 5 0 = 1.
Proof.
  split; [| by vm_compute].
  apply (bool_decide_unpack _). by vm_compute.
Qed.

(** C1 (amended): in a single line-clear pass the rows are evaluated
    against the board as it was before the pass, and the columns against
    the board in which the complete rows of this pass are already empty.
    A row counts as complete iff none of its W cells is empty before the
    pass; a column counts as complete iff none of its H cells is empty
    before the pass and no row is complete.  Exactly the cells of the
    lines so found are emptied, and [linesCleared] is their number. *)
Theorem check_lines_columns_after_rows (b : Board) :
  (forall y, 0 <= y < BOARD_HEIGHT -> row_flag b y = row_complete b y) /\
  (forall x, 0 <= x < BOARD_WIDTH ->
     col_flag b x = col_complete b x && negb (has_full_row b)) /\
  (forall y x, 0 <= y < BOARD_HEIGHT -> 0 <= x < BOARD_WIDTH ->
     cell (sc_board (scan_lines b)) y x =
     if row_flag b y || col_flag b x then BLACK else cell b y x) /\
  linesCleared (scan_lines b) =
    Z.of_nat (length (List.filter (row_flag b) (range 0 BOARD_HEIGHT))) +
    Z.of_nat (length (List.filter (col_flag b) (range 0 BOARD_WIDTH))).
Proof.
  split; [intros y _; apply row_flag_spec |].
  split; [apply col_flag_spec |].
  split; [apply cell_scan_lines | apply linesCleared_scan_lines].
Qed.

Lemma check_lines_columns_after_rows_witness :
  col_flag cross_board 0 =
  col_complete cross_board 0 && negb (has_full_row cross_board).
Proof.
  apply (proj1 (proj2 (check_lines_columns_after_rows cross_board)) 0).
  unfold BOARD_WIDTH. lia.
Defined.

(** ** Gravity resolver *)

(** C3: when [apply_gravity] returns, the board is a fixed point of the
    quadrant rules selected by its arguments: a further sweep changes
    nothing, and along the fall axis of each selected rule no occupied
    cell of the affected rows or columns has an empty cell between it
    and the edge towards which cells fall.  The loop does return, and
    its result does not depend on the fuel of the model. *)
Theorem apply_gravity_settles (b : Board) (clearedRow clearedCol : Z) :
  exists (n : nat) (b' : Board),
    apply_gravity n clearedRow clearedCol b = Some b' /\
    gravity_sweep clearedRow clearedCol b' = (b', 0) /\
    settled clearedRow clearedCol b' /\
    forall m b'', apply_gravity m clearedRow clearedCol b = Some b'' -> b'' = b'.
Proof.
  destruct (apply_gravity_terminates (gravity_fuel clearedRow clearedCol b)
              clearedRow clearedCol b) as [b' Hb']; [done |].
  exists (gravity_fuel clearedRow clearedCol b), b'.
  split; [done |]. split; [by eapply apply_gravity_result |].
  split; [by eapply apply_gravity_settled |].
  intros m b'' Hm. by eapply apply_gravity_fuel_irrelevant.
Qed.

Lemma apply_gravity_settles_witness :
  exists (n : nat) (b' : Board),
    apply_gravity n 0 (-1) (sc_board (scan_lines cross_board)) = Some b' /\
    gravity_sweep 0 (-1) b' = (b', 0) /\
    settled 0 (-1) b' /\
    forall m b'',
      apply_gravity m 0 (-1) (sc_board (scan_lines cross_board)) = Some b'' ->
      b'' = b'.
Proof.
  apply (apply_gravity_settles (sc_board (scan_lines cross_board)) 0 (-1)).
Defined.

(** C4: [apply_gravity] terminates for every board and every pair of
    arguments: some sweep, reached after at most [potential] sweeps that
    moved cells, moves zero cells, and there the loop exits. *)
Theorem apply_gravity_terminates_always (b : Board) (clearedRow clearedCol : Z) :
  exists k : nat,
    (Z.of_nat k <= potential clearedRow clearedCol b) /\
    (forall j, (j < k)%nat ->
       0 < snd (gravity_sweep clearedRow clearedCol
                  (sweeps_after clearedRow clearedCol j b))) /\
    snd (gravity_sweep clearedRow clearedCol
           (sweeps_after clearedRow clearedCol k b)) = 0 /\
    forall n, (k < n)%nat ->
      apply_gravity n clearedRow clearedCol b =
      Some (sweeps_after clearedRow clearedCol k b).
Proof.
  destruct (apply_gravity_terminates (gravity_fuel clearedRow clearedCol b)
              clearedRow clearedCol b) as [b' Hb']; [done |].
  apply apply_gravity_trace in Hb' as (k & _ & Hafter & Hfix & Hpos & Hfuel).
  exists k. subst b'. repeat split; [| done | by rewrite Hfix | done].
  pose proof (potential_sweeps_after clearedRow clearedCol k b Hpos).
  pose proof (potential_nonneg clearedRow clearedCol
                (sweeps_after clearedRow clearedCol k b)).
  lia.
Qed.

Lemma apply_gravity_terminates_always_witness :
  exists k : nat,
    (Z.of_nat k <= potential 0 (-1) (sc_board (scan_lines cross_board))) /\
    (forall j, (j < k)%nat ->
       0 < snd (gravity_sweep 0 (-1)
                  (sweeps_after 0 (-1) j (sc_board (scan_lines cross_board))))) /\
    snd (gravity_sweep 0 (-1)
           (sweeps_after 0 (-1) k (sc_board (scan_lines cross_board)))) = 0 /\
    forall n, (k < n)%nat ->
      apply_gravity n 0 (-1) (sc_board (scan_lines cross_board)) =
      Some (sweeps_after 0 (-1) k (sc_board (scan_lines cross_board))).
Proof.
  apply (apply_gravity_terminates_always
           (sc_board (scan_lines cross_board)) 0 (-1)).
Defined.

(** ** Collision checker *)

(** C5: for every board and every placement, [check_collision] reports
    invalid (returns non-zero, in fact 1) iff at least one occupied cell
    of the 4x4 shape, translated by the position of the piece, falls
    outside [0, 20) x [0, 20) or lands on a non-empty board cell; and it
    leaves the board, the piece and every other global as they were. *)
Theorem check_collision_spec (p : Game -> Piece) (g : Game) :
  is_int (Piece.x (p g)) -> is_int (Piece.y (p g)) ->
  snd (check_collision p g) = g /\
  (fst (check_collision p g) = 0 \/ fst (check_collision p g) = 1) /\
  (fst (check_collision p g) <> 0 <->
   exists y x, 0 <= y < 4 /\ 0 <= x < 4 /\
     shape_bit (shape_of (Piece.type (p g)) (Piece.rotation (p g))) y x = true /\
     (~ (0 <= Piece.x (p g) + x < BOARD_WIDTH /\
         0 <= Piece.y (p g) + y < BOARD_HEIGHT) \/
      cell (board g) (Piece.y (p g) + y) (Piece.x (p g) + x) <> BLACK)).
Proof.
  intros Hx Hy. split; [apply check_collision_state |].
  destruct (check_collision_cases p g Hx Hy) as [[E H] | [E H]]; rewrite E; simpl.
  - split; [by left |]. split; [done |].
    intros (y & x & Hy4 & Hx4 & Hbit & Hb). exfalso. by apply (H y x).
  - split; [by right |]. split; [| done]. intros _. exact H.
Qed.

Lemma check_collision_spec_witness :
  snd (check_collision currentPiece
         (set_currentPiece fresh_game (Piece.with_x centre_piece 17))) =
  set_currentPiece fresh_game (Piece.with_x centre_piece 17) /\
  fst (check_collision currentPiece
         (set_currentPiece fresh_game (Piece.with_x centre_piece 17))) <> 0.
Proof.
  pose proof (check_collision_spec currentPiece
                (set_currentPiece fresh_game (Piece.with_x centre_piece 17)))
    as H.
  destruct H as (Hstate & _ & Hiff).
  - unfold is_int, INT_MIN, INT_MAX. simpl. lia.
  - unfold is_int, INT_MIN, INT_MAX. simpl. lia.
  - split; [exact Hstate |]. apply Hiff. exists 1, 3.
    split; [lia |]. split; [lia |]. split; [reflexivity |].
    left. unfold BOARD_WIDTH. simpl. lia.
Defined.

(** ** Lock *)

(** C9: locking a piece whose placement is collision-free sets exactly
    the board cells under the occupied cells of its shape, translated by
    its position, to the colour tag [type + 1]; every other cell of the
    board, and every other global, is unchanged. *)
Theorem lock_piece_footprint (g : Game) :
  wf_board (board g) -> wf_piece (currentPiece g) ->
  fst (check_collision currentPiece g) = 0 ->
  let p := currentPiece g in
  let under (Y X : Z) : Prop :=
    exists y x, 0 <= y < 4 /\ 0 <= x < 4 /\
      shape_bit (shape_of (Piece.type p) (Piece.rotation p)) y x = true /\
      Y = Piece.y p + y /\ X = Piece.x p + x in
  (forall Y X, under Y X ->
     cell (board (lock_piece g)) Y X = Piece.type p + 1) /\
  (forall Y X, ~ under Y X ->
     cell (board (lock_piece g)) Y X = cell (board g) Y X) /\
  wf_board (board (lock_piece g)) /\
  set_board (lock_piece g) (board g) = g.
Proof.
  intros Hwf (Htype & Hrot & Hx & Hy) Hfree p under.
  assert (Hnot : forall y x, 0 <= y < 4 -> 0 <= x < 4 ->
            shape_bit (shape_of (Piece.type p) (Piece.rotation p)) y x = true ->
            ~ blocked (board g) p y x).
  { destruct (check_collision_cases currentPiece g Hx Hy) as [[_ H] | [E _]];
      [exact H |]. rewrite E in Hfree. done. }
  destruct (lock_cells_spec p (board g) Hwf Hnot) as [Hwf' Hcell].
  assert (Hcolour : int_add (Piece.type p) 1 = Piece.type p + 1).
  { apply wrap_int_id. unfold is_int, INT_MIN, INT_MAX. fold p in Htype. lia. }
  assert (Hunder : forall Y X, footprint p Y X = true <-> under Y X).
  { intros Y X. unfold footprint, under. rewrite existsb_exists. split.
    - intros ([y x] & Hin & H). apply list_elem_of_In, elem_of_shape_cells in Hin.
      apply andb_prop in H as [H HX]. apply andb_prop in H as [Hbit HY].
      apply Z.eqb_eq in HX, HY. exists y, x. tauto.
    - intros (y & x & Hy4 & Hx4 & Hbit & -> & ->). exists (y, x). split.
      + apply list_elem_of_In, elem_of_shape_cells. done.
      + by rewrite Hbit, !Z.eqb_refl. }
  split; [| split; [| split]].
  - intros Y X HU. simpl. fold p. rewrite Hcell.
    apply Hunder in HU. by rewrite HU.
  - intros Y X HU. simpl. fold p. rewrite Hcell.
    destruct (footprint p Y X) eqn:E; [| done]. apply Hunder in E. done.
  - exact Hwf'.
  - by destruct g.
Qed.

Lemma lock_piece_footprint_witness :
  cell (board (lock_piece fresh_game)) 9 8 = 1 /\
  cell (board (lock_piece fresh_game)) 8 8 = cell (board fresh_game) 8 8.
Proof.
  assert (Hwf : wf_board (board fresh_game)) by apply wf_board_init.
  assert (Hp : wf_piece (currentPiece fresh_game)).
  { unfold wf_piece, is_int, INT_MIN, INT_MAX. simpl. lia. }
  assert (Hfree : fst (check_collision currentPiece fresh_game) = 0)
    by reflexivity.
  destruct (lock_piece_footprint fresh_game Hwf Hp Hfree) as (Hin & Hout & _).
  split.
  - apply (Hin 9 8). exists 1, 0. simpl.
    split; [lia |]. split; [lia |]. split; [reflexivity |]. lia.
  - apply (Hout 8 8). intros (y & x & Hy & Hx & Hbit & HY & HX). simpl in HY, HX.
    assert (y = 0) by lia. assert (x = 0) by lia. subst. discriminate Hbit.
Defined.

(** ** Rotation *)

(** C8: each call of [rotate_piece] either advances the rotation state by
    exactly 1 modulo 4 (when the turned piece is collision-free) or
    leaves the state as it was (when it is rejected), and never touches
    the position; for a piece all four of whose rotation states are
    collision-free at its position, four calls return the piece to its
    original rotation state and position. *)
Theorem rotate_piece_spec (g : Game) :
  wf_piece (currentPiece g) ->
  let p := currentPiece g in
  let turned :=
    set_currentPiece g
      (Piece.with_rotation p ((Piece.rotation p + 1) mod 4)) in
  (fst (check_collision currentPiece turned) = 0 -> rotate_piece g = turned) /\
  (fst (check_collision currentPiece turned) <> 0 -> rotate_piece g = g) /\
  Piece.x (currentPiece (rotate_piece g)) = Piece.x p /\
  Piece.y (currentPiece (rotate_piece g)) = Piece.y p /\
  ((forall r, 0 <= r < 4 ->
      fst (check_collision currentPiece
             (set_currentPiece g (Piece.with_rotation p r))) = 0) ->
   rotate_piece (rotate_piece (rotate_piece (rotate_piece g))) = g).
Proof.
  intros (_ & Hrot & _ & _) p turned.
  pose proof (rotate_piece_step g Hrot) as Hstep. fold p turned in Hstep.
  split; [| split; [| split; [| split]]].
  - intros E. by rewrite Hstep, E.
  - intros E. rewrite Hstep.
    by destruct (Z.eqb_spec (fst (check_collision currentPiece turned)) 0).
  - rewrite Hstep. by destruct (_ =? 0).
  - rewrite Hstep. by destruct (_ =? 0).
  - intros Hfree.
    assert (Hturn : forall r, 0 <= r < 4 ->
              rotate_piece (set_currentPiece g (Piece.with_rotation p r)) =
              set_currentPiece g (Piece.with_rotation p ((r + 1) mod 4))).
    { intros r Hr.
      rewrite (rotate_piece_step (set_currentPiece g (Piece.with_rotation p r)))
        by done.
      cbv zeta.
      cbn [currentPiece set_currentPiece Piece.rotation Piece.with_rotation].
      change (Piece.with_rotation (Piece.with_rotation p r) ?s)
        with (Piece.with_rotation p s).
      change (set_currentPiece (set_currentPiece g ?a) ?q)
        with (set_currentPiece g q).
      rewrite Hfree; [done |]. by apply Z.mod_pos_bound. }
    rewrite <- (set_currentPiece_same g) at 1.
    rewrite <- (with_rotation_same (currentPiece g)) at 1. fold p.
    rewrite !Hturn; try done; try (by apply Z.mod_pos_bound).
    replace (((((Piece.rotation p + 1) mod 4 + 1) mod 4 + 1) mod 4 + 1) mod 4)
      with (Piece.rotation p).
    + unfold p. by rewrite with_rotation_same, set_currentPiece_same.
    + fold p in Hrot.
      assert (Piece.rotation p = 0 \/ Piece.rotation p = 1 \/
              Piece.rotation p = 2 \/ Piece.rotation p = 3)
        as [-> | [-> | [-> | ->]]] by lia; reflexivity.
Qed.

Lemma rotate_piece_spec_witness :
  rotate_piece (rotate_piece (rotate_piece (rotate_piece fresh_game))) =
  fresh_game.
Proof.
  assert (Hp : wf_piece (currentPiece fresh_game)).
  { unfold wf_piece, is_int, INT_MIN, INT_MAX. simpl. lia. }
  apply (proj2 (proj2 (proj2 (proj2 (rotate_piece_spec fresh_game Hp))))).
  intros r Hr.
  assert (r = 0 \/ r = 1 \/ r = 2 \/ r = 3) as [-> | [-> | [-> | ->]]] by lia;
    reflexivity.
Defined.

(** ** Movement tick *)

(** C6: a movement tick on a piece of a running game (a 20x20 board, a
    piece of the shape table that overlaps nothing, a direction among
    the four) translates the piece by exactly one cell along its
    direction (down: +y, up: -y, left: -x, right: +x).  If
    [check_collision] accepts the translated placement, that is the new
    state.  If it rejects it, the undo restores the piece exactly as it
    was before the tick (position, rotation, kind and direction) and the
    piece is locked into the board there: the cells under the piece at
    its position before the tick hold the colour tag [type + 1], every
    other cell and every other global is as before, and this is the
    state that the line-clear pass and then the spawn of the next piece
    work on.  When the lock completes no line, these are the cells of
    the board that the tick leaves.  The tick always returns. *)
Theorem handle_tick_movement_spec (fuel : nat) (g : Game) :
  let p := currentPiece g in
  wf_board (board g) -> wf_piece p -> 0 <= Piece.direction p <= 3 ->
  fst (check_collision currentPiece g) = 0 ->
  let moved := tick_translate p in
  let locked := lock_piece g in
  Z.abs (Piece.x moved - Piece.x p) + Z.abs (Piece.y moved - Piece.y p) = 1 /\
  (Piece.direction p = DIR_DOWN -> moved = Piece.with_y p (Piece.y p + 1)) /\
  (Piece.direction p = DIR_UP -> moved = Piece.with_y p (Piece.y p - 1)) /\
  (Piece.direction p = DIR_LEFT -> moved = Piece.with_x p (Piece.x p - 1)) /\
  (Piece.direction p = DIR_RIGHT -> moved = Piece.with_x p (Piece.x p + 1)) /\
  (fst (check_collision currentPiece (set_currentPiece g moved)) = 0 ->
   handle_tick_movement fuel g = Some (set_currentPiece g moved)) /\
  (fst (check_collision currentPiece (set_currentPiece g moved)) <> 0 ->
   tick_undo moved = p /\
   currentPiece locked = p /\
   set_board locked (board g) = g /\
   wf_board (board locked) /\
   (forall Y X,
      cell (board locked) Y X =
      if footprint p Y X then Piece.type p + 1 else cell (board g) Y X) /\
   handle_tick_movement fuel g =
   option_map spawn_piece (check_lines fuel locked) /\
   (has_full_row (board locked) = false ->
    has_full_col (board locked) = false ->
    exists g', handle_tick_movement fuel g = Some g' /\
      forall Y X,
        cell (board g') Y X =
        if footprint p Y X then Piece.type p + 1 else cell (board g) Y X)) /\
  (exists n, forall m, (n <= m)%nat -> is_Some (handle_tick_movement m g)).
Proof.
  intros p Hwf Hp Hd Hfree moved locked.
  destruct (free_piece_position g Hp Hfree) as [Hpx Hpy]. fold p in Hpx, Hpy.
  assert (Hx : INT_MIN < Piece.x p < INT_MAX)
    by (unfold INT_MIN, INT_MAX, BOARD_WIDTH in *; lia).
  assert (Hy : INT_MIN < Piece.y p < INT_MAX)
    by (unfold INT_MIN, INT_MAX, BOARD_HEIGHT in *; lia).
  assert (Hix : is_int (Piece.x p)) by (unfold is_int; lia).
  assert (Hiy : is_int (Piece.y p)) by (unfold is_int; lia).
  assert (Hinc : forall a, INT_MIN < a < INT_MAX ->
            int_add a 1 = a + 1 /\ int_sub a 1 = a - 1).
  { intros a Ha. unfold int_add, int_sub.
    split; apply wrap_int_id; unfold is_int; lia. }
  destruct (Hinc _ Hx) as [Hx1 Hx2]. destruct (Hinc _ Hy) as [Hy1 Hy2].
  split; [| split; [| split; [| split; [| split; [| split; [| split]]]]]].
  - unfold DIR_DOWN, DIR_UP, DIR_LEFT, DIR_RIGHT in *.
    assert (Piece.direction p = 0 \/ Piece.direction p = 1 \/
            Piece.direction p = 2 \/ Piece.direction p = 3)
      as [E | [E | [E | E]]] by lia;
      unfold moved, tick_translate; rewrite E;
      cbn [Z.eqb Pos.eqb DIR_DOWN DIR_UP DIR_LEFT DIR_RIGHT
           Piece.with_x Piece.with_y Piece.x Piece.y];
      rewrite ?Hx1, ?Hx2, ?Hy1, ?Hy2; lia.
  - intros E. unfold moved, tick_translate. rewrite E. simpl. by rewrite Hy1.
  - intros E. unfold moved, tick_translate. rewrite E. simpl. by rewrite Hy2.
  - intros E. unfold moved, tick_translate. rewrite E. simpl. by rewrite Hx2.
  - intros E. unfold moved, tick_translate. rewrite E. simpl. by rewrite Hx1.
  - intros E. rewrite handle_tick_movement_unfold. cbv zeta. fold p moved.
    by rewrite E.
  - intros E.
    destruct (lock_piece_cells g Hwf Hp Hfree) as [Hwfl Hcells].
    fold p locked in Hwfl, Hcells.
    assert (Htick : handle_tick_movement fuel g =
                    option_map spawn_piece (check_lines fuel locked)).
    { rewrite handle_tick_movement_unfold. cbv zeta. fold p moved.
      destruct (Z.eqb_spec (fst (check_collision currentPiece
                                   (set_currentPiece g moved))) 0); [done |].
      cbn [currentPiece set_currentPiece].
      unfold moved. rewrite tick_undo_translate by done.
      unfold p. by rewrite set_currentPiece_twice, set_currentPiece_same. }
    split; [by apply tick_undo_translate |].
    split; [reflexivity |].
    split; [unfold locked; by destruct g |].
    split; [exact Hwfl |]. split; [exact Hcells |]. split; [exact Htick |].
    intros Hrow Hcol. exists (spawn_piece locked). split.
    + rewrite Htick. unfold check_lines.
      rewrite (scan_lines_none _ Hrow Hcol).
      cbn [scan_start lastClearedRow lastClearedCol linesCleared sc_board
           Z.eqb negb orb].
      rewrite update_score_no_case by lia. by destruct locked.
    + intros Y X. destruct (spawn_piece_fields locked) as (-> & _).
      apply Hcells.
  - apply handle_tick_movement_terminates.
Qed.

Lemma handle_tick_movement_spec_witness :
  exists g', handle_tick_movement 1 resting_game = Some g' /\
    cell (board g') 19 8 = 1 /\ cell (board g') 19 11 = 1 /\
    cell (board g') 19 12 = BLACK /\ cell (board g') 18 8 = BLACK.
Proof.
  assert (Hwf : wf_board (board resting_game)) by apply wf_board_init.
  assert (Hp : wf_piece (currentPiece resting_game)).
  { unfold wf_piece, is_int, INT_MIN, INT_MAX. simpl. lia. }
  assert (Hd : 0 <= Piece.direction (currentPiece resting_game) <= 3)
    by (simpl; unfold DIR_DOWN; lia).
  assert (Hfree : fst (check_collision currentPiece resting_game) = 0)
    by reflexivity.
  destruct (handle_tick_movement_spec 1 resting_game Hwf Hp Hd Hfree)
    as (_ & _ & _ & _ & _ & _ & Hrej & _).
  destruct Hrej as (_ & _ & _ & _ & _ & _ & Hend); [discriminate |].
  destruct Hend as (g' & Hg' & Hcells); [reflexivity | reflexivity |].
  exists g'. split; [exact Hg' |]. rewrite !Hcells.
  split; [reflexivity |]. split; [reflexivity |].
  split; reflexivity.
Defined.

(** ** Score and speed *)

(** C7: a line-clear pass that clears exactly 1, 2, 3 or 4 lines (rows
    and columns counted together) adds exactly 100, 300, 500 or 800 to
    the score.  The score is an [int] that the addition does not
    overflow; the pass always returns. *)
Theorem check_lines_adds_score (g : Game) :
  0 <= score g <= INT_MAX - 800 ->
  let n := linesCleared (scan_lines (board g)) in
  (exists fuel, forall m, (fuel <= m)%nat -> is_Some (check_lines m g)) /\
  forall fuel g', check_lines fuel g = Some g' ->
    (n = 1 -> score g' = score g + 100) /\
    (n = 2 -> score g' = score g + 300) /\
    (n = 3 -> score g' = score g + 500) /\
    (n = 4 -> score g' = score g + 800).
Proof.
  intros Hscore n. split; [apply check_lines_terminates |].
  intros fuel g' Hrun. apply check_lines_result in Hrun as [Hupd _].
  fold n in Hupd. clearbody n.
  pose proof (update_score_score n (score g) (speed g) Hscore) as H.
  rewrite <- Hupd in H. exact H.
Qed.

Lemma check_lines_adds_score_witness :
  exists g', check_lines 2 (set_board fresh_game bottom_row_board) = Some g' /\
             score g' = 0 + 100.
Proof.
  destruct (check_lines 2 (set_board fresh_game bottom_row_board))
    as [g' |] eqn:Hrun; [| by vm_compute in Hrun].
  exists g'. split; [reflexivity |].
  assert (Hscore : 0 <= score (set_board fresh_game bottom_row_board)
                        <= INT_MAX - 800)
    by (unfold INT_MAX; simpl; lia).
  destruct (check_lines_adds_score (set_board fresh_game bottom_row_board) Hscore)
    as [_ Hadd].
  destruct (Hadd 2%nat g' Hrun) as [H1 _]. apply H1. by vm_compute.
Defined.

(** C10: a line-clear pass that finds 5 or more complete lines adds
    nothing to the score and leaves the fall period as it is; score and
    fall period change only for 1 to 4 lines. *)
Theorem check_lines_five_or_more (g : Game) :
  let n := linesCleared (scan_lines (board g)) in
  (exists fuel, forall m, (fuel <= m)%nat -> is_Some (check_lines m g)) /\
  forall fuel g', check_lines fuel g = Some g' ->
    (5 <= n -> score g' = score g /\ speed g' = speed g) /\
    (score g' <> score g \/ speed g' <> speed g -> 1 <= n <= 4).
Proof.
  intros n. split; [apply check_lines_terminates |].
  intros fuel g' Hrun. apply check_lines_result in Hrun as [Hupd _].
  fold n in Hupd. clearbody n.
  destruct (decide (1 <= n <= 4)) as [Hin | Hout].
  - split; [lia | done].
  - rewrite update_score_no_case in Hupd by done.
    injection Hupd as -> ->. split; [done |]. intros [H | H]; done.
Qed.

Lemma check_lines_five_or_more_witness :
  linesCleared (scan_lines full_board) = 20 /\
  exists g', check_lines 1 (set_board fresh_game full_board) = Some g' /\
             score g' = 0 /\ speed g' = startSpeed.
Proof.
  split; [by vm_compute |].
  destruct (check_lines 1 (set_board fresh_game full_board))
    as [g' |] eqn:Hrun; [| by vm_compute in Hrun].
  exists g'. split; [reflexivity |].
  destruct (check_lines_five_or_more (set_board fresh_game full_board))
    as [_ Hsame].
  destruct (Hsame 1%nat g' Hrun) as [H5 _]. apply H5. by vm_compute.
Defined.

(** C2 (the code departs from it): the guard [speed > 1000] is tested
    before the subtraction and the difference is not clamped.  From a
    fresh session, six single-line clears leave score 600 and fall
    period 59999; the seventh subtracts 700 * 400 and leaves the fall
    period at -220001, below the threshold of 1000 and not positive. *)
Theorem speed_falls_below_threshold :
  option_map (fun g => (score g, speed g)) (clear_bottom_rows 6 fresh_game) =
    Some (600, 59999) /\
  option_map (fun g => (score g, speed g)) (clear_bottom_rows 7 fresh_game) =
    Some (700, -220001) /\
  update_score 1 600 59999 = (700, -220001).
Proof. by vm_compute. Qed.

(** * Further properties of the program *)

(** ** Gravity resolver *)

(** X1: on a 20x20 board [apply_gravity] only moves cells: the result is
    again a 20x20 board, a board whose cells were all valid colour tags
    keeps that property, and for every cell value the number of cells
    holding it is the same before and after. *)
Theorem apply_gravity_conserves_cells (n : nat) (r c : Z) (b b' : Board) :
  wf_board b -> apply_gravity n r c b = Some b' ->
  wf_board b' /\ (colours_ok b -> colours_ok b') /\
  forall k, count_colour k b' = count_colour k b.
Proof.
  intros Hwf Hrun.
  apply (apply_gravity_invariant
           (fun bd => wf_board bd /\ (colours_ok b -> colours_ok bd) /\
                      forall k, count_colour k bd = count_colour k b)
           r c) with (n := n) (b := b); [| done | done].
  intros m bd ch Hm (Hwf' & Hcol & Hcount). split; [by apply run_move_wf |].
  split; [intros Hok; by apply run_move_colours, Hcol |].
  intros k. rewrite <- Hcount. unfold count_colour.
  apply (run_move_sum_cells (fun v => if v =? k then 1 else 0) r c); [| done].
  pose proof (sweep_moves_fall r c) as Hfall. rewrite Forall_forall in Hfall.
  by apply Hfall.
Qed.

Lemma apply_gravity_conserves_cells_witness :
  exists b', apply_gravity 3 0 (-1) (sc_board (scan_lines cross_board)) = Some b' /\
             wf_board b' /\
             count_colour 1 b' = count_colour 1 (sc_board (scan_lines cross_board)).
Proof.
  destruct (apply_gravity 3 0 (-1) (sc_board (scan_lines cross_board)))
    as [b' |] eqn:Hrun; [| by vm_compute in Hrun].
  exists b'. split; [reflexivity |].
  assert (Hwf : wf_board (sc_board (scan_lines cross_board))).
  { apply (bool_decide_unpack _). by vm_compute. }
  destruct (apply_gravity_conserves_cells 3 0 (-1) _ b' Hwf Hrun)
    as (Hwf' & _ & Hcount).
  split; [exact Hwf' | apply Hcount].
Defined.

(** X2: [apply_gravity] leaves every cell outside the swept rows and
    columns as it was: with a row above the centre only the upper half
    is swept, with a row at or below it only the lower half, with a
    column at or right of the centre only the right half and with a
    column left of it only the left half. *)
Theorem apply_gravity_frame (n : nat) (r c : Z) (b b' : Board) (y x : Z) :
  apply_gravity n r c b = Some b' -> outside_sweep r c y x ->
  cell b' y x = cell b y x.
Proof.
  intros Hrun Hout.
  apply (apply_gravity_invariant (fun bd => cell bd y x = cell b y x) r c)
    with (n := n) (b := b); [| done | done].
  intros m bd ch Hm Hbd. rewrite <- Hbd. by apply (run_move_frame r c).
Qed.

Lemma apply_gravity_frame_witness :
  exists b', apply_gravity 3 0 (-1) (sc_board (scan_lines cross_board)) = Some b' /\
             cell b' 15 0 = cell (sc_board (scan_lines cross_board)) 15 0.
Proof.
  destruct (apply_gravity 3 0 (-1) (sc_board (scan_lines cross_board)))
    as [b' |] eqn:Hrun; [| by vm_compute in Hrun].
  exists b'. split; [reflexivity |].
  apply (apply_gravity_frame 3 0 (-1) _ b' 15 0 Hrun).
  split; [right; left; split; by vm_compute | by left].
Defined.

(** X3: [apply_gravity] is idempotent: called again with the same
    arguments on its own result, it returns that board after a single
    sweep without changes. *)
Theorem apply_gravity_idempotent (n m : nat) (r c : Z) (b b' : Board) :
  apply_gravity n r c b = Some b' -> apply_gravity (S m) r c b' = Some b'.
Proof.
  intros Hrun. apply apply_gravity_result in Hrun.
  cbn [apply_gravity]. by rewrite Hrun.
Qed.

Lemma apply_gravity_idempotent_witness :
  exists b', apply_gravity 3 0 (-1) (sc_board (scan_lines cross_board)) = Some b' /\
             apply_gravity 1 0 (-1) b' = Some b'.
Proof.
  destruct (apply_gravity 3 0 (-1) (sc_board (scan_lines cross_board)))
    as [b' |] eqn:Hrun; [| by vm_compute in Hrun].
  exists b'. split; [reflexivity |].
  apply (apply_gravity_idempotent 3 0 0 (-1) _ b' Hrun).
Defined.

(** ** Line-clear pass *)

(** X4: a pass over a board with no complete row and no complete column
    changes nothing: board, score, speed and every other global are as
    before, and the gravity resolver is not run (no fuel is used). *)
Theorem check_lines_no_line (fuel : nat) (g : Game) :
  has_full_row (board g) = false -> has_full_col (board g) = false ->
  check_lines fuel g = Some g.
Proof.
  intros Hrow Hcol. unfold check_lines.
  rewrite (scan_lines_none _ Hrow Hcol). cbn [scan_start lastClearedRow
    lastClearedCol linesCleared sc_board Z.eqb negb orb].
  rewrite update_score_no_case by lia. by destruct g.
Qed.

Lemma check_lines_no_line_witness : check_lines 0 fresh_game = Some fresh_game.
Proof. apply check_lines_no_line; by vm_compute. Defined.

(** X5: when the clearing phase of a pass is over, no row and no column
    of the board is complete. *)
Theorem scan_lines_leaves_no_line (b : Board) :
  has_full_row (sc_board (scan_lines b)) = false /\
  has_full_col (sc_board (scan_lines b)) = false.
Proof.
  assert (H0 : 0 <= 0 < BOARD_HEIGHT /\ 0 <= 0 < BOARD_WIDTH) by done.
  destruct H0 as [H0y H0x]. split.
  - apply has_full_row_false. intros y Hy. apply not_true_iff_false.
    intros Hc. rewrite row_complete_true in Hc.
    assert (Hrow : row_complete b y = false).
    { destruct (cell_scan_lines_cases b y 0 Hy H0x) as [[E _] | [_ [E _]]];
        [| done]. by apply Hc in E. }
    assert (row_complete b y = true); [| congruence].
    apply row_complete_true. intros x Hx.
    destruct (cell_scan_lines_cases b y x Hy Hx) as [[E _] | [E _]].
    + by apply Hc in E.
    + rewrite <- E. by apply Hc.
  - apply has_full_col_false. intros x Hx. apply not_true_iff_false.
    intros Hc. rewrite col_complete_true in Hc.
    assert (Hcells : forall y, 0 <= y < BOARD_HEIGHT ->
              cell b y x <> BLACK /\ row_complete b y = false /\
              col_flag b x = false).
    { intros y Hy.
      destruct (cell_scan_lines_cases b y x Hy Hx) as [[E _] | [E [? ?]]].
      - by apply Hc in E.
      - split; [| done]. rewrite <- E. by apply Hc. }
    destruct (Hcells 0 H0y) as (_ & _ & Hflag).
    rewrite col_flag_spec in Hflag by done.
    assert (Hfull : col_complete b x = true).
    { apply col_complete_true. intros y Hy. apply Hcells. done. }
    assert (Hnone : has_full_row b = false).
    { apply has_full_row_false. intros y Hy. apply Hcells. done. }
    rewrite Hfull, Hnone in Hflag. done.
Qed.

(** X6: a pass never clears rows and columns together: at most one of
    the two indices handed to [apply_gravity] differs from -1.  The
    number of lines it counts lies between 0 and 20, and is 0 exactly
    when both indices are -1. *)
Theorem scan_lines_one_axis (b : Board) :
  (lastClearedRow (scan_lines b) = -1 \/ lastClearedCol (scan_lines b) = -1) /\
  0 <= linesCleared (scan_lines b) <= 20 /\
  (linesCleared (scan_lines b) = 0 <->
   lastClearedRow (scan_lines b) = -1 /\ lastClearedCol (scan_lines b) = -1).
Proof.
  destruct (scan_lines_locals b) as (-> & -> & ->).
  assert (HH : 0 <= BOARD_HEIGHT) by done. assert (HW : 0 <= BOARD_WIDTH) by done.
  pose proof (length_filter_range (row_complete b) _ HH) as Hlr.
  pose proof (length_filter_range (col_flag b) _ HW) as Hlc.
  assert (EH : BOARD_HEIGHT = 20) by done.
  assert (EW : BOARD_WIDTH = 20) by done.
  destruct (has_full_row b) eqn:Hrow.
  - rewrite (col_flags_none b Hrow). cbn [List.last length].
    split; [by right |]. split; [lia |].
    destruct (last_filter_range (row_complete b) (-1) _ HH)
      as [(_ & _ & Hnone) | (Hr & Hf & _)].
    + apply has_full_row_true in Hrow as (y & Hy & Hc).
      rewrite Hnone in Hc by done. done.
    + assert (Hin : In (List.last (List.filter (row_complete b)
                                     (range 0 BOARD_HEIGHT)) (-1))
                       (List.filter (row_complete b) (range 0 BOARD_HEIGHT))).
      { apply filter_In. split; [| done].
        by apply list_elem_of_In, elem_of_range. }
      destruct (List.filter (row_complete b) (range 0 BOARD_HEIGHT)) eqn:E;
        [done |].
      split; [cbn [length]; lia | intros [H' _]; lia].
  - rewrite (row_flags_none b Hrow). cbn [List.last length].
    split; [by left |]. split; [lia |].
    destruct (last_filter_range (col_flag b) (-1) _ HW)
      as [(Hl & Hnil & _) | (Hr & Hf & _)].
    + rewrite Hnil. cbn [List.last length]. split; done.
    + assert (Hin : In (List.last (List.filter (col_flag b)
                                     (range 0 BOARD_WIDTH)) (-1))
                       (List.filter (col_flag b) (range 0 BOARD_WIDTH))).
      { apply filter_In. split; [| done].
        by apply list_elem_of_In, elem_of_range. }
      destruct (List.filter (col_flag b) (range 0 BOARD_WIDTH)) eqn:E;
        [done |].
      split; [cbn [length]; lia | intros [_ H']; lia].
Qed.

(** X7: the row index handed to [apply_gravity] is -1 when no row is
    complete and otherwise the greatest index of a complete row; the
    column index is -1 when a row is complete or no column is, and
    otherwise the greatest index of a complete column. *)
Theorem scan_lines_last_indices (b : Board) :
  (has_full_row b = false -> lastClearedRow (scan_lines b) = -1) /\
  (has_full_row b = true ->
   0 <= lastClearedRow (scan_lines b) < BOARD_HEIGHT /\
   row_complete b (lastClearedRow (scan_lines b)) = true /\
   forall y, 0 <= y < BOARD_HEIGHT -> row_complete b y = true ->
             y <= lastClearedRow (scan_lines b)) /\
  (has_full_row b = true \/ has_full_col b = false ->
   lastClearedCol (scan_lines b) = -1) /\
  (has_full_row b = false -> has_full_col b = true ->
   0 <= lastClearedCol (scan_lines b) < BOARD_WIDTH /\
   col_complete b (lastClearedCol (scan_lines b)) = true /\
   forall x, 0 <= x < BOARD_WIDTH -> col_complete b x = true ->
             x <= lastClearedCol (scan_lines b)).
Proof.
  destruct (scan_lines_locals b) as (_ & -> & ->).
  assert (HH : 0 <= BOARD_HEIGHT) by done. assert (HW : 0 <= BOARD_WIDTH) by done.
  split; [| split; [| split]].
  - intros Hrow. by rewrite (row_flags_none b Hrow).
  - intros Hrow.
    destruct (last_filter_range (row_complete b) (-1) _ HH)
      as [(_ & _ & Hnone) | H]; [| exact H].
    apply has_full_row_true in Hrow as (y & Hy & Hc).
    rewrite Hnone in Hc by done. done.
  - intros [Hrow | Hcol]; [by rewrite (col_flags_none b Hrow) |].
    rewrite filter_none; [done |]. intros x Hx%elem_of_range.
    rewrite col_flag_spec by done.
    rewrite has_full_col_false in Hcol. by rewrite Hcol.
  - intros Hrow Hcol.
    assert (Hflag : forall x, 0 <= x < BOARD_WIDTH ->
              col_flag b x = col_complete b x).
    { intros x Hx. rewrite col_flag_spec by done. rewrite Hrow.
      apply andb_true_r. }
    destruct (last_filter_range (col_flag b) (-1) _ HW)
      as [(_ & _ & Hnone) | (Hr & Hf & Hmax)].
    + apply has_full_col_true in Hcol as (x & Hx & Hc).
      rewrite <- Hflag, Hnone in Hc by done. done.
    + split; [done |]. split; [by rewrite <- Hflag |].
      intros x Hx Hc. apply Hmax; [done |]. by rewrite Hflag.
Qed.

Lemma scan_lines_last_indices_witness :
  row_complete cross_board (lastClearedRow (scan_lines cross_board)) = true /\
  lastClearedCol (scan_lines cross_board) = -1.
Proof.
  destruct (scan_lines_last_indices cross_board) as (_ & Hrow & Hcol & _).
  assert (Hfull : has_full_row cross_board = true) by by vm_compute.
  split; [apply (Hrow Hfull) | apply Hcol; by left].
Defined.

(** X8: the score never goes down in a pass and grows by at most 800;
    the speed (the timer period) never goes up.  At or below 1000 the
    speed is left alone; above 1000, a pass that clears [n] lines, [n]
    from 1 to 4, lowers it by the new score times 400 times [n].  (For a
    score of at most 1000000, where none of the products overflows.) *)
Theorem check_lines_speed_law (fuel : nat) (g g' : Game) :
  check_lines fuel g = Some g' ->
  0 <= score g <= 1000000 -> is_int (speed g) ->
  let n := linesCleared (scan_lines (board g)) in
  score g <= score g' <= score g + 800 /\
  speed g' <= speed g /\
  (speed g <= 1000 -> speed g' = speed g) /\
  (1000 < speed g -> 1 <= n <= 4 ->
   speed g' = speed g - score g' * 400 * n).
Proof.
  intros Hrun Hsc Hsp n. apply check_lines_result in Hrun as [Hupd _].
  fold n in Hupd. clearbody n.
  destruct (decide (1 <= n <= 4)) as [Hn | Hn].
  - rewrite update_score_exact in Hupd by done.
    injection Hupd as Hscore Hspeed. rewrite Hscore, Hspeed.
    assert (Hpts : 100 <= (if n =? 1 then 100 else if n =? 2 then 300
                           else if n =? 3 then 500 else 800) <= 800).
    { destruct (n =? 1), (n =? 2), (n =? 3); lia. }
    destruct (Z.gtb_spec (speed g) 1000); repeat split; try lia; nia.
  - rewrite update_score_no_case in Hupd by done.
    injection Hupd as -> ->. repeat split; lia.
Qed.

Lemma check_lines_speed_law_witness :
  exists g', check_lines 2 (set_board fresh_game bottom_row_board) = Some g' /\
             speed g' = startSpeed - score g' * 400 * 1.
Proof.
  destruct (check_lines 2 (set_board fresh_game bottom_row_board))
    as [g' |] eqn:Hrun; [| by vm_compute in Hrun].
  exists g'. split; [reflexivity |].
  assert (Hsc : 0 <= score (set_board fresh_game bottom_row_board) <= 1000000)
    by (simpl; lia).
  assert (Hsp : is_int (speed (set_board fresh_game bottom_row_board)))
    by (unfold is_int, INT_MIN, INT_MAX; simpl; unfold startSpeed; lia).
  destruct (check_lines_speed_law 2 _ g' Hrun Hsc Hsp) as (_ & _ & _ & Hlaw).
  assert (En : linesCleared (scan_lines (board (set_board fresh_game
                                                  bottom_row_board))) = 1)
    by by vm_compute.
  rewrite En in Hlaw. apply Hlaw; [simpl; unfold startSpeed; lia | lia].
Defined.

(** ** Board initialisation *)

(** X9: the loops of [init_board] leave a 20x20 board in which every
    cell is [BLACK], whatever the board held before. *)
Theorem init_board_cells_spec (b : Board) :
  wf_board b -> init_board_cells b = init_board.
Proof.
  intros Hwf. apply board_ext.
  - by apply wf_board_init_board_cells.
  - apply wf_board_init.
  - intros y x Hy Hx. rewrite cell_init_board_cells by done.
    by rewrite cell_init_board.
Qed.

Lemma init_board_cells_spec_witness : init_board_cells cross_board = init_board.
Proof.
  apply init_board_cells_spec. apply (bool_decide_unpack _). by vm_compute.
Defined.

(** ** Random source and spawn *)

(** X10: [my_rand] returns a value between 0 and 32767 and keeps
    [randState] within 32 bits, whatever the state was. *)
Theorem my_rand_range (st : Z) :
  0 <= fst (my_rand st) <= 32767 /\ 0 <= snd (my_rand st) < 2 ^ 32.
Proof. apply my_rand_bounds. Qed.

(** X11: [spawn_piece] puts a piece of kind 0 to 6, in rotation 0 and
    with a direction 0 to 3, at position (8, 8); it leaves the board,
    the score and the speed alone; it sets [gameOver] to 1 exactly when
    the new piece collides, and otherwise leaves the flag as it was. *)
Theorem spawn_piece_spec (g : Game) :
  let g' := spawn_piece g in
  board g' = board g /\ score g' = score g /\ speed g' = speed g /\
  Piece.x (currentPiece g') = 8 /\ Piece.y (currentPiece g') = 8 /\
  Piece.rotation (currentPiece g') = 0 /\
  0 <= Piece.type (currentPiece g') < 7 /\
  0 <= Piece.direction (currentPiece g') < 4 /\
  gameOver g' =
    if fst (check_collision currentPiece g') =? 0 then gameOver g else 1.
Proof.
  intros g'. destruct (spawn_piece_fields g) as (Hb & Hsc & Hsp & _ & Hp & Hover).
  destruct (spawn_piece_wf g) as [(Ht & _) Hd]. fold g' in Hb, Hsc, Hsp, Hp, Hover, Ht, Hd.
  split; [done |]. split; [done |]. split; [done |].
  split; [by rewrite Hp |]. split; [by rewrite Hp |]. split; [by rewrite Hp |].
  split; [done |]. split; [lia | done].
Qed.

(** ** The session *)

(** X12: the start of a session, from the label [game_start] to the
    loop, yields an empty 20x20 board, score 0, the start speed, a
    cleared tick counter and a live game: the first piece never collides
    and [gameOver] is 0. *)
Theorem game_start_spec (timer_status switches : Z) (g0 : Game) :
  wf_board (board g0) ->
  let '(g, c) := game_start timer_status switches g0 in
  board g = init_board /\ score g = 0 /\ speed g = startSpeed /\
  gameOver g = 0 /\ engine_inv g /\
  timeoutcount c = 0 /\ lastButtonState c = 0.
Proof.
  intros Hwf. unfold game_start.
  set (g1 := {| board := init_board_cells (board g0); currentPiece := _;
                gameOver := 0; score := 0; speed := startSpeed;
                randState := _ |}).
  destruct (spawn_piece_fields g1) as (Hb & Hsc & Hsp & _ & Hp & Hover).
  assert (Hboard : board (spawn_piece g1) = init_board).
  { rewrite Hb. unfold g1. cbn [board].
    apply board_ext; [by apply wf_board_init_board_cells | apply wf_board_init |].
    intros y x Hy Hx. by rewrite cell_init_board_cells, cell_init_board. }
  assert (Hfree : fst (check_collision currentPiece (spawn_piece g1)) = 0).
  { apply check_collision_centre_empty; [done | |]; by rewrite Hp. }
  rewrite Hfree in Hover. cbn [Z.eqb] in Hover.
  split; [done |]. split; [done |]. split; [done |]. split; [done |].
  split; [| done].
  apply engine_inv_spawn_piece. unfold g1. cbn [board]. split.
  - by apply wf_board_init_board_cells.
  - intros y x. destruct (decide (0 <= y < BOARD_HEIGHT /\ 0 <= x < BOARD_WIDTH))
      as [[Hy Hx] | Hout].
    + rewrite cell_init_board_cells by done. unfold BLACK. lia.
    + rewrite cell_not_in_board; [unfold BLACK; lia |].
      destruct (in_board _ y x) eqn:E; [| done]. exfalso. apply Hout.
      pose proof (wf_board_init_board_cells _ Hwf) as [Hlen Hrows].
      unfold in_board in E. apply andb_prop in E as [E Hrow].
      apply andb_prop in E as [Hy Hx]. apply Z.leb_le in Hy, Hx.
      destruct (init_board_cells (board g0) !! Z.to_nat y) as [row |] eqn:Hr;
        [| done].
      apply bool_decide_eq_true in Hrow.
      pose proof (lookup_lt_Some _ _ _ Hr) as Hlt.
      rewrite Forall_lookup in Hrows. rewrite (Hrows _ _ Hr) in Hrow.
      unfold BOARD_HEIGHT, BOARD_WIDTH in *. lia.
Qed.

Lemma game_start_spec_witness :
  gameOver (fst (game_start 12345 0 fresh_game)) = 0 /\
  board (fst (game_start 12345 0 fresh_game)) = init_board.
Proof.
  pose proof (game_start_spec 12345 0 fresh_game wf_board_init) as H.
  destruct (game_start 12345 0 fresh_game) as [g c].
  destruct H as (Hb & _ & _ & Hover & _). by split.
Defined.

(** X13: the loop of [main] keeps the invariant of a session over any
    sequence of button, switch and timer readings: the board stays 20x20
    with colour tags 0 to 7, the piece stays well formed with a
    direction 0 to 3, and as long as [gameOver] is 0 the piece overlaps
    no occupied cell and lies inside the board.  The loop returns for
    every finite sequence of readings, and it changes nothing once
    [gameOver] is set. *)
Theorem main_loop_keeps_invariant (inputs : list Inputs) (st : Game * Controls) :
  engine_inv (fst st) ->
  (exists n st', main_loop n inputs st = Some st') /\
  (forall n st', main_loop n inputs st = Some st' -> engine_inv (fst st')) /\
  (gameOver (fst st) <> 0 -> forall n, main_loop n inputs st = Some st).
Proof.
  intros Hinv. split; [apply main_loop_terminates |].
  split; [intros n st'; by apply engine_inv_main_loop |].
  intros Hover n. destruct inputs as [| i rest]; [done |].
  cbn [main_loop]. by destruct (Z.eqb_spec (gameOver (fst st)) 0).
Qed.

Lemma main_loop_keeps_invariant_witness :
  exists n st',
    main_loop n [mkInputs 1 0 1; mkInputs 0 1 1]
      (fresh_game, mkControls 19 0 0) = Some st' /\
    engine_inv (fst st').
Proof.
  assert (Hinv : engine_inv (fst (fresh_game, mkControls 19 0 0))).
  { unfold engine_inv. cbn [fst]. split; [apply wf_board_init |].
    split; [apply colours_ok_init |].
    split; [unfold wf_piece, is_int, INT_MIN, INT_MAX; simpl; lia |].
    split; [simpl; unfold DIR_DOWN; lia | intros _; reflexivity]. }
  destruct (main_loop_keeps_invariant [mkInputs 1 0 1; mkInputs 0 1 1]
              (fresh_game, mkControls 19 0 0) Hinv) as ((n & st' & Hrun) & Hkeep & _).
  exists n, st'. split; [exact Hrun | by apply (Hkeep n)].
Defined.

(** ** Input handling *)

(** X14: [handle_switch_changes] changes nothing but the direction of
    the piece and [lastSwitchState].  The new direction follows the
    switch that has moved since the last poll, with priority right
    (switch 0), left (switch 1), up (switch 3), down (switch 2); if none
    of the four has moved the direction stays.  A second poll that
    reads the same switches changes nothing. *)
Theorem handle_switch_changes_spec (sw : Z) (g : Game) (c : Controls) :
  let st' := handle_switch_changes sw (g, c) in
  fst st' =
    set_direction g
      (if toggled sw (lastSwitchState c) 0 then DIR_RIGHT
       else if toggled sw (lastSwitchState c) 1 then DIR_LEFT
       else if toggled sw (lastSwitchState c) 3 then DIR_UP
       else if toggled sw (lastSwitchState c) 2 then DIR_DOWN
       else Piece.direction (currentPiece g)) /\
  snd st' =
    {| timeoutcount := timeoutcount c; lastButtonState := lastButtonState c;
       lastSwitchState := Z.land sw 0x3FF |} /\
  handle_switch_changes sw st' = st'.
Proof.
  intros st'. split; [apply handle_switch_changes_game |].
  split; [apply handle_switch_changes_controls |].
  destruct st' as [g' c'] eqn:Hst'.
  assert (Hc' : c' = snd (handle_switch_changes sw (g, c))).
  { subst st'. by rewrite Hst'. }
  rewrite handle_switch_changes_controls in Hc'.
  rewrite (surjective_pairing (handle_switch_changes sw (g', c'))).
  rewrite handle_switch_changes_game, handle_switch_changes_controls.
  f_equal.
  - subst c'. cbn [lastSwitchState]. rewrite !toggled_same by lia.
    apply set_direction_same.
  - subst c'. reflexivity.
Qed.

(** X15: [handle_input] rotates the piece exactly on a press of the
    button (bit 0 of the reading set while [lastButtonState] is 0) and
    records the button; whatever it does, the board and the position,
    kind and direction of the piece stay as they were; and while the
    button is held, further calls change nothing. *)
Theorem handle_input_spec (bt : Z) (g : Game) (c : Controls) :
  let st' := handle_input bt (g, c) in
  fst st' =
    (if Z.testbit bt 0 && (lastButtonState c =? 0) then rotate_piece g else g) /\
  snd st' =
    {| timeoutcount := timeoutcount c;
       lastButtonState := if Z.testbit bt 0 then 1 else 0;
       lastSwitchState := lastSwitchState c |} /\
  (exists r, fst st' =
             set_currentPiece g (Piece.with_rotation (currentPiece g) r)) /\
  handle_input bt st' = st'.
Proof.
  intros st'. unfold st', handle_input. cbn [fst snd]. cbv zeta.
  rewrite land_1_testbit.
  destruct (Z.testbit bt 0); cbn [Z.eqb negb andb].
  - split; [done |]. split; [done |]. split.
    + destruct (lastButtonState c =? 0); [apply rotate_piece_frame |].
      exists (Piece.rotation (currentPiece g)).
      by rewrite with_rotation_same, set_currentPiece_same.
    + done.
  - split; [done |]. split; [done |]. split; [| done].
    exists (Piece.rotation (currentPiece g)).
    by rewrite with_rotation_same, set_currentPiece_same.
Qed.

(** ** Timer period *)

(** X16: [init_timer] enables the timer with control value 7 and splits
    [speed] into two 16-bit halves that together hold [speed] modulo
    2^32: the period is [speed] itself when [speed] is not negative, and
    [speed + 2^32] when it is. *)
Theorem init_timer_period (g : Game) :
  is_int (speed g) ->
  TIMER_CONTROL (init_timer g) = 7 /\
  0 <= TIMER_PERIODL (init_timer g) < 2 ^ 16 /\
  0 <= TIMER_PERIODH (init_timer g) < 2 ^ 16 /\
  timer_period (init_timer g) =
    if speed g <? 0 then speed g + 2 ^ 32 else speed g.
Proof.
  intros Hsp. unfold init_timer, timer_period.
  pose proof (period_registers_spec (speed g)) as H.
  destruct (period_registers (speed g)) as [lo hi].
  destruct H as (Hlo & Hhi & Hsum).
  cbn [TIMER_CONTROL TIMER_PERIODL TIMER_PERIODH].
  split; [done |]. split; [done |]. split; [done |].
  rewrite Hsum. unfold is_int, INT_MIN, INT_MAX in Hsp.
  destruct (Z.ltb_spec (speed g) 0).
  - rewrite <- (Z.mod_add _ 1) by lia. rewrite Z.mod_small; lia.
  - rewrite Z.mod_small; lia.
Qed.

Lemma init_timer_period_witness : timer_period (init_timer fresh_game) = 899999.
Proof.
  assert (Hsp : is_int (speed fresh_game)).
  { unfold is_int, INT_MIN, INT_MAX. simpl. unfold startSpeed. lia. }
  destruct (init_timer_period fresh_game Hsp) as (_ & _ & _ & ->).
  reflexivity.
Defined.

(** ** Score display *)

(** X17: the digit conversion of [draw_score] and [draw_game_over]
    yields between one and five decimal digits that stand for the score
    modulo 100000, so a score from 0 to 99999 is shown exactly, and a
    positive one without a leading zero; a larger score loses its upper
    digits, and for a negative score no digit is drawn at all. *)
Theorem score_digits_spec (sc : Z) :
  (sc < 0 -> score_digits sc = []) /\
  (0 <= sc ->
   digits_value (score_digits sc) = sc mod 100000 /\
   Forall (fun d => 0 <= d <= 9) (score_digits sc) /\
   (1 <= length (score_digits sc) <= 5)%nat) /\
  (0 <= sc < 100000 -> digits_value (score_digits sc) = sc) /\
  (0 < sc < 100000 -> head (score_shown sc) <> Some 0).
Proof.
  assert (Hnonneg : 0 <= sc ->
            digits_value (score_digits sc) = sc mod 100000 /\
            Forall (fun d => 0 <= d <= 9) (score_digits sc) /\
            (1 <= length (score_digits sc) <= 5)%nat).
  { intros Hsc. unfold score_digits.
    destruct (Z.eqb_spec sc 0) as [-> | Hne].
    - cbn. repeat split; [| lia | lia]. repeat constructor; lia.
    - cbn [length app Nat.sub].
      destruct (score_digits_loop_spec 5 sc Hsc) as (Hval & Hdig & Hlen).
      split; [exact Hval |]. split; [exact Hdig |]. split; [| exact Hlen].
      cbn [score_digits_loop]. destruct (Z.gtb_spec sc 0); [cbn [length]; lia | lia]. }
  split; [| split; [exact Hnonneg | split]].
  - intros Hneg. unfold score_digits.
    destruct (Z.eqb_spec sc 0); [lia |]. cbn [length app Nat.sub score_digits_loop].
    destruct (Z.gtb_spec sc 0); [lia | done].
  - intros Hsc. destruct (Hnonneg ltac:(lia)) as [-> _]. apply Z.mod_small. lia.
  - intros Hsc. unfold score_shown, score_digits.
    destruct (Z.eqb_spec sc 0); [lia |]. cbn [length app Nat.sub].
    pose proof (score_digits_loop_leading 5 sc ltac:(simpl; lia)) as Hlead.
    destruct (score_digits_loop 5 sc) as [| d ds] eqn:E using rev_ind; [done |].
    rewrite reverse_snoc. cbn [head]. rewrite last_last in Hlead. congruence.
Qed.

Lemma score_digits_spec_witness : digits_value (score_digits 700) = 700.
Proof.
  destruct (score_digits_spec 700) as (_ & _ & Hexact & _).
  apply Hexact. lia.
Defined.

(** ** Rendering *)

(** X18: no value of a [char] selects the white entry of
    [get_vga_color], because the tag [WHITE] does not fit in a [char];
    the border colour passed by [draw_board] and the light edge of
    [draw_block] therefore come out as the background grey 0x92.  The
    result is a byte other than 0xFF, and it is the background grey for
    every value outside the seven piece colours. *)
Theorem get_vga_color_white_unreachable (c : Z) :
  -128 <= c <= 255 ->
  get_vga_color c <> 0xFF /\
  0 <= get_vga_color c <= 255 /\
  get_vga_color (to_char WHITE) = get_vga_color BLACK /\
  (get_vga_color c = get_vga_color BLACK \/ 1 <= c <= 7).
Proof.
  intros Hc.
  assert (Hblack : get_vga_color BLACK = 0x92) by reflexivity.
  assert (Hwhite : get_vga_color (to_char WHITE) = 0x92) by reflexivity.
  rewrite Hwhite, Hblack.
  assert (Hcases : get_vga_color c = 0x92 /\ ~ 1 <= c <= 7 \/
                   1 <= c <= 7 /\ 0 <= get_vga_color c <= 255 /\
                   get_vga_color c <> 0xFF).
  { unfold get_vga_color, WHITE, BLACK, CYAN, BLUE, ORANGE, YELLOW, GREEN,
      PURPLE, RED.
    repeat match goal with
           | |- context [c =? ?b] => destruct (Z.eqb_spec c b)
           end; lia. }
  destruct Hcases as [[E Hn] | (Hr & Hb & Hn)].
  - rewrite E. split; [lia |]. split; [lia |]. split; [reflexivity | by left].
  - split; [exact Hn |]. split; [exact Hb |]. split; [reflexivity | by right].
Qed.

Lemma get_vga_color_white_unreachable_witness :
  get_vga_color 187 <> 0xFF.
Proof.
  destruct (get_vga_color_white_unreachable 187) as [H _]; [lia | exact H].
Defined.

(** X19: [draw_block] for a cell in or next to the board writes no byte
    outside the frame buffer of 320x240 pixels, and on the screen it
    changes exactly the pixels of the 8x8 square of that cell, each to
    the shade that [block_pixel] gives for its place in the square. *)
Theorem draw_block_spec (x y color : Z) (fb : Framebuffer) :
  -1 <= x <= BOARD_WIDTH -> -1 <= y <= BOARD_HEIGHT ->
  (forall j, ~ (0 <= j < SCREEN_WIDTH * SCREEN_HEIGHT) ->
     draw_block x y color fb j = fb j) /\
  (forall px py, 0 <= px < SCREEN_WIDTH -> 0 <= py < SCREEN_HEIGHT ->
     draw_block x y color fb (pixel_at px py) =
     if in_block x y px py
     then block_pixel color (px - (BOARD_START_X + x * BLOCK_SIZE))
                            (py - (BOARD_START_Y + y * BLOCK_SIZE))
     else fb (pixel_at px py)).
Proof.
  intros Hx Hy. split.
  - intros j Hj. destruct (draw_block_pixels x y color fb) as [H _].
    exact (H j Hj).
  - intros px py Hpx Hpy. by apply draw_block_at.
Qed.

Lemma draw_block_spec_witness :
  draw_block 3 4 CYAN (fun _ => 0) (-1) = 0.
Proof.
  destruct (draw_block_spec 3 4 CYAN (fun _ => 0)) as [H _];
    [unfold BOARD_WIDTH; lia | unfold BOARD_HEIGHT; lia |].
  apply (H (-1)). lia.
Defined.

(** X20: after [draw_board] every pixel of the square of a board cell
    shows the shade of that cell's colour (the background shade for an
    empty cell), whatever was on the screen before, and every pixel of
    the squares of the frame around the board shows the shade of the
    border colour. *)
Theorem draw_board_shows_board (b : Board) (fb : Framebuffer)
    (x y dx dy : Z) :
  0 <= dx < BLOCK_SIZE -> 0 <= dy < BLOCK_SIZE ->
  (0 <= x < BOARD_WIDTH -> 0 <= y < BOARD_HEIGHT ->
   draw_board b fb (pixel_at (BOARD_START_X + x * BLOCK_SIZE + dx)
                             (BOARD_START_Y + y * BLOCK_SIZE + dy)) =
   block_pixel (cell b y x) dx dy) /\
  (on_border x y ->
   draw_board b fb (pixel_at (BOARD_START_X + x * BLOCK_SIZE + dx)
                             (BOARD_START_Y + y * BLOCK_SIZE + dy)) =
   block_pixel (to_char WHITE) dx dy).
Proof.
  intros Hdx Hdy.
  assert (Hin := in_block_offsets x y dx dy Hdx Hdy).
  assert (Ex : BOARD_START_X + x * BLOCK_SIZE + dx -
               (BOARD_START_X + x * BLOCK_SIZE) = dx) by lia.
  assert (Ey : BOARD_START_Y + y * BLOCK_SIZE + dy -
               (BOARD_START_Y + y * BLOCK_SIZE) = dy) by lia.
  split.
  - intros Hx Hy.
    destruct (block_on_screen x y dx dy) as [Hpx Hpy]; [lia | lia | done | done |].
    rewrite (draw_board_cell b fb x y _ _ Hx Hy Hpx Hpy Hin).
    by rewrite Ex, Ey.
  - intros Hb.
    destruct (block_on_screen x y dx dy) as [Hpx Hpy];
      [apply Hb | apply Hb | done | done |].
    rewrite (draw_board_border b fb x y _ _ Hb Hpx Hpy Hin).
    by rewrite Ex, Ey.
Qed.

Lemma draw_board_shows_board_witness :
  draw_board init_board (fun _ => 0)
    (pixel_at (BOARD_START_X + 3 * BLOCK_SIZE + 2)
              (BOARD_START_Y + 4 * BLOCK_SIZE + 5)) =
  block_pixel (cell init_board 4 3) 2 5.
Proof.
  destruct (draw_board_shows_board init_board (fun _ => 0) 3 4 2 5) as [H _];
    [unfold BLOCK_SIZE; lia | unfold BLOCK_SIZE; lia |].
  apply H; [unfold BOARD_WIDTH; lia | unfold BOARD_HEIGHT; lia].
Defined.

(** X21: [draw_board] changes nothing but the pixels of the board and
    its frame: every byte at an offset that is outside the frame buffer,
    or that belongs to a pixel outside the square of 22x22 blocks, keeps
    its value. *)
Theorem draw_board_writes_board_area (b : Board) (fb : Framebuffer) (j : Z) :
  ~ board_area_offset j -> draw_board b fb j = fb j.
Proof.
  intros Hout.
  destruct (decide (0 <= j < SCREEN_WIDTH * SCREEN_HEIGHT)) as [Hj | Hj].
  - destruct (pixel_at_div j Hj) as (Ej & Hpx & Hpy).
    assert (Harea : ~ in_board_area (j mod SCREEN_WIDTH) (j / SCREEN_WIDTH)).
    { intros H. apply Hout. by split. }
    set (px := j mod SCREEN_WIDTH) in *. set (py := j / SCREEN_WIDTH) in *.
    clearbody px py. rewrite Ej. by apply draw_board_frame.
  - rewrite draw_board_paints. by rewrite !paint_all_outside.
Qed.

Lemma draw_board_writes_board_area_witness :
  draw_board init_board (fun _ => 7) 0 = 7.
Proof.
  apply (draw_board_writes_board_area init_board (fun _ => 7) 0).
  unfold board_area_offset, in_board_area, SCREEN_WIDTH, SCREEN_HEIGHT,
    BLOCK_SIZE, BOARD_WIDTH, BOARD_HEIGHT.
  change BOARD_START_X with 80. change BOARD_START_Y with 40.
  change (0 mod 320) with 0. change (0 / 320) with 0. lia.
Defined.

(** X22: for a piece that overlaps nothing, [draw_current_piece] paints
    the squares of the cells of its footprint in the shade of the colour
    [type + 1], one of the seven piece colours, and leaves every other
    pixel of the screen as it was. *)
Theorem draw_current_piece_spec (g : Game) (fb : Framebuffer)
    (X Y px py : Z) :
  wf_piece (currentPiece g) ->
  fst (check_collision currentPiece g) = 0 ->
  0 <= px < SCREEN_WIDTH -> 0 <= py < SCREEN_HEIGHT ->
  in_block X Y px py = true ->
  CYAN <= Piece.type (currentPiece g) + 1 <= RED /\
  draw_current_piece g fb (pixel_at px py) =
  if footprint (currentPiece g) Y X
  then block_pixel (Piece.type (currentPiece g) + 1)
                   (px - (BOARD_START_X + X * BLOCK_SIZE))
                   (py - (BOARD_START_Y + Y * BLOCK_SIZE))
  else fb (pixel_at px py).
Proof.
  intros Hwf Hfree Hpx Hpy Hin. split.
  - destruct Hwf as (Ht & _). unfold CYAN, RED. lia.
  - rewrite draw_current_piece_paints, (piece_colour _ Hwf).
    by apply piece_blocks_at.
Qed.

Lemma draw_current_piece_spec_witness :
  draw_current_piece fresh_game (fun _ => 0) (pixel_at 0 0) = 0.
Proof.
  assert (Hwf : wf_piece (currentPiece fresh_game)).
  { unfold wf_piece, is_int, INT_MIN, INT_MAX. cbn. lia. }
  assert (Hfree : fst (check_collision currentPiece fresh_game) = 0)
    by (vm_compute; reflexivity).
  destruct (draw_current_piece_spec fresh_game (fun _ => 0) (-10) (-5) 0 0
              Hwf Hfree) as [_ H];
    [unfold SCREEN_WIDTH; lia | unfold SCREEN_HEIGHT; lia
     | vm_compute; reflexivity |].
  rewrite H. vm_compute. reflexivity.
Defined.

(** X23: painting the piece in the background colour, as the game loop
    of [main] does before it moves the piece, over the picture of the
    board with the piece on it gives back the picture of the board:
    a piece that overlaps nothing leaves no trace on the screen. *)
Theorem erase_restores_board (g : Game) (fb : Framebuffer) (j : Z) :
  wf_piece (currentPiece g) ->
  fst (check_collision currentPiece g) = 0 ->
  erase_current_piece g (draw_current_piece g (draw_board (board g) fb)) j =
  draw_board (board g) fb j.
Proof.
  intros Hwf Hfree.
  rewrite erase_current_piece_paints, draw_current_piece_paints.
  destruct (decide (0 <= j < SCREEN_WIDTH * SCREEN_HEIGHT)) as [Hj | Hj];
    [| by rewrite !paint_all_outside].
  destruct (pixel_at_div j Hj) as (Ej & Hpx & Hpy).
  set (px := j mod SCREEN_WIDTH) in *. set (py := j / SCREEN_WIDTH) in *.
  clearbody px py. subst j.
  assert (Hin := in_block_div px py).
  set (X := (px - BOARD_START_X) / BLOCK_SIZE) in *.
  set (Y := (py - BOARD_START_Y) / BLOCK_SIZE) in *. clearbody X Y.
  rewrite (piece_blocks_at BLACK g _ X Y px py Hwf Hfree Hpx Hpy Hin).
  destruct (footprint (currentPiece g) Y X) eqn:Hfp.
  - destruct (footprint_in_board g Y X Hwf Hfree Hfp) as [HX HY].
    rewrite (draw_board_cell (board g) fb X Y px py HX HY Hpx Hpy Hin).
    by rewrite (footprint_free g Y X Hwf Hfree Hfp).
  - rewrite (piece_blocks_at _ g _ X Y px py Hwf Hfree Hpx Hpy Hin).
    by rewrite Hfp.
Qed.

Lemma erase_restores_board_witness :
  erase_current_piece fresh_game
    (draw_current_piece fresh_game
       (draw_board (board fresh_game) (fun _ => 0))) 30000 =
  draw_board (board fresh_game) (fun _ => 0) 30000.
Proof.
  apply (erase_restores_board fresh_game (fun _ => 0) 30000).
  - unfold wf_piece, is_int, INT_MIN, INT_MAX. cbn. lia.
  - vm_compute. reflexivity.
Defined.
